(** * gffviewer: circular genome viewer core

    A shallow embedding of the geometry, spatial index, level-of-detail,
    label placement and zoom/pan code of the viewer, with the properties
    its specification states about them.

    Numbers.  A JavaScript [number] has two embeddings here.

    The path and label helpers whose answer turns on the rounding of a
    result or on a value that is not a finite number ([createArcPath],
    [checkAngleCollision], [canRenderLabel]) are embedded over IEEE
    binary64, [float] with its primitive operations: modules [Double] and
    [UtilsDouble].

    Elsewhere a [number] is a rational [Q] with exact arithmetic: no
    rounding, no NaN and no infinities (the one [Infinity] of the source,
    the open end of the last LOD bucket, has a constructor of its own, and
    where a division by zero decides what is drawn the outcome has one
    too).  [Math.PI] is the rational that the IEEE double of that name
    denotes ([Math_PI_denotes]).  Equalities between computed numbers are
    stated with [==] on [Q]. *)

From Stdlib Require Import Floats.
From Stdlib Require Import ZArith QArith Qminmax Qround Lqa Lia.
From Stdlib Require Import List Bool String DecimalString.
From Stdlib Require Import Qabs Sorted Permutation.
From stdpp Require Import gmap strings.
Import ListNotations.

Local Open Scope Q_scope.

Set Warnings "-inexact-float".

(** ** JavaScript numbers and their comparisons *)

Module Js.

Definition lt (a b : Q) : bool := negb (Qle_bool b a).
Definition le (a b : Q) : bool := Qle_bool a b.
Definition gt (a b : Q) : bool := lt b a.
Definition ge (a b : Q) : bool := le b a.

(** [Math.PI], the double 0x1.921fb54442d18p+1. *)
Definition Math_PI : Q := 884279719003555 # 281474976710656.

Definition Math_min (a b : Q) : Q := Qmin a b.
Definition Math_max (a b : Q) : Q := Qmax a b.

End Js.

(** ** IEEE doubles

    Where the answer of a function turns on the rounding of a result or
    on a value that is not a finite number, the function is embedded
    over binary64 floating-point numbers: [float] with its primitive
    operations is the [number] of the engine, with round-to-nearest-even
    results, signed zeros, infinities and NaN. *)

Module Double.

(** [Math.PI] *)
Definition Math_PI : float := 0x1.921fb54442d18p+1%float.

(** [a < b] and [a > b]; both are false when either side is NaN. *)
Definition lt (a b : float) : bool := PrimFloat.ltb a b.
Definition gt (a b : float) : bool := PrimFloat.ltb b a.

(** What the engine supplies: the two trigonometric functions, whose
    results the language leaves to the implementation, and the printing
    of a number in a template literal, of which only the printing of 0
    and 1 is used in proofs. *)
Class Runtime : Type := {
  Math_cos : float -> float;
  Math_sin : float -> float;
  toString : float -> string;
  toString_0 : toString 0%float = "0"%string;
  toString_1 : toString 1%float = "1"%string
}.

(** The rational a finite double denotes, in lowest terms. *)
Definition toQ (x : float) : option Q :=
  match FloatOps.Prim2SF x with
  | SpecFloat.S754_zero _ => Some 0
  | SpecFloat.S754_finite negative m e =>
      let magnitude :=
        if (0 <=? e)%Z then inject_Z (Zpos m * 2 ^ e)
        else Zpos m # Pos.pow 2 (Z.to_pos (- e)) in
      Some (Qred (if negative then - magnitude else magnitude))
  | _ => None
  end.

End Double.

(** ** Data model (types/core.ts) *)

Inductive Strand : Type := StrandPlus | StrandMinus | StrandNone.

Record Feature : Type := mkFeature {
  feature_id : string;
  feature_name : option string;
  feature_type : string;
  feature_start : Q;
  feature_end : Q;
  feature_strand : Strand;
  feature_attributes : gmap string string;
  feature_sequenceId : option string
}.

Record Track : Type := mkTrack {
  track_id : string;
  track_name : string;
  track_type : string;
  track_visible : bool;
  track_features : list Feature
}.

(** ** Spatial index: the interval tree *)

Module IntervalTree.

(** [IntervalNode | null]: [null] is the absent child. *)
Inductive IntervalNode : Type :=
| null
| Node (feature : Feature) (left right : IntervalNode) (min max : Q).

(** [new IntervalNode(feature)] *)
Definition newNode (feature : Feature) : IntervalNode :=
  Node feature null null (feature_start feature) (feature_end feature).

Definition center (feature : Feature) : Q :=
  (feature_start feature + feature_end feature) / 2.

(** [updateMax]: the only cached bound that is recomputed; [min] keeps
    the value the constructor gave it. *)
Definition updateMax (node : IntervalNode) : IntervalNode :=
  match node with
  | null => null
  | Node f l r mn _ =>
      let m0 := feature_end f in
      let m1 := match l with
                | Node _ _ _ _ lmax => if Js.gt lmax m0 then lmax else m0
                | null => m0
                end in
      let m2 := match r with
                | Node _ _ _ _ rmax => if Js.gt rmax m1 then rmax else m1
                | null => m1
                end in
      Node f l r mn m2
  end.

Fixpoint insertNode (node : IntervalNode) (feature : Feature) : IntervalNode :=
  match node with
  | null => newNode feature
  | Node f l r mn mx =>
      if Js.lt (center feature) (center f)
      then updateMax (Node f (insertNode l feature) r mn mx)
      else updateMax (Node f l (insertNode r feature) mn mx)
  end.

Definition intersects (feature : Feature) (start end_ : Q) : bool :=
  Js.ge (feature_end feature) start && Js.le (feature_start feature) end_.

(** [queryNode] pushes onto [results]; the list is threaded through. *)
Fixpoint queryNode (node : IntervalNode) (start end_ : Q)
    (results : list Feature) : list Feature :=
  match node with
  | null => results
  | Node f l r _ _ =>
      let results1 :=
        if intersects f start end_ then results ++ [f] else results in
      let results2 :=
        match l with
        | Node _ _ _ _ lmax =>
            if Js.ge lmax start then queryNode l start end_ results1
            else results1
        | null => results1
        end in
      match r with
      | Node _ _ _ rmin _ =>
          if Js.le rmin end_ then queryNode r start end_ results2
          else results2
      | null => results2
      end
  end.

Record t : Type := mk {
  root : IntervalNode;
  features : gmap string Feature
}.

Definition empty : t := mk null ∅.

Definition insert (tree : t) (feature : Feature) : t :=
  mk (insertNode (root tree) feature)
     (<[feature_id feature := feature]> (features tree)).

Definition query (tree : t) (start end_ : Q) : list Feature :=
  queryNode (root tree) start end_ [].

Definition clear (tree : t) : t := empty.

(** The features stored in the nodes, in pre-order. *)
Fixpoint stored (node : IntervalNode) : list Feature :=
  match node with
  | null => []
  | Node f l r _ _ => f :: stored l ++ stored r
  end.

Definition insertAll (fs : list Feature) : t := fold_left insert fs empty.

End IntervalTree.


(** ** Level of detail (core/utils/lod-manager.ts) *)

Module LODManager.

(** [maxZoom] of the last default bucket is [Infinity]. *)
Inductive bound : Type :=
| Finite (q : Q)
| Infinity.

Definition lt_bound (z : Q) (b : bound) : bool :=
  match b with
  | Finite q => Js.lt z q
  | Infinity => true
  end.

Record LODLevel : Type := mkLODLevel {
  minZoom : Q;
  maxZoom : bound;
  detailLevel : Z;
  showLabels : bool;
  showFeatures : bool;
  featureDensity : Q
}.

(** The table the constructor and [resetLODLevels] install. *)
Definition defaultLevels : list LODLevel :=
  [ mkLODLevel 0 (Finite 0.1) 1 false true 0.01;
    mkLODLevel 0.1 (Finite 0.5) 2 false true 0.05;
    mkLODLevel 0.5 (Finite 1) 3 true true 0.1;
    mkLODLevel 1 (Finite 2) 4 true true 0.5;
    mkLODLevel 2 (Finite 5) 5 true true 1;
    mkLODLevel 5 Infinity 6 true true 2 ].

(** The test of the loop in [getLOD]. *)
Definition matches (zoomLevel : Q) (level : LODLevel) : bool :=
  Js.ge zoomLevel (minZoom level) && lt_bound zoomLevel (maxZoom level).

(** [this.levels[this.levels.length - 1]]; [None] is the [undefined] an
    empty table gives. *)
Definition lastLevel (levels : list LODLevel) : option LODLevel :=
  nth_error levels (length levels - 1).

Definition getLOD (levels : list LODLevel) (zoomLevel : Q) : option LODLevel :=
  match find (matches zoomLevel) levels with
  | Some level => Some level
  | None => lastLevel levels
  end.

(** [minZoom <= zoom < maxZoom] as a proposition. *)
Definition inBucket (zoomLevel : Q) (level : LODLevel) : Prop :=
  minZoom level <= zoomLevel /\
  match maxZoom level with
  | Finite q => zoomLevel < q
  | Infinity => True
  end.

(** A table without gaps from [from] on: the first bucket starts at
    [from], every bucket starts where the one before it ends, and the
    last one is open-ended. *)
Fixpoint chained (from : Q) (levels : list LODLevel) : Prop :=
  match levels with
  | [] => False
  | level :: rest =>
      minZoom level == from /\
      match rest with
      | [] => maxZoom level = Infinity
      | _ :: _ =>
          exists q, maxZoom level = Finite q /\ from < q /\ chained q rest
      end
  end.

End LODManager.


(** ** The host functions the code calls

    [Math.cos], [Math.sin] and the conversion of a number to text in a
    template literal are taken from the host.  Of the conversion only two
    facts are used: the numbers 0 and 1 print as the digits 0 and 1. *)

Class Runtime : Type := {
  Math_cos : Q -> Q;
  Math_sin : Q -> Q;
  toString : Q -> string;
  toString_0 : toString 0 = "0"%string;
  toString_1 : toString 1 = "1"%string
}.

(** ** Renderer configuration

    [RENDER_CONFIG] is imported from [./config], which is not among the
    sources; its fields are parameters of the functions that read them. *)

Record RenderConfig : Type := mkRenderConfig {
  MIN_TRACK_HEIGHT : Q;
  MAX_TRACK_HEIGHT : Q;
  TRACK_SPACING : Q;
  MIN_ANGLE_WIDTH : Q;
  MIN_GAP_ANGLE : Q;
  MAX_GAP_ANGLE : Q;
  GAP_ANGLE_RATIO : Q;
  LABEL_ANGLE_WIDTH : Q
}.

(** The literals that the export path of core/index.ts uses for the same
    quantities (track heights 15 and 30, spacing 5, minimum angle 0.005,
    gaps 0.0005 and 0.002, ratio 0.05, label width 0.08). *)
Definition exportConfig : RenderConfig :=
  mkRenderConfig 15 30 5 0.005 0.0005 0.002 0.05 0.08.

(** ** Drawing helpers (renderer/circular/utils) *)

Module Utils.

Local Open Scope string_scope.

(** The grammar of the specification for an annulus sector,
    [M x1 y1 A rx ry 0 {0|1} 1 x2 y2 L x3 y3 A rx ry 0 {0|1} 0 x4 y4 Z]:
    the values of its variables, and the text it denotes (the tokens
    separated by single spaces). *)
Record ArcPath : Type := mkArcPath {
  arc_x1 : Q; arc_y1 : Q;
  arc_rx1 : Q; arc_ry1 : Q; arc_large1 : bool;
  arc_x2 : Q; arc_y2 : Q;
  arc_x3 : Q; arc_y3 : Q;
  arc_rx2 : Q; arc_ry2 : Q; arc_large2 : bool;
  arc_x4 : Q; arc_y4 : Q
}.

Definition flagText (flag : bool) : string := if flag then "1" else "0".

Definition arcPathText `{Runtime} (c : ArcPath) : string :=
  String.concat " "
    [ "M"; toString (arc_x1 c); toString (arc_y1 c);
      "A"; toString (arc_rx1 c); toString (arc_ry1 c); "0";
      flagText (arc_large1 c); "1"; toString (arc_x2 c); toString (arc_y2 c);
      "L"; toString (arc_x3 c); toString (arc_y3 c);
      "A"; toString (arc_rx2 c); toString (arc_ry2 c); "0";
      flagText (arc_large2 c); "0"; toString (arc_x4 c); toString (arc_y4 c);
      "Z" ].

Local Close Scope string_scope.

(** The label functions read over the rationals, for the statements
    about the order of the label intervals on the circle; [UtilsDouble]
    has the same functions as the engine computes them. *)
Definition checkAngleCollision
    (currentStart currentEnd labelStart labelEnd : Q) : bool :=
  (Js.lt currentStart labelEnd && Js.gt currentEnd labelStart)
  || (Js.lt (currentStart + 2 * Js.Math_PI) labelEnd
      && Js.gt (currentEnd + 2 * Js.Math_PI) labelStart).

(** An entry of [renderedLabelAngles]: [{ start, end }]. *)
Record LabelAngle : Type := mkLabelAngle {
  label_start : Q;
  label_end : Q
}.

Definition featureCenterAngle (feature : Feature) (genomeLength : Q) : Q :=
  let featureStartAngle := (feature_start feature / genomeLength) * Js.Math_PI * 2 in
  let featureEndAngle := (feature_end feature / genomeLength) * Js.Math_PI * 2 in
  (featureStartAngle + featureEndAngle) / 2.

(** The interval [canRenderLabel] reserves for a feature. *)
Definition labelAngle (feature : Feature) (genomeLength labelAngleWidth : Q)
    : LabelAngle :=
  let c := featureCenterAngle feature genomeLength in
  mkLabelAngle (c - labelAngleWidth / 2) (c + labelAngleWidth / 2).

(** [canRenderLabel] mutates the array it is given; the model returns the
    verdict together with the array after the call. *)
Definition canRenderLabel (feature : Feature) (genomeLength : Q)
    (renderedLabelAngles : list LabelAngle) (labelAngleWidth : Q)
    : bool * list LabelAngle :=
  let labelStartAngle := featureCenterAngle feature genomeLength - labelAngleWidth / 2 in
  let labelEndAngle := featureCenterAngle feature genomeLength + labelAngleWidth / 2 in
  let isCollision :=
    existsb (fun label =>
               checkAngleCollision labelStartAngle labelEndAngle
                 (label_start label) (label_end label))
            renderedLabelAngles in
  if negb isCollision
  then (true, renderedLabelAngles ++ [mkLabelAngle labelStartAngle labelEndAngle])
  else (false, renderedLabelAngles).

(** The inner loop of the label renderer: the features of a track are
    offered to [canRenderLabel] one after the other, all against the one
    shared array.  The result is the features whose label is drawn and the
    array at the end. *)
Fixpoint placeLabels (features : list Feature) (genomeLength : Q)
    (renderedLabelAngles : list LabelAngle) (labelAngleWidth : Q)
    : list Feature * list LabelAngle :=
  match features with
  | [] => ([], renderedLabelAngles)
  | feature :: rest =>
      let '(ok, angles) :=
        canRenderLabel feature genomeLength renderedLabelAngles labelAngleWidth in
      let '(drawn, final) := placeLabels rest genomeLength angles labelAngleWidth in
      (if ok then feature :: drawn else drawn, final)
  end.

(** [later] does not collide with [earlier] in the sense of the code. *)
Definition clearOf (earlier later : LabelAngle) : Prop :=
  checkAngleCollision (label_start later) (label_end later)
    (label_start earlier) (label_end earlier) = false.

(** Two intervals overlap when each starts before the other ends. *)
Definition overlaps (a b : LabelAngle) : bool :=
  Js.lt (label_start a) (label_end b) && Js.gt (label_end a) (label_start b).

(** [a] moved along the circle by [k] full turns. *)
Definition shifted (k : Q) (a : LabelAngle) : LabelAngle :=
  mkLabelAngle (label_start a + k * (2 * Js.Math_PI))
               (label_end a + k * (2 * Js.Math_PI)).

(** Overlap on the circle, as the specification words it: the plain test
    and the test after a shift by one turn either way. *)
Definition overlapsOnCircle (a b : LabelAngle) : bool :=
  overlaps a b || overlaps (shifted 1 a) b || overlaps (shifted (-1) a) b.

End Utils.

(** ** Drawing helpers over doubles (renderer/circular/utils) *)

Module UtilsDouble.

Local Open Scope float_scope.
Local Open Scope string_scope.

Definition largeArcFlag (startAngle endAngle : float) : float :=
  if Double.gt (endAngle - startAngle) Double.Math_PI then 1%float else 0%float.

Definition createArcPath `{Double.Runtime}
    (cx cy outerRadius innerRadius startAngle endAngle : float) : string :=
  let startX1 := (cx + Double.Math_cos startAngle * outerRadius)%float in
  let startY1 := (cy + Double.Math_sin startAngle * outerRadius)%float in
  let endX1 := (cx + Double.Math_cos endAngle * outerRadius)%float in
  let endY1 := (cy + Double.Math_sin endAngle * outerRadius)%float in
  let startX2 := (cx + Double.Math_cos endAngle * innerRadius)%float in
  let startY2 := (cy + Double.Math_sin endAngle * innerRadius)%float in
  let endX2 := (cx + Double.Math_cos startAngle * innerRadius)%float in
  let endY2 := (cy + Double.Math_sin startAngle * innerRadius)%float in
  let largeArcFlag := largeArcFlag startAngle endAngle in
  ("M " ++ Double.toString startX1 ++ " " ++ Double.toString startY1 ++ " ") ++
  ("A " ++ Double.toString outerRadius ++ " " ++ Double.toString outerRadius
     ++ " 0 " ++ Double.toString largeArcFlag ++ " 1 "
     ++ Double.toString endX1 ++ " " ++ Double.toString endY1 ++ " ") ++
  ("L " ++ Double.toString startX2 ++ " " ++ Double.toString startY2 ++ " ") ++
  ("A " ++ Double.toString innerRadius ++ " " ++ Double.toString innerRadius
     ++ " 0 " ++ Double.toString largeArcFlag ++ " 0 "
     ++ Double.toString endX2 ++ " " ++ Double.toString endY2 ++ " Z").

(** The grammar of the specification for an annulus sector,
    [M x1 y1 A rx ry 0 {0|1} 1 x2 y2 L x3 y3 A rx ry 0 {0|1} 0 x4 y4 Z]:
    the values of its variables, and the text it denotes (the tokens
    separated by single spaces). *)
Record ArcPath : Type := mkArcPath {
  arc_x1 : float; arc_y1 : float;
  arc_rx1 : float; arc_ry1 : float; arc_large1 : bool;
  arc_x2 : float; arc_y2 : float;
  arc_x3 : float; arc_y3 : float;
  arc_rx2 : float; arc_ry2 : float; arc_large2 : bool;
  arc_x4 : float; arc_y4 : float
}.

Definition flagText (flag : bool) : string := if flag then "1" else "0".

Definition arcPathText `{Double.Runtime} (c : ArcPath) : string :=
  String.concat " "
    [ "M"; Double.toString (arc_x1 c); Double.toString (arc_y1 c);
      "A"; Double.toString (arc_rx1 c); Double.toString (arc_ry1 c); "0";
      flagText (arc_large1 c); "1";
      Double.toString (arc_x2 c); Double.toString (arc_y2 c);
      "L"; Double.toString (arc_x3 c); Double.toString (arc_y3 c);
      "A"; Double.toString (arc_rx2 c); Double.toString (arc_ry2 c); "0";
      flagText (arc_large2 c); "0";
      Double.toString (arc_x4 c); Double.toString (arc_y4 c);
      "Z" ].

Local Close Scope string_scope.

Definition checkAngleCollision
    (currentStart currentEnd labelStart labelEnd : float) : bool :=
  (Double.lt currentStart labelEnd && Double.gt currentEnd labelStart)
  || (Double.lt (currentStart + 2 * Double.Math_PI) labelEnd
      && Double.gt (currentEnd + 2 * Double.Math_PI) labelStart).

(** A feature as [canRenderLabel] reads it: [feature.start] and
    [feature.end]. *)
Record Feature : Type := mkFeature {
  feature_start : float;
  feature_end : float
}.

(** An entry of [renderedLabelAngles]: [{ start, end }]. *)
Record LabelAngle : Type := mkLabelAngle {
  label_start : float;
  label_end : float
}.

(** [canRenderLabel] mutates the array it is given; the model returns the
    verdict together with the array after the call. *)
Definition canRenderLabel (feature : Feature) (genomeLength : float)
    (renderedLabelAngles : list LabelAngle) (labelAngleWidth : float)
    : bool * list LabelAngle :=
  let featureStartAngle :=
    (feature_start feature / genomeLength) * Double.Math_PI * 2 in
  let featureEndAngle :=
    (feature_end feature / genomeLength) * Double.Math_PI * 2 in
  let featureCenterAngle := (featureStartAngle + featureEndAngle) / 2 in
  let labelStartAngle := featureCenterAngle - labelAngleWidth / 2 in
  let labelEndAngle := featureCenterAngle + labelAngleWidth / 2 in
  let isCollision :=
    existsb (fun label =>
               checkAngleCollision labelStartAngle labelEndAngle
                 (label_start label) (label_end label))
            renderedLabelAngles in
  if negb isCollision
  then (true, renderedLabelAngles ++ [mkLabelAngle labelStartAngle labelEndAngle])
  else (false, renderedLabelAngles).

End UtilsDouble.


(** ** Feature and track geometry (FeatureRenderer) *)

Module FeatureRenderer.

Definition isGCType (trackType : string) : bool :=
  String.eqb trackType "gc_content"
  || String.eqb trackType "gc_skew_plus"
  || String.eqb trackType "gc_skew_minus".

Definition calculateTrackHeight (cfg : RenderConfig) (radius : Q)
    (nonGCTrackCount : nat) (gcContentVisible gcSkewVisible : bool) : Q :=
  let minTrackHeight := MIN_TRACK_HEIGHT cfg in
  let maxTrackHeight := MAX_TRACK_HEIGHT cfg in
  let actualTrackCount := nonGCTrackCount in
  let actualTrackCount :=
    if gcContentVisible then S actualTrackCount else actualTrackCount in
  let actualTrackCount :=
    if gcSkewVisible then S actualTrackCount else actualTrackCount in
  Js.Math_min maxTrackHeight
    (Js.Math_max minTrackHeight
       (radius / (inject_Z (Z.of_nat actualTrackCount) + 2))).

(** What [renderCanvasTrackBackground] is called with: the outer radius of
    the band, its height and the track type. *)
Record Band : Type := mkBand {
  band_radius : Q;
  band_height : Q;
  band_type : option string
}.

(** [renderCanvasNonGCTracks]: the bands drawn and the radius returned. *)
Fixpoint renderCanvasNonGCTracks (tracks : list Track)
    (currentRadius trackHeight trackSpacing : Q) : list Band * Q :=
  match tracks with
  | [] => ([], currentRadius)
  | track :: rest =>
      let band := mkBand currentRadius trackHeight (Some (track_type track)) in
      let currentRadius := currentRadius - (trackHeight + trackSpacing) in
      let '(bands, final) :=
        renderCanvasNonGCTracks rest currentRadius trackHeight trackSpacing in
      (band :: bands, final)
  end.

Definition renderCanvasGCTrack (track : Track)
    (currentRadius trackHeight trackSpacing : Q) : Band * Q :=
  (mkBand currentRadius trackHeight (Some (track_type track)),
   currentRadius - trackHeight - trackSpacing).

Definition renderCanvasGCSkewTracks (gcSkewPlusTrack gcSkewMinusTrack : option Track)
    (gcSkewPlusVisible gcSkewMinusVisible : bool)
    (currentRadius trackHeight trackSpacing : Q) : Band * Q :=
  let skewTrackType :=
    if gcSkewPlusVisible then option_map track_type gcSkewPlusTrack
    else option_map track_type gcSkewMinusTrack in
  (mkBand currentRadius trackHeight skewTrackType,
   currentRadius - trackHeight - trackSpacing).

(** The angle of a genomic position, as both feature renderers write
    it, for a genome length other than zero. *)
Definition angleForPosition (pos genomeLength : Q) : Q :=
  (pos / genomeLength) * Js.Math_PI * 2.

(** The angles [renderCanvasFeature] and [renderSvgFeature] compute before
    they draw (the two functions share these lines word for word).  With
    genome length 0 none of them is a finite number: [None]. *)
Record FeatureAngles : Type := mkFeatureAngles {
  baseStartAngle : Q;
  baseEndAngle : Q;
  baseAngleWidth : Q;
  gapAngle : Q;
  startAngle : Q;
  endAngle : Q;
  angleWidth : Q
}.

Definition featureAngles (cfg : RenderConfig) (feature : Feature)
    (genomeLength : Q) : option FeatureAngles :=
  if Qeq_bool genomeLength 0 then None else
  let baseStartAngle := (feature_start feature / genomeLength) * Js.Math_PI * 2 in
  let baseEndAngle := (feature_end feature / genomeLength) * Js.Math_PI * 2 in
  let baseAngleWidth := baseEndAngle - baseStartAngle in
  let minAngleWidth := MIN_ANGLE_WIDTH cfg in
  let '(baseStartAngle, baseEndAngle, baseAngleWidth) :=
    if Js.lt baseAngleWidth minAngleWidth
    then
      let centerAngle := (baseStartAngle + baseEndAngle) / 2 in
      let halfMinAngle := minAngleWidth / 2 in
      (centerAngle - halfMinAngle, centerAngle + halfMinAngle, minAngleWidth)
    else (baseStartAngle, baseEndAngle, baseAngleWidth) in
  let minGapAngle := MIN_GAP_ANGLE cfg in
  let maxGapAngle := MAX_GAP_ANGLE cfg in
  let gapAngle :=
    Js.Math_min maxGapAngle
      (Js.Math_max minGapAngle (baseAngleWidth * GAP_ANGLE_RATIO cfg)) in
  let startAngle := baseStartAngle + gapAngle in
  let endAngle := baseEndAngle - gapAngle in
  let angleWidth := endAngle - startAngle in
  Some (mkFeatureAngles baseStartAngle baseEndAngle baseAngleWidth gapAngle
          startAngle endAngle angleWidth).

(** [feature.type === 'gene' || feature.type === 'CDS' || feature.name
    || feature.id]: the features that get pointer listeners. *)
Definition isInteractive (feature : Feature) : bool :=
  String.eqb (feature_type feature) "gene"
  || String.eqb (feature_type feature) "CDS"
  || match feature_name feature with
     | Some name => negb (String.eqb name "")
     | None => false
     end
  || negb (String.eqb (feature_id feature) "").

(** [this.highlightedFeature && ((h.id && feature.id === h.id) ||
    (h.name && feature.name === h.name) || (feature.start === h.start &&
    feature.end === h.end))], with [None] for the initial [null]. *)
Definition isHighlighted (highlightedFeature : option Feature)
    (feature : Feature) : bool :=
  match highlightedFeature with
  | None => false
  | Some h =>
      (negb (String.eqb (feature_id h) "")
       && String.eqb (feature_id feature) (feature_id h))
      || match feature_name h with
         | Some name =>
             negb (String.eqb name "")
             && match feature_name feature with
                | Some own => String.eqb own name
                | None => false
                end
         | None => false
         end
      || (Qeq_bool (feature_start feature) (feature_start h)
          && Qeq_bool (feature_end feature) (feature_end h))
  end.

(** What a call leaves on the screen for one feature.  On the canvas a
    sector is the two [graphics.arc] calls, on SVG the arguments of
    [createArcPath].  A bar of a GC track runs between the two angles;
    its radii depend on the value of the feature and on fields of
    [RENDER_CONFIG].  [NotFinite] stands for the cases in which angles
    that are not finite numbers can reach the drawing calls. *)
Inductive Drawing : Type :=
| NotFinite
| Nothing
| Sector (outerRadius innerRadius startAngle endAngle : Q)
| Bar (startAngle endAngle : Q).

(** Genome length 0.  The quotients [feature.start / 0] and
    [feature.end / 0] are infinite, or NaN for a coordinate 0, and so
    are the base angles.  Their difference is NaN, and with it every
    later angle, unless the two coordinates have opposite signs (then
    it is infinite, of the sign that the sign of the zero decides).  A
    GC bar is drawn whatever its angles are; a sector is drawn only when
    [angleWidth > 0], which fails on NaN. *)
Definition atZeroLength (feature : Feature) (track : Track) : Drawing :=
  if isGCType (track_type track) then NotFinite
  else if Js.lt (feature_start feature * feature_end feature) 0 then NotFinite
  else Nothing.

(** The sector of a highlighted or hovered feature: 0.01 longer at each
    end and 2 thicker on each side. *)
Definition extendedSector (a : FeatureAngles) (radius trackHeight : Q)
    : Drawing :=
  let extendedStartAngle := startAngle a - 0.01 in
  let extendedEndAngle := endAngle a + 0.01 in
  Sector (radius + 2) (radius - trackHeight - 2)
    extendedStartAngle extendedEndAngle.

Definition plainSector (a : FeatureAngles) (radius trackHeight : Q)
    : Drawing :=
  Sector radius (radius - trackHeight) (startAngle a) (endAngle a).

(** [renderCanvasFeature]: what the graphics object of the feature
    shows when the call returns. *)
Definition renderCanvasFeature (cfg : RenderConfig)
    (highlightedFeature : option Feature) (feature : Feature) (track : Track)
    (radius trackHeight genomeLength : Q) : Drawing :=
  match featureAngles cfg feature genomeLength with
  | None => atZeroLength feature track
  | Some a =>
      if isGCType (track_type track) then Bar (startAngle a) (endAngle a)
      else if Js.gt (angleWidth a) 0 then
        if isInteractive feature && isHighlighted highlightedFeature feature
        then extendedSector a radius trackHeight
        else plainSector a radius trackHeight
      else Nothing
  end.

(** [renderSvgFeature]: the same lines after the guard on the
    container; [svgContainer] says whether there is one. *)
Definition renderSvgFeature (cfg : RenderConfig)
    (highlightedFeature : option Feature) (feature : Feature) (track : Track)
    (radius trackHeight genomeLength : Q) (svgContainer : bool) : Drawing :=
  if negb svgContainer then Nothing
  else
    match featureAngles cfg feature genomeLength with
    | None => atZeroLength feature track
    | Some a =>
        if isGCType (track_type track) then Bar (startAngle a) (endAngle a)
        else if Js.gt (angleWidth a) 0 then
          if isInteractive feature && isHighlighted highlightedFeature feature
          then extendedSector a radius trackHeight
          else plainSector a radius trackHeight
        else Nothing
    end.

(** The [pointerover] (SVG: [mouseover]) listener of a feature that was
    drawn as a sector and is interactive: the sector is redrawn
    extended. *)
Definition pointerover (cfg : RenderConfig) (feature : Feature)
    (radius trackHeight genomeLength : Q) : Drawing :=
  match featureAngles cfg feature genomeLength with
  | None => NotFinite
  | Some a => extendedSector a radius trackHeight
  end.

(** The [pointerout] (SVG: [mouseout]) listener: extended when the
    feature is the highlighted one at that moment, plain otherwise. *)
Definition pointerout (cfg : RenderConfig)
    (highlightedFeature : option Feature) (feature : Feature)
    (radius trackHeight genomeLength : Q) : Drawing :=
  match featureAngles cfg feature genomeLength with
  | None => NotFinite
  | Some a =>
      if isHighlighted highlightedFeature feature
      then extendedSector a radius trackHeight
      else plainSector a radius trackHeight
  end.

(** [renderCanvasMergedGCSkewFeatures] and its SVG twin: every window
    of the merged skew list is drawn as a bar between the angles of its
    start and of its end, as they are. *)
Definition renderCanvasMergedGCSkewFeatures
    (gcSkewFeatures : list (Feature * Q)) (genomeLength : Q) : list Drawing :=
  map (fun entry : Feature * Q =>
         let feature := fst entry in
         if Qeq_bool genomeLength 0 then NotFinite
         else
           let startAngle := (feature_start feature / genomeLength) * Js.Math_PI * 2 in
           let endAngle := (feature_end feature / genomeLength) * Js.Math_PI * 2 in
           Bar startAngle endAngle)
      gcSkewFeatures.

End FeatureRenderer.

(** ** Track stacking (CircularRenderer.renderCanvasFeatures) *)

Module CircularRenderer.

Import FeatureRenderer.

Record Genome : Type := mkGenome {
  genome_length : Q;
  genome_tracks : list Track
}.

Definition isType (name : string) (track : Track) : bool :=
  String.eqb (track_type track) name.

(** [track && track.visible] for the result of an [Array.find]. *)
Definition foundVisible (track : option Track) : bool :=
  match track with
  | Some t => track_visible t
  | None => false
  end.

(** The bands [renderCanvasFeatures] draws, outermost first, for a renderer
    of the given radius (the renderer hands the same radius to its
    [FeatureRenderer]). *)
Definition renderCanvasFeatures (cfg : RenderConfig) (radius : Q)
    (genome : option Genome) : list Band :=
  match genome with
  | None => []
  | Some genome =>
      let allTracks := genome_tracks genome in
      let nonGCTracks :=
        List.filter (fun track => negb (isType "gc_content" track)
                             && negb (isType "gc_skew_plus" track)
                             && negb (isType "gc_skew_minus" track)) allTracks in
      let gcContentTrack := find (isType "gc_content") allTracks in
      let gcSkewPlusTrack := find (isType "gc_skew_plus") allTracks in
      let gcSkewMinusTrack := find (isType "gc_skew_minus") allTracks in
      let visibleNonGCTracks := List.filter track_visible nonGCTracks in
      let gcContentVisible := foundVisible gcContentTrack in
      let gcSkewPlusVisible := foundVisible gcSkewPlusTrack in
      let gcSkewMinusVisible := foundVisible gcSkewMinusTrack in
      let gcSkewVisible := gcSkewPlusVisible || gcSkewMinusVisible in
      let trackHeight :=
        calculateTrackHeight cfg radius (length visibleNonGCTracks)
          gcContentVisible gcSkewVisible in
      let trackSpacing := TRACK_SPACING cfg in
      let currentRadius := radius in
      let '(bands, currentRadius) :=
        renderCanvasNonGCTracks visibleNonGCTracks currentRadius
          trackHeight trackSpacing in
      let '(bands, currentRadius) :=
        match gcContentTrack with
        | Some track =>
            if gcContentVisible then
              let '(band, r) :=
                renderCanvasGCTrack track currentRadius trackHeight trackSpacing in
              (bands ++ [band], r)
            else (bands, currentRadius)
        | None => (bands, currentRadius)
        end in
      if gcSkewVisible then
        let '(band, _) :=
          renderCanvasGCSkewTracks gcSkewPlusTrack gcSkewMinusTrack
            gcSkewPlusVisible gcSkewMinusVisible
            currentRadius trackHeight trackSpacing in
        bands ++ [band]
      else bands
  end.

(** The words of the specification for the layout. *)

(** [clamp(x, lo, hi)] *)
Definition clamp (x lo hi : Q) : Q := Qmin hi (Qmax lo x).

Definition isNonGC (track : Track) : bool := negb (isGCType (track_type track)).

Definition isGCSkew (track : Track) : bool :=
  isType "gc_skew_plus" track || isType "gc_skew_minus" track.

(** The number of bands of a list of visible tracks: one per non-GC
    track, one for gc_content if present, one for GC skew if present. *)
Definition bandCount (tracks : list Track) : nat :=
  length (List.filter isNonGC tracks)
  + (if existsb (isType "gc_content") tracks then 1 else 0)
  + (if existsb isGCSkew tracks then 1 else 0).

(** The track types of the bands in drawing order. *)
Definition bandOrder (tracks : list Track) : list (option string) :=
  map (fun track => Some (track_type track)) (List.filter isNonGC tracks)
  ++ (if existsb (isType "gc_content") tracks then [Some "gc_content"%string] else [])
  ++ (if existsb isGCSkew tracks
      then [Some (if existsb (isType "gc_skew_plus") tracks
                  then "gc_skew_plus" else "gc_skew_minus")%string]
      else []).

(** Band [k] (counted from 0, outermost first) has outer radius
    [outerRadius - k * step] and the given height. *)
Definition stackedFrom (outerRadius step height : Q) (bands : list Band) : Prop :=
  forall k band, nth_error bands k = Some band ->
    band_radius band == outerRadius - inject_Z (Z.of_nat k) * step
    /\ band_height band = height.

End CircularRenderer.


(** ** Zoom and pan (renderer/circular/zoom-pan-controller.ts) *)

Module ZoomPanController.

Record Point : Type := mkPoint {
  point_x : Q;
  point_y : Q
}.

(** A PIXI container, as far as the controller touches it. *)
Record Container : Type := mkContainer {
  position : Point;
  scale : Point
}.

(** [stage.children]: the circle container is child 0, the legend
    container child 1 (CircularRenderer adds them in that order). *)
Definition Stage := list Container.

(** The [transform] attribute of an SVG group.  The code writes it as
    [translate(x,y)] or [translate(x,y) scale(s)] and reads it back with
    the pattern [translate\(([^,]+),([^\)]+)\)] and [parseFloat]; printing
    a number and parsing it again gives the number.  [OtherTransform] is
    an attribute the pattern does not match. *)
Inductive Transform : Type :=
| Translate (x y : Q)
| TranslateScale (x y s : Q)
| OtherTransform (text : string).

Record SvgGroup : Type := mkSvgGroup {
  group_id : string;
  group_transform : option Transform
}.

(** The [g] children of the SVG element. *)
Definition Svg := list SvgGroup.

(** [g#gridContainer, g#featureContainer, g#labelContainer,
    g#scaleContainer] *)
Definition isSceneGroup (g : SvgGroup) : bool :=
  String.eqb (group_id g) "gridContainer"
  || String.eqb (group_id g) "featureContainer"
  || String.eqb (group_id g) "labelContainer"
  || String.eqb (group_id g) "scaleContainer".

(** [(g.attr('transform') || 'translate(0,0)').match(...)]: the two
    captured numbers, if the pattern matches. *)
Definition matchTranslate (transform : option Transform) : option (Q * Q) :=
  match transform with
  | None => Some (0, 0)
  | Some (Translate x y) => Some (x, y)
  | Some (TranslateScale x y _) => Some (x, y)
  | Some (OtherTransform _) => None
  end.

(** [selectAll(scene groups).each(f)] *)
Definition eachSceneGroup (f : SvgGroup -> SvgGroup) (svg : Svg) : Svg :=
  map (fun g => if isSceneGroup g then f g else g) svg.

Record t : Type := mk {
  centerX : Q;
  centerY : Q;
  width : Q;
  height : Q;
  zoomLevel : Q
}.

Definition withZoomLevel (this : t) (level : Q) : t :=
  mk (centerX this) (centerY this) (width this) (height this) level.

Definition setCanvasZoomLevel (this : t) (level : Q) (point : option Point)
    (stage : option Stage) : t * option Stage :=
  match stage with
  | Some (circleContainer :: others) =>
      let moved :=
        match point with
        | Some point =>
            let prevScale := zoomLevel this in
            let newScale := level in
            let containerX := point_x point - point_x (position circleContainer) in
            let containerY := point_y point - point_y (position circleContainer) in
            let worldX := containerX / prevScale in
            let worldY := containerY / prevScale in
            let newContainerX := point_x point - worldX * newScale in
            let newContainerY := point_y point - worldY * newScale in
            mkContainer (mkPoint newContainerX newContainerY)
                        (mkPoint newScale newScale)
        | None =>
            let newScale := level in
            let centerX' := width this / 2 in
            let centerY' := height this / 2 in
            let newContainerX := centerX' - centerX this * newScale in
            let newContainerY := centerY' - centerY this * newScale in
            mkContainer (mkPoint newContainerX newContainerY)
                        (mkPoint newScale newScale)
        end in
      (withZoomLevel this level, Some (moved :: others))
  | _ => (withZoomLevel this level, stage)
  end.

Definition setSvgZoomLevel (this : t) (level : Q) (point : option Point)
    (svgContainer : option Svg) : t * option Svg :=
  match svgContainer with
  | None => (withZoomLevel this level, None)
  | Some svg =>
      let scaleFactor := level / zoomLevel this in
      let current (g : SvgGroup) : Q * Q :=
        match matchTranslate (group_transform g) with
        | Some (x, y) => (x, y)
        | None => (0, 0)
        end in
      let svg' :=
        match point with
        | Some point =>
            eachSceneGroup (fun g =>
              let '(currentX, currentY) := current g in
              let newX := point_x point - (point_x point - currentX) * scaleFactor in
              let newY := point_y point - (point_y point - currentY) * scaleFactor in
              mkSvgGroup (group_id g) (Some (TranslateScale newX newY level))) svg
        | None =>
            eachSceneGroup (fun g =>
              let '(currentX, currentY) := current g in
              mkSvgGroup (group_id g)
                (Some (TranslateScale currentX currentY level))) svg
        end in
      (withZoomLevel this level, Some svg')
  end.

(** [PanOffset]: [{ x, y }]. *)
Definition setPanOffset (offset : Point) (stage : option Stage)
    (svgContainer : option Svg) (rendererType : string)
    : option Stage * option Svg :=
  if String.eqb rendererType "canvas" then
    match stage with
    | Some (circleContainer :: others) =>
        let p := position circleContainer in
        let moved :=
          mkContainer (mkPoint (point_x p + point_x offset)
                               (point_y p + point_y offset))
                      (scale circleContainer) in
        (Some (moved :: others), svgContainer)
    | _ => (stage, svgContainer)
    end
  else if String.eqb rendererType "svg" then
    match svgContainer with
    | Some svg =>
        (stage,
         Some (eachSceneGroup (fun g =>
           match matchTranslate (group_transform g) with
           | Some (x0, y0) =>
               let x := x0 + point_x offset in
               let y := y0 + point_y offset in
               mkSvgGroup (group_id g) (Some (Translate x y))
           | None =>
               mkSvgGroup (group_id g)
                 (Some (Translate (point_x offset) (point_y offset)))
           end) svg))
    | None => (stage, svgContainer)
    end
  else (stage, svgContainer).

(** The world coordinate under a screen point for a group at [pos] drawn
    at [scale]: [(p - pos) / scale], as the hit test computes it. *)
Definition worldUnder (p pos : Point) (scale : Q) : Point :=
  mkPoint ((point_x p - point_x pos) / scale)
          ((point_y p - point_y pos) / scale).

(** The position of an SVG group that has one. *)
Definition groupPosition (g : SvgGroup) : option Point :=
  match matchTranslate (group_transform g) with
  | Some (x, y) => Some (mkPoint x y)
  | None => None
  end.

Definition samePoint (a b : Point) : Prop :=
  point_x a == point_x b /\ point_y a == point_y b.

(** The world coordinate under a screen point for a PIXI container, from
    the position and the scale the container itself has. *)
Definition worldUnderContainer (p : Point) (container : Container) : Point :=
  mkPoint ((point_x p - point_x (position container))
           / point_x (scale container))
          ((point_y p - point_y (position container))
           / point_y (scale container)).

(** The scale an SVG group is drawn at: the [scale(s)] of its transform,
    and 1 for a transform without one and for a group without a
    transform. *)
Definition groupScale (g : SvgGroup) : option Q :=
  match group_transform g with
  | None => Some 1
  | Some (Translate _ _) => Some 1
  | Some (TranslateScale _ _ s) => Some s
  | Some (OtherTransform _) => None
  end.

(** The world coordinate under a screen point for an SVG group, from the
    translation and the scale of the transform the group itself has. *)
Definition worldUnderGroup (p : Point) (g : SvgGroup) : option Point :=
  match groupPosition g, groupScale g with
  | Some pos, Some s => Some (worldUnder p pos s)
  | _, _ => None
  end.

End ZoomPanController.

(** ** The Feature class (core/data/models/feature.ts) *)

Module FeatureModel.

(** [Partial<FeatureType>]: every field may be missing. *)
Record FeatureData : Type := mkFeatureData {
  data_id : option string;
  data_name : option string;
  data_type : option string;
  data_start : option Q;
  data_end : option Q;
  data_strand : option Strand;
  data_attributes : option (gmap string string);
  data_sequenceId : option string
}.

(** [s || d] for a string that may be undefined: the empty string is falsy. *)
Definition orString (s : option string) (d : string) : string :=
  match s with
  | Some v => if String.eqb v "" then d else v
  | None => d
  end.

(** [n || 0]: zero is falsy. *)
Definition orZero (n : option Q) : Q :=
  match n with
  | Some v => if Qeq_bool v 0 then 0 else v
  | None => 0
  end.

(** [generateId], given the readings of [Date.now()] and [Math.random()]. *)
Definition generateId `{Runtime} (now random : Q) : string :=
  ("feature_" ++ toString now ++ "_"
   ++ toString (inject_Z (Qfloor (random * 10000))))%string.

(** [new Feature(data)] *)
Definition new `{Runtime} (data : FeatureData) (now random : Q) : Feature :=
  let id :=
    match data_id data with
    | Some v => if String.eqb v "" then generateId now random else v
    | None => generateId now random
    end in
  let name := data_name data in
  let type := orString (data_type data) "CDS" in
  let start := orZero (data_start data) in
  let end_ := orZero (data_end data) in
  let strand :=
    match data_strand data with Some s => s | None => StrandNone end in
  let attributes :=
    match data_attributes data with Some a => a | None => ∅ end in
  let sequenceId := data_sequenceId data in
  let '(start, end_) :=
    if Js.gt start end_ then (end_, start) else (start, end_) in
  mkFeature id name type start end_ strand attributes sequenceId.

(** [{ ...object }]: a fresh object with the entries of [object]. *)
Definition spread (object : gmap string string) : gmap string string :=
  list_to_map (map_to_list object).

(** [toJSON] returns a plain [FeatureType] object. *)
Definition toJSON (this : Feature) : Feature :=
  mkFeature (feature_id this) (feature_name this) (feature_type this)
    (feature_start this) (feature_end this) (feature_strand this)
    (spread (feature_attributes this)) (feature_sequenceId this).

(** A [FeatureType] object read as a [Partial<FeatureType>]. *)
Definition asPartial (data : Feature) : FeatureData :=
  mkFeatureData (Some (feature_id data)) (feature_name data)
    (Some (feature_type data)) (Some (feature_start data))
    (Some (feature_end data)) (Some (feature_strand data))
    (Some (feature_attributes data)) (feature_sequenceId data).

Definition fromJSON `{Runtime} (data : Feature) (now random : Q) : Feature :=
  new (asPartial data) now random.

(** What the constructor establishes for every instance. *)
Definition wellFormed (f : Feature) : Prop :=
  feature_id f <> ""%string /\ feature_type f <> ""%string
  /\ feature_start f <= feature_end f.

(** Two features with identical [id], [name], [type], [start], [end],
    [strand] and [attributes]. *)
Definition sameFields (g f : Feature) : Prop :=
  feature_id g = feature_id f
  /\ feature_name g = feature_name f
  /\ feature_type g = feature_type f
  /\ feature_start g == feature_start f
  /\ feature_end g == feature_end f
  /\ feature_strand g = feature_strand f
  /\ forall key : string,
       feature_attributes g !! key = feature_attributes f !! key.

End FeatureModel.


(** ** A concrete runtime

    Integers print in decimal and other rationals as a fraction; the
    trigonometric functions are the first terms of their series.  It
    stands in for the host when a statement is instantiated. *)

Definition printZ (z : Z) : string := NilZero.string_of_int (Z.to_int z).

Definition printQ (q : Q) : string :=
  let q := Qred q in
  if Pos.eqb (Qden q) 1 then printZ (Qnum q)
  else (printZ (Qnum q) ++ "/" ++ printZ (Zpos (Qden q)))%string.

#[export] Instance sampleRuntime : Runtime := {|
  Math_cos := fun a => 1 - a * a / 2;
  Math_sin := fun a => a - a * a * a / 6;
  toString := printQ;
  toString_0 := eq_refl;
  toString_1 := eq_refl
|}.

(** A runtime over doubles for the examples: a double that is an
    integer prints in decimal, any other finite one as a fraction, and
    the trigonometric functions are the first terms of their series. *)
Definition printDouble (x : float) : string :=
  match FloatOps.Prim2SF x with
  | SpecFloat.S754_nan => "NaN"%string
  | SpecFloat.S754_infinity negative =>
      if negative then "-Infinity"%string else "Infinity"%string
  | _ =>
      match Double.toQ x with
      | Some q => printQ q
      | None => "NaN"%string
      end
  end.

#[export] Instance sampleDoubleRuntime : Double.Runtime := {|
  Double.Math_cos := fun a => (1 - a * a / 2)%float;
  Double.Math_sin := fun a => (a - a * a * a / 6)%float;
  Double.toString := printDouble;
  Double.toString_0 := eq_refl;
  Double.toString_1 := eq_refl
|}.


(** ** Inputs used in the examples *)

Definition featureAt (id : string) (start end_ : Q) : Feature :=
  mkFeature id None "CDS" start end_ StrandPlus ∅ None.

(** ** Interval tree: removal and the invariants of the nodes *)

Module IntervalTreeOps.

Import IntervalTree.

(** [findMin]: follow the left children to the end. *)
Fixpoint findMin (node : IntervalNode) : IntervalNode :=
  match node with
  | Node _ (Node _ _ _ _ _ as l) _ _ _ => findMin l
  | _ => node
  end.

(** [removeNode].  With two children the feature of the leftmost node of
    the right subtree is copied into the node (its [min] is left as it
    was) and removed from the right subtree. *)
Fixpoint removeNode (node : IntervalNode) (feature : Feature) : IntervalNode :=
  match node with
  | null => null
  | Node f l r mn mx =>
      if String.eqb (feature_id f) (feature_id feature) then
        match l, r with
        | null, null => null
        | null, Node _ _ _ _ _ => r
        | Node _ _ _ _ _, null => l
        | Node _ _ _ _ _, Node _ _ _ _ _ =>
            match findMin r with
            | Node minFeature _ _ _ _ =>
                updateMax (Node minFeature l (removeNode r minFeature) mn mx)
            | null => node
            end
        end
      else if Js.lt (center feature) (center f)
      then updateMax (Node f (removeNode l feature) r mn mx)
      else updateMax (Node f l (removeNode r feature) mn mx)
  end.

(** [remove(featureId)]: nothing happens for an id the map does not hold. *)
Definition remove (tree : t) (featureId : string) : t :=
  match features tree !! featureId with
  | Some feature =>
      mk (removeNode (root tree) feature) (delete featureId (features tree))
  | None => tree
  end.

(** The cached bounds of every node: [max] bounds the ends of the
    features of the subtree and is the end of one of them, and [min] is
    the start of the feature of the node itself. *)
Fixpoint cached (node : IntervalNode) : Prop :=
  match node with
  | null => True
  | Node f l r mn mx =>
      (forall g, In g (stored node) -> feature_end g <= mx)
      /\ (exists g, In g (stored node) /\ feature_end g = mx)
      /\ mn = feature_start f
      /\ cached l /\ cached r
  end.

(** The order of the tree: centres below the centre of the node on the
    left, at or above it on the right. *)
Fixpoint ordered (node : IntervalNode) : Prop :=
  match node with
  | null => True
  | Node f l r _ _ =>
      (forall g, In g (stored l) -> center g < center f)
      /\ (forall g, In g (stored r) -> center f <= center g)
      /\ ordered l /\ ordered r
  end.

(** A tree that is a chain of right children holding the given features
    from the root down, each node with its own start as [min]. *)
Inductive rightSpine : list Feature -> IntervalNode -> Prop :=
| spine_nil : rightSpine [] null
| spine_cons (f : Feature) (rest : list Feature) (r : IntervalNode) (mx : Q) :
    rightSpine rest r ->
    rightSpine (f :: rest) (Node f null r (feature_start f) mx).

(** One feature before another in an ascending list. *)
Definition ascends (f g : Feature) : Prop :=
  center f <= center g /\ feature_start f <= feature_start g.

End IntervalTreeOps.

(** ** Array methods of the host *)

Module JsArray.

(** [Array.prototype.filter] with a callback that may throw: [None] is
    the exception, raised at the first element whose test raises. *)
Fixpoint filterWith {A : Type} (test : A -> option bool) (l : list A)
    : option (list A) :=
  match l with
  | [] => Some []
  | x :: rest =>
      match test x with
      | None => None
      | Some keep =>
          match filterWith test rest with
          | None => None
          | Some kept => Some (if keep then x :: kept else kept)
          end
      end
  end.

(** [Array.prototype.sort] with the comparator [(a, b) => key(a) - key(b)]:
    the sort is stable, so its result is the one that insertion from the
    right computes. *)
Fixpoint insertByKey {A : Type} (key : A -> Q) (x : A) (sorted : list A)
    : list A :=
  match sorted with
  | [] => [x]
  | y :: rest =>
      if Js.le (key x) (key y) then x :: y :: rest
      else y :: insertByKey key x rest
  end.

Definition sortByKey {A : Type} (key : A -> Q) (l : list A) : list A :=
  fold_right (insertByKey key) [] l.

End JsArray.

(** ** Level of detail: the culling tests and the table updates *)

Module LODPolicy.

Import LODManager.

(** [shouldRenderFeature]; reading [showFeatures] of the [undefined] that
    [getLOD] gives on an empty table throws. *)
Definition shouldRenderFeature (levels : list LODLevel) (feature : Feature)
    (zoomLevel : Q) : option bool :=
  match getLOD levels zoomLevel with
  | None => None
  | Some lod => if negb (showFeatures lod) then Some false else Some true
  end.

Definition shouldRenderLabel (levels : list LODLevel) (feature : Feature)
    (zoomLevel : Q) : option bool :=
  match getLOD levels zoomLevel with
  | None => None
  | Some lod =>
      if negb (showLabels lod) then Some false
      else
        let featureWidth :=
          (feature_end feature - feature_start feature) * zoomLevel in
        if Js.lt featureWidth 30 then Some false else Some true
  end.

Definition filterFeatures (levels : list LODLevel) (features : list Feature)
    (zoomLevel : Q) : option (list Feature) :=
  JsArray.filterWith (fun feature => shouldRenderFeature levels feature zoomLevel)
    features.

Definition getFeaturesWithLabels (levels : list LODLevel)
    (features : list Feature) (zoomLevel : Q) : option (list Feature) :=
  JsArray.filterWith (fun feature => shouldRenderLabel levels feature zoomLevel)
    features.

(** [addLODLevel]: push, then sort by [minZoom]. *)
Definition addLODLevel (levels : list LODLevel) (level : LODLevel)
    : list LODLevel :=
  JsArray.sortByKey minZoom (levels ++ [level]).

Definition resetLODLevels (levels : list LODLevel) : list LODLevel :=
  defaultLevels.

(** The calls that change the table, and a run of them on a manager
    fresh from its constructor. *)
Inductive update : Type :=
| AddLevel (level : LODLevel)
| Reset.

Definition apply (levels : list LODLevel) (u : update) : list LODLevel :=
  match u with
  | AddLevel level => addLODLevel levels level
  | Reset => resetLODLevels levels
  end.

Definition tableAfter (updates : list update) : list LODLevel :=
  fold_left apply updates defaultLevels.

(** Ascending by [minZoom]. *)
Definition ascendingTable (levels : list LODLevel) : Prop :=
  Sorted (fun a b => minZoom a <= minZoom b) levels.

End LODPolicy.

(** ** Drawing helpers: the annulus path and the merged GC-skew features *)

Module UtilsMore.

Import Utils.

Local Open Scope string_scope.

Definition createAnnulusPath `{Runtime} (cx cy outerRadius innerRadius : Q)
    : string :=
  ("M " ++ toString cx ++ " " ++ toString (cy - outerRadius)%Q ++ " ") ++
  ("A " ++ toString outerRadius ++ " " ++ toString outerRadius ++ " 0 1 1 " ++
     toString (cx - 0.1)%Q ++ " " ++ toString (cy - outerRadius)%Q ++ " ") ++
  ("L " ++ toString (cx - 0.1)%Q ++ " " ++ toString (cy - innerRadius)%Q ++ " ") ++
  ("A " ++ toString innerRadius ++ " " ++ toString innerRadius ++ " 0 1 0 " ++
     toString cx ++ " " ++ toString (cy - innerRadius)%Q ++ " Z").

Local Close Scope string_scope.

(** [parseFloat(feature.attributes.value || '0')]; [parseFloat] is the
    host's, with [None] for NaN. *)
Definition gcValue (parseFloat : string -> option Q) (feature : Feature)
    : option Q :=
  parseFloat
    (FeatureModel.orString (feature_attributes feature !! "value"%string) "0").

(** The entries a visible skew track contributes: its features that pass
    the LOD filter and whose value passes [test]; a comparison with NaN
    is false.  [None] is the exception of reading [features] of an
    undefined track or of an undefined LOD level. *)
Definition skewEntries (parseFloat : string -> option Q)
    (levels : list LODManager.LODLevel) (track : option Track)
    (visible : bool) (zoomLevel : Q) (test : Q -> bool)
    : option (list (Feature * Q)) :=
  if visible then
    match track with
    | None => None
    | Some track =>
        match LODPolicy.filterFeatures levels (track_features track) zoomLevel with
        | None => None
        | Some visibleFeatures =>
            Some (flat_map
                    (fun feature =>
                       match gcValue parseFloat feature with
                       | Some value =>
                           if test value then [(feature, value)] else []
                       | None => []
                       end)
                    visibleFeatures)
        end
    end
  else Some [].

Definition mergeGCSkewFeatures (parseFloat : string -> option Q)
    (levels : list LODManager.LODLevel)
    (gcSkewPlusTrack gcSkewMinusTrack : option Track)
    (gcSkewPlusVisible gcSkewMinusVisible : bool) (zoomLevel : Q)
    : option (list (Feature * Q)) :=
  match skewEntries parseFloat levels gcSkewPlusTrack gcSkewPlusVisible
          zoomLevel (fun value => Js.gt value 0) with
  | None => None
  | Some plus =>
      match skewEntries parseFloat levels gcSkewMinusTrack gcSkewMinusVisible
              zoomLevel (fun value => Js.lt value 0) with
      | None => None
      | Some minus =>
          Some (JsArray.sortByKey (fun entry => feature_start (fst entry))
                  (plus ++ minus))
      end
  end.

End UtilsMore.

(** ** Labels (renderer/circular/label-renderer.ts) *)

Module LabelRenderer.

Import Utils.

(** What [renderCanvasLabel] adds to the label container. *)
Record Label : Type := mkLabel {
  label_text : string;
  label_x : Q;
  label_y : Q;
  label_rotation : Q
}.

(** The angle at which the text of a feature is drawn. *)
Definition centerAngle (feature : Feature) (genomeLength : Q) : Q :=
  (feature_start feature + (feature_end feature - feature_start feature) / 2)
  / genomeLength * Js.Math_PI * 2.

(** [renderCanvasLabel] for a renderer centred at [(centerX, centerY)];
    nothing is drawn for a feature without a name or without a container. *)
Definition renderCanvasLabel `{Runtime} (centerX centerY : Q)
    (feature : Feature) (radius genomeLength : Q) (labelContainer : bool)
    : option Label :=
  match feature_name feature with
  | None => None
  | Some name =>
      if String.eqb name "" || negb labelContainer then None
      else
        let a := centerAngle feature genomeLength in
        let x := centerX + Math_cos a * radius in
        let y := centerY + Math_sin a * radius in
        Some (mkLabel name x y a)
  end.

(** The inner loop of [renderCanvasLabels] over the features of one
    track: the features are offered to [canRenderLabel] in order and the
    accepted ones are handed to [renderCanvasLabel]. *)
Fixpoint labelFeatures `{Runtime} (centerX centerY : Q)
    (features : list Feature) (labelRadius genomeLength : Q)
    (renderedLabelAngles : list LabelAngle) (labelAngleWidth : Q)
    : list Label * list LabelAngle :=
  match features with
  | [] => ([], renderedLabelAngles)
  | feature :: rest =>
      let '(ok, angles) :=
        canRenderLabel feature genomeLength renderedLabelAngles labelAngleWidth in
      let drawn :=
        if ok then
          match renderCanvasLabel centerX centerY feature labelRadius
                  genomeLength true with
          | Some label => [label]
          | None => []
          end
        else [] in
      let '(labels, final) :=
        labelFeatures centerX centerY rest labelRadius genomeLength angles
          labelAngleWidth in
      (drawn ++ labels, final)
  end.

(** The loop over the tracks: hidden tracks are skipped and do not move
    the radius; [None] is the exception of an undefined LOD level. *)
Fixpoint labelTracks `{Runtime} (levels : list LODManager.LODLevel)
    (centerX centerY zoomLevel : Q) (tracks : list Track)
    (currentRadius trackHeight trackSpacing labelRadiusOffset genomeLength : Q)
    (renderedLabelAngles : list LabelAngle) (labelAngleWidth : Q)
    : option (list Label * list LabelAngle) :=
  match tracks with
  | [] => Some ([], renderedLabelAngles)
  | track :: rest =>
      if negb (track_visible track) then
        labelTracks levels centerX centerY zoomLevel rest currentRadius
          trackHeight trackSpacing labelRadiusOffset genomeLength
          renderedLabelAngles labelAngleWidth
      else
        let labelRadius := currentRadius + labelRadiusOffset in
        match LODPolicy.getFeaturesWithLabels levels (track_features track)
                zoomLevel with
        | None => None
        | Some featuresWithLabels =>
            let '(labels, angles) :=
              labelFeatures centerX centerY featuresWithLabels labelRadius
                genomeLength renderedLabelAngles labelAngleWidth in
            match labelTracks levels centerX centerY zoomLevel rest
                    (currentRadius - (trackHeight + trackSpacing))
                    trackHeight trackSpacing labelRadiusOffset genomeLength
                    angles labelAngleWidth with
            | None => None
            | Some (more, final) => Some (labels ++ more, final)
            end
        end
  end.

(** [renderCanvasLabels] of a label renderer with the given centre,
    radius, visibility flag and zoom level.  [LABEL_RADIUS_OFFSET] is a
    field of the configuration that is not among the sources and is a
    parameter here; the track heights 15 and 30 and the spacing 5 are
    literals of the function. *)
Definition renderCanvasLabels `{Runtime} (cfg : RenderConfig)
    (labelRadiusOffset : Q) (levels : list LODManager.LODLevel)
    (centerX centerY radius : Q) (labelsVisible : bool) (zoomLevel : Q)
    (genome : option CircularRenderer.Genome) (labelContainer : bool)
    : option (list Label * list LabelAngle) :=
  match genome with
  | None => Some ([], [])
  | Some genome =>
      if negb labelsVisible || negb labelContainer then Some ([], [])
      else
        let genomeLength := CircularRenderer.genome_length genome in
        let tracks := CircularRenderer.genome_tracks genome in
        let nonGCTracks :=
          List.filter
            (fun track => negb (CircularRenderer.isType "gc_content" track)
                          && negb (CircularRenderer.isType "gc_skew_plus" track)
                          && negb (CircularRenderer.isType "gc_skew_minus" track))
            tracks in
        let gcContentTrack := find (CircularRenderer.isType "gc_content") tracks in
        let gcSkewPlusTrack := find (CircularRenderer.isType "gc_skew_plus") tracks in
        let gcSkewMinusTrack := find (CircularRenderer.isType "gc_skew_minus") tracks in
        let visibleNonGCTracks := List.filter track_visible nonGCTracks in
        let gcContentVisible := CircularRenderer.foundVisible gcContentTrack in
        let gcSkewPlusVisible := CircularRenderer.foundVisible gcSkewPlusTrack in
        let gcSkewMinusVisible := CircularRenderer.foundVisible gcSkewMinusTrack in
        let gcSkewVisible := gcSkewPlusVisible || gcSkewMinusVisible in
        let minTrackHeight := 15 in
        let maxTrackHeight := 30 in
        let actualTrackCount := length visibleNonGCTracks in
        let actualTrackCount :=
          if gcContentVisible then S actualTrackCount else actualTrackCount in
        let actualTrackCount :=
          if gcSkewVisible then S actualTrackCount else actualTrackCount in
        let trackHeight :=
          Js.Math_min maxTrackHeight
            (Js.Math_max minTrackHeight
               (radius / (inject_Z (Z.of_nat actualTrackCount) + 2))) in
        let trackSpacing := 5 in
        labelTracks levels centerX centerY zoomLevel tracks radius trackHeight
          trackSpacing labelRadiusOffset genomeLength []
          (LABEL_ANGLE_WIDTH cfg)
  end.

End LabelRenderer.

(** ** The view of the circular renderer: zoom, pan and the hit-test
    transform (renderer/circular/index.ts, core/index.ts) *)

Module CircularView.

Import ZoomPanController.

(** The part of a [CircularRenderer] that zooming and panning touch. *)
Record View : Type := mkView {
  rendererType : string;
  stage : option Stage;
  svgContainer : option Svg;
  viewZoom : Q;
  controller : ZoomPanController.t
}.

(** [CircularRenderer.setZoomLevel]: every renderer type other than
    ['canvas'] takes the SVG path. *)
Definition setZoomLevel (view : View) (level : Q) (point : option Point) : View :=
  if String.eqb (rendererType view) "canvas" then
    let '(c, stage') :=
      setCanvasZoomLevel (controller view) level point (stage view) in
    mkView (rendererType view) stage' (svgContainer view) level c
  else
    let '(c, svg') :=
      setSvgZoomLevel (controller view) level point (svgContainer view) in
    mkView (rendererType view) (stage view) svg' level c.

(** [CircularRenderer.setPanOffset] *)
Definition setPanOffset (view : View) (offset : Point) : View :=
  let '(stage', svg') :=
    ZoomPanController.setPanOffset offset (stage view) (svgContainer view)
      (rendererType view) in
  mkView (rendererType view) stage' svg' (viewZoom view) (controller view).

(** [CGView.pan] and [CGView.resetView] *)
Definition pan (view : View) (deltaX deltaY : Q) : View :=
  setPanOffset view (mkPoint deltaX deltaY).

Definition resetView (view : View) : View :=
  setPanOffset (setZoomLevel view 1 None) (mkPoint 0 0).

(** The first lines of [detectHoveredFeature]: the pointer position
    carried back through the pan and zoom of the scene.  On SVG the
    scale is read from the transform of [g#featureContainer], and is 1
    when the transform has no scale; a transform that matches neither
    pattern leaves the position as it is.  [None] is the exception of
    reading the attribute of a group that does not exist. *)
Definition adjusted (view : View) (x y : Q) : option (Q * Q) :=
  match
    (if String.eqb (rendererType view) "canvas" then stage view else None)
  with
  | Some (circleContainer :: _) =>
      let scale := viewZoom view in
      let containerX := point_x (position circleContainer) in
      let containerY := point_y (position circleContainer) in
      Some ((x - containerX) / scale, (y - containerY) / scale)
  | _ =>
      if String.eqb (rendererType view) "svg" then
        match svgContainer view with
        | Some svg =>
            match find (fun g => String.eqb (group_id g) "featureContainer") svg with
            | None => None
            | Some featureContainer =>
                match group_transform featureContainer with
                | None => Some ((x - 0) / 1, (y - 0) / 1)
                | Some (Translate cx cy) => Some ((x - cx) / 1, (y - cy) / 1)
                | Some (TranslateScale cx cy s) => Some ((x - cx) / s, (y - cy) / s)
                | Some (OtherTransform _) => Some (x, y)
                end
            end
        | None => Some (x, y)
        end
      else Some (x, y)
  end.

(** Two transforms that denote the same translation and scale. *)
Definition sameTransform (a b : option Transform) : Prop :=
  match a, b with
  | None, None => True
  | Some (Translate x y), Some (Translate x' y') => x == x' /\ y == y'
  | Some (TranslateScale x y s), Some (TranslateScale x' y' s') =>
      x == x' /\ y == y' /\ s == s'
  | Some (OtherTransform t), Some (OtherTransform t') => t = t'
  | _, _ => False
  end.

Definition sameGroup (a b : SvgGroup) : Prop :=
  group_id a = group_id b /\ sameTransform (group_transform a) (group_transform b).

End CircularView.

(** ** Hit testing (CircularRenderer.detectHoveredFeature)

    The function turns the pointer position into a distance from the
    centre and a genomic position with [Math.sqrt] and [Math.atan2]; what
    it does with the two numbers is modelled here. *)

Module HitTest.

Import CircularRenderer.

(** An entry of [trackRanges]; the track of the GC-skew entry is whatever
    [find] returned. *)
Record TrackRange : Type := mkTrackRange {
  range_track : option Track;
  range_innerRadius : Q;
  range_outerRadius : Q
}.

(** The loop over the visible non-GC tracks: the ranges pushed and the
    radius left. *)
Fixpoint nonGCRanges (tracks : list Track)
    (currentRadius trackHeight trackSpacing : Q) : list TrackRange * Q :=
  match tracks with
  | [] => ([], currentRadius)
  | track :: rest =>
      let innerRadius := currentRadius - trackHeight in
      let range := mkTrackRange (Some track) innerRadius currentRadius in
      let '(ranges, final) :=
        nonGCRanges rest (currentRadius - (trackHeight + trackSpacing))
          trackHeight trackSpacing in
      (range :: ranges, final)
  end.

(** The height of a band as the hit test computes it, with its own
    literals 15 and 30. *)
Definition hitTrackHeight (radius : Q) (actualTrackCount : nat) : Q :=
  Js.Math_min 30
    (Js.Math_max 15 (radius / (inject_Z (Z.of_nat actualTrackCount) + 2))).

Definition trackRanges (radius : Q) (tracks : list Track) : list TrackRange :=
  let nonGCTracks :=
    List.filter (fun track => negb (isType "gc_content" track)
                              && negb (isType "gc_skew_plus" track)
                              && negb (isType "gc_skew_minus" track)) tracks in
  let gcContentTrack := find (isType "gc_content") tracks in
  let gcSkewPlusTrack := find (isType "gc_skew_plus") tracks in
  let gcSkewMinusTrack := find (isType "gc_skew_minus") tracks in
  let visibleNonGCTracks := List.filter track_visible nonGCTracks in
  let gcContentVisible := foundVisible gcContentTrack in
  let gcSkewPlusVisible := foundVisible gcSkewPlusTrack in
  let gcSkewMinusVisible := foundVisible gcSkewMinusTrack in
  let gcSkewVisible := gcSkewPlusVisible || gcSkewMinusVisible in
  let actualTrackCount := length visibleNonGCTracks in
  let actualTrackCount :=
    if gcContentVisible then S actualTrackCount else actualTrackCount in
  let actualTrackCount :=
    if gcSkewVisible then S actualTrackCount else actualTrackCount in
  let trackHeight := hitTrackHeight radius actualTrackCount in
  let trackSpacing := 5 in
  let '(ranges, currentRadius) :=
    nonGCRanges visibleNonGCTracks radius trackHeight trackSpacing in
  let '(ranges, currentRadius) :=
    match gcContentTrack with
    | Some track =>
        if gcContentVisible then
          (ranges ++ [mkTrackRange (Some track) (currentRadius - trackHeight)
                        currentRadius],
           currentRadius - (trackHeight + trackSpacing))
        else (ranges, currentRadius)
    | None => (ranges, currentRadius)
    end in
  if gcSkewVisible then
    ranges ++ [mkTrackRange
                 (if gcSkewPlusVisible then gcSkewPlusTrack else gcSkewMinusTrack)
                 (currentRadius - trackHeight) currentRadius]
  else ranges.

Definition inRange (distance : Q) (range : TrackRange) : bool :=
  Js.ge distance (range_innerRadius range)
  && Js.le distance (range_outerRadius range).

(** The search from the innermost range outwards. *)
Definition rangeAt (distance : Q) (ranges : list TrackRange) : option TrackRange :=
  find (inRange distance) (rev ranges).

(** The features the hit test considers. *)
Definition eligible (feature : Feature) : bool :=
  String.eqb (feature_type feature) "gene"
  || String.eqb (feature_type feature) "CDS"
  || match feature_name feature with
     | Some name => negb (String.eqb name "")
     | None => false
     end
  || negb (String.eqb (feature_id feature) "").

(** The distance along the circle between the centre of a feature and a
    genomic position. *)
Definition circularDistance (feature : Feature) (genomePosition genomeLength : Q)
    : Q :=
  let featureCenter := (feature_start feature + feature_end feature) / 2 in
  let distance := Qabs (featureCenter - genomePosition) in
  if Js.gt distance (genomeLength / 2) then genomeLength - distance
  else distance.

(** The loop over the features of the track; [minDistance] starts as
    [Infinity], which is [None] here. *)
Fixpoint closestFrom (features : list Feature) (genomePosition genomeLength : Q)
    (closestFeature : option Feature) (minDistance : option Q)
    : option Feature :=
  match features with
  | [] => closestFeature
  | feature :: rest =>
      if eligible feature then
        let distance := circularDistance feature genomePosition genomeLength in
        let closer :=
          match minDistance with
          | None => true
          | Some m => Js.lt distance m
          end in
        if closer
        then closestFrom rest genomePosition genomeLength (Some feature)
               (Some distance)
        else closestFrom rest genomePosition genomeLength closestFeature
               minDistance
      else closestFrom rest genomePosition genomeLength closestFeature
             minDistance
  end.

(** The state of the feature loop of the hit test: nothing chosen yet, or
    a feature together with its distance. *)
Definition consistent (genomePosition genomeLength : Q)
    (closest : option Feature) (minDistance : option Q) : Prop :=
  match closest, minDistance with
  | None, None => True
  | Some c, Some m => m = circularDistance c genomePosition genomeLength
  | _, _ => False
  end.

(** The result of the hit test for a pointer at [distance] from the
    centre and at the angle of [genomePosition]. *)
Definition hoveredFeature (radius : Q) (genome : option Genome)
    (distance genomePosition : Q) : option Feature :=
  match genome with
  | None => None
  | Some genome =>
      match rangeAt distance (trackRanges radius (genome_tracks genome)) with
      | Some range =>
          match range_track range with
          | Some currentTrack =>
              closestFrom (track_features currentTrack) genomePosition
                (genome_length genome) None None
          | None => None
          end
      | None => None
      end
  end.

(** A range and a drawn band that occupy the same ring. *)
Definition sameRing (range : TrackRange) (band : FeatureRenderer.Band) : Prop :=
  range_outerRadius range == FeatureRenderer.band_radius band
  /\ range_outerRadius range - range_innerRadius range
     == FeatureRenderer.band_height band
  /\ option_map track_type (range_track range) = FeatureRenderer.band_type band.

End HitTest.

(** ** Zoom controls of the page

    [ControlsManager] (the three zoom buttons) and [DragAndZoomManager]
    (the mouse wheel) each keep a [currentZoom] of their own, both
    initialised to 1, and hand the new level to [CGView.setZoomLevel]. *)

Module ZoomControls.

Import ZoomPanController CircularView.

Record Ui : Type := mkUi {
  controlsZoom : Q;
  dragZoom : Q;
  cgview : option View
}.

(** The wheel event carries [deltaY] and the pointer position relative
    to the container. *)
Inductive Event : Type :=
| ZoomInClick
| ZoomOutClick
| ResetZoomClick
| WheelEvent (deltaY x y : Q).


(** [this.cgview?.setZoomLevel(level)] *)
Definition callSetZoomLevel (cgview : option View) (level : Q)
    (point : option Point) : option View :=
  match cgview with
  | Some view => Some (setZoomLevel view level point)
  | None => None
  end.

Definition callSetPanOffset (cgview : option View) (offset : Point)
    : option View :=
  match cgview with
  | Some view => Some (CircularView.setPanOffset view offset)
  | None => None
  end.

(** The listeners registered on the buttons and on the container. *)
Definition onEvent (ui : Ui) (e : Event) : Ui :=
  match e with
  | ZoomInClick =>
      let currentZoom := controlsZoom ui * 1.2 in
      let currentZoom := Js.Math_min currentZoom 10 in
      mkUi currentZoom (dragZoom ui)
        (callSetZoomLevel (cgview ui) currentZoom None)
  | ZoomOutClick =>
      let currentZoom := controlsZoom ui * 0.8 in
      let currentZoom := Js.Math_max currentZoom 0.1 in
      mkUi currentZoom (dragZoom ui)
        (callSetZoomLevel (cgview ui) currentZoom None)
  | ResetZoomClick =>
      let currentZoom := 1 in
      mkUi currentZoom (dragZoom ui)
        (callSetPanOffset (callSetZoomLevel (cgview ui) currentZoom None)
           (mkPoint 0 0))
  | WheelEvent deltaY x y =>
      match cgview ui with
      | None => ui
      | Some view =>
          let delta := if Js.gt deltaY 0 then 0.9 else 1.1 in
          let currentZoom := dragZoom ui * delta in
          let currentZoom := Js.Math_max 0.1 (Js.Math_min currentZoom 10) in
          mkUi (controlsZoom ui) currentZoom
            (Some (setZoomLevel view currentZoom (Some (mkPoint x y))))
      end
  end.

(** Both counters start at 1. *)
Definition initial (cgview : option View) : Ui := mkUi 1 1 cgview.

Definition run (ui : Ui) (events : list Event) : Ui :=
  fold_left onEvent events ui.

Definition inRange (zoom : Q) : Prop := 0.1 <= zoom /\ zoom <= 10.

(** Both counters are in range. *)
Definition settled (ui : Ui) : Prop :=
  inRange (controlsZoom ui) /\ inRange (dragZoom ui).


End ZoomControls.

(** ** Methods of the [Feature] class *)

Module FeatureMethods.

Import FeatureModel.

Definition getLength (this : Feature) : Q :=
  feature_end this - feature_start this + 1.

Definition getCenter (this : Feature) : Q :=
  inject_Z (Qfloor ((feature_start this + feature_end this) / 2)).

Definition isVisible (this : Feature) (viewportStart viewportEnd : Q) : bool :=
  Js.ge (feature_end this) viewportStart
  && Js.le (feature_start this) viewportEnd.

(** [{ ...data, start, end }] *)
Definition withCoordinates (data : FeatureData) (start end_ : Q)
    : FeatureData :=
  mkFeatureData (data_id data) (data_name data) (data_type data)
    (Some start) (Some end_) (data_strand data) (data_attributes data)
    (data_sequenceId data).

End FeatureMethods.

(** ** GFF3 parser: the GC tracks *)

Module JsString.

(** [String.prototype.toUpperCase] on one character of the sequence
    alphabet: the letters [a]..[z] move to [A]..[Z]. *)
Definition toUpperCase (c : Ascii.ascii) : Ascii.ascii :=
  let n := Ascii.nat_of_ascii c in
  if (97 <=? n)%nat && (n <=? 122)%nat then Ascii.ascii_of_nat (n - 32)
  else c.

(** [String.prototype.substring(start, end)] on integers: both indices
    are clamped to the string and swapped when they are out of order. *)
Definition substring (s : string) (start end_ : Z) : string :=
  let len := Z.of_nat (String.length s) in
  let finalStart := Z.min (Z.max start 0) len in
  let finalEnd := Z.min (Z.max end_ 0) len in
  let from := Z.min finalStart finalEnd in
  let to := Z.max finalStart finalEnd in
  String.substring (Z.to_nat from) (Z.to_nat (to - from)) s.

End JsString.

Module GFF3Parser.

Record Counts : Type := mkCounts {
  gCount : nat;
  cCount : nat;
  aCount : nat;
  tCount : nat
}.

(** The [switch] on one base. *)
Definition countBase (k : Counts) (base : Ascii.ascii) : Counts :=
  let upper := String (JsString.toUpperCase base) EmptyString in
  if String.eqb upper "G" then
    mkCounts (S (gCount k)) (cCount k) (aCount k) (tCount k)
  else if String.eqb upper "C" then
    mkCounts (gCount k) (S (cCount k)) (aCount k) (tCount k)
  else if String.eqb upper "A" then
    mkCounts (gCount k) (cCount k) (S (aCount k)) (tCount k)
  else if String.eqb upper "T" then
    mkCounts (gCount k) (cCount k) (aCount k) (S (tCount k))
  else k.

(** [for (const base of windowSequence)] *)
Fixpoint countBases (windowSequence : string) (k : Counts) : Counts :=
  match windowSequence with
  | EmptyString => k
  | String base rest => countBases rest (countBase k base)
  end.

Definition ofNat (n : nat) : Q := inject_Z (Z.of_nat n).

(** [calculateGCValue] *)
Definition calculateGCValue (type sequence : string) (start end_ : Z) : Q :=
  let windowSequence := JsString.substring sequence start (end_ + 1) in
  let length := String.length windowSequence in
  if Nat.eqb length 0 then 0
  else
    let k := countBases windowSequence (mkCounts 0 0 0 0) in
    let skewOf (k : Counts) : Q :=
      (ofNat (gCount k) - ofNat (cCount k))
      / (if Nat.eqb (gCount k + cCount k) 0 then 1
         else ofNat (gCount k + cCount k)) in
    if String.eqb type "gc_content" then
      ((ofNat (gCount k) + ofNat (cCount k)) / ofNat length) * 100
    else if String.eqb type "gc_skew_plus" then
      let skew := skewOf k in
      Js.Math_max 0 skew
    else if String.eqb type "gc_skew_minus" then
      let skewMinus := skewOf k in
      Js.Math_min 0 skewMinus
    else 0.

Definition windowSize : Q := 1000.

(** The windows [(start, end)] that the loop of [calculateGCTrackData]
    walks through for a sequence of the given length. *)
Definition gcWindows (length : Q) : list (Q * Q) :=
  let steps := Qceiling (length / windowSize) in
  map (fun i : nat =>
         let start := ofNat i * windowSize + 1 in
         let end_ := Js.Math_min ((ofNat i + 1) * windowSize) length in
         (start, end_))
      (seq 0 (Z.to_nat steps)).

(** The window of step [i]. *)
Definition gcWindow (length : Q) (i : nat) : Q * Q :=
  (ofNat i * windowSize + 1,
   Js.Math_min ((ofNat i + 1) * windowSize) length).

(** Each window starts right after the one before it ends. *)
Fixpoint contiguous (windows : list (Q * Q)) : Prop :=
  match windows with
  | [] => True
  | w :: rest =>
      match rest with
      | [] => True
      | w' :: _ => fst w' == snd w + 1 /\ contiguous rest
      end
  end.

End GFF3Parser.

(** ** Cache manager *)

Module CacheManager.

Section Cache.

Context {T : Type}.

Record CacheItem : Type := mkCacheItem {
  data : T;
  timestamp : Q;
  expiry : Q
}.

Record t : Type := mk {
  cache : gmap string CacheItem;
  defaultExpiry : Q
}.

(** A fresh manager: an empty map and one hour in milliseconds. *)
Definition new : t := mk ∅ 3600000.

(** [expiry || this.defaultExpiry]: a missing expiry and the expiry 0
    both give the default. *)
Definition orDefault (expiry : option Q) (default : Q) : Q :=
  match expiry with
  | Some e => if Qeq_bool e 0 then default else e
  | None => default
  end.

(** [set], with the reading of [Date.now()]. *)
Definition set (this : t) (key : string) (data : T) (expiry : option Q)
    (now : Q) : t :=
  let item := mkCacheItem data now (orDefault expiry (defaultExpiry this)) in
  mk (<[key := item]> (cache this)) (defaultExpiry this).

(** [Date.now() - item.timestamp > item.expiry] *)
Definition expired (now : Q) (item : CacheItem) : bool :=
  Js.gt (now - timestamp item) (expiry item).

(** [get]: the value, or [None] for [null], and the manager afterwards. *)
Definition get (this : t) (key : string) (now : Q) : option T * t :=
  match cache this !! key with
  | None => (None, this)
  | Some item =>
      if expired now item then
        (None, mk (base.delete key (cache this)) (defaultExpiry this))
      else (Some (data item), this)
  end.

Definition has (this : t) (key : string) (now : Q) : bool * t :=
  match cache this !! key with
  | None => (false, this)
  | Some item =>
      if expired now item then
        (false, mk (base.delete key (cache this)) (defaultExpiry this))
      else (true, this)
  end.

Definition delete (this : t) (key : string) : t :=
  mk (base.delete key (cache this)) (defaultExpiry this).

Definition clear (this : t) : t := mk ∅ (defaultExpiry this).

Definition size (this : t) : nat := base.size (cache this).

Definition setDefaultExpiry (this : t) (expiry : Q) : t :=
  mk (cache this) expiry.

(** One turn of the loop of [cleanup]. *)
Definition cleanupEntry (now : Q) (cache : gmap string CacheItem)
    (entry : string * CacheItem) : gmap string CacheItem :=
  let '(key, item) := entry in
  if expired now item then base.delete key cache else cache.

(** [cleanup]: the loop runs over the entries of the map and deletes
    from the map it runs over. *)
Definition cleanup (this : t) (now : Q) : t :=
  mk (fold_left (cleanupEntry now) (map_to_list (cache this)) (cache this))
     (defaultExpiry this).

End Cache.

Arguments CacheItem T : clear implicits.
Arguments t T : clear implicits.

End CacheManager.

(** ** Track, sequence and genome models *)

Module TrackModel.

Import FeatureModel.

(** [color: string | number] *)
Inductive Color : Type :=
| ColorString (text : string)
| ColorNumber (value : Q).

(** Whether [color || ...] keeps the colour. *)
Definition truthy (color : Color) : bool :=
  match color with
  | ColorString text => negb (String.eqb text "")
  | ColorNumber value => negb (Qeq_bool value 0)
  end.

(** A [Track] instance; a [color] that is [None] is [undefined]. *)
Record TrackObject : Type := mkTrackObject {
  id : string;
  name : string;
  type : string;
  color : option Color;
  visible : bool;
  height : Q;
  features : list Feature
}.

(** [Partial<TrackType>] *)
Record TrackData : Type := mkTrackData {
  data_id : option string;
  data_name : option string;
  data_type : option string;
  data_color : option Color;
  data_visible : option bool;
  data_height : option Q;
  data_features : option (list FeatureData)
}.

Definition generateId `{Runtime} (now random : Q) : string :=
  ("track_" ++ toString now ++ "_"
   ++ toString (inject_Z (Qfloor (random * 10000))))%string.

Definition colors : list string :=
  ["#4CAF50"; "#2196F3"; "#FF9800"; "#9C27B0"; "#F44336"; "#607D8B"]%string.

(** [getDefaultColor], given the reading of [Math.random()]; an index
    outside the array reads [undefined]. *)
Definition getDefaultColor (random : Q) : option Color :=
  let index := Qfloor (random * inject_Z (Z.of_nat (List.length colors))) in
  if (index <? 0)%Z then None
  else
    match nth_error colors (Z.to_nat index) with
    | Some text => Some (ColorString text)
    | None => None
    end.

(** [data.map(f => new FeatureModel(f))]: the construction of the
    feature at position [index] reads the clock and the random source
    as [clock index] says. *)
Fixpoint construct `{Runtime} (clock : nat -> Q * Q) (index : nat)
    (data : list FeatureData) : list Feature :=
  match data with
  | [] => []
  | f :: rest =>
      FeatureModel.new f (fst (clock index)) (snd (clock index))
      :: construct clock (S index) rest
  end.

(** [new Track(data)]: [now] and [random] are read by [generateId],
    [colorRandom] by [getDefaultColor]. *)
Definition new `{Runtime} (data : TrackData) (now random colorRandom : Q)
    (clock : nat -> Q * Q) : TrackObject :=
  let id :=
    match data_id data with
    | Some v => if String.eqb v "" then generateId now random else v
    | None => generateId now random
    end in
  let name := orString (data_name data) "Unnamed Track" in
  let type := orString (data_type data) "generic" in
  let color :=
    match data_color data with
    | Some c => if truthy c then Some c else getDefaultColor colorRandom
    | None => getDefaultColor colorRandom
    end in
  let visible :=
    match data_visible data with
    | Some false => false
    | _ => true
    end in
  let height :=
    match data_height data with
    | Some h => if Qeq_bool h 0 then 30 else h
    | None => 30
    end in
  let features :=
    match data_features data with
    | Some fs => construct clock 0 fs
    | None => []
    end in
  mkTrackObject id name type color visible height features.

(** [findIndex]: [None] is -1. *)
Fixpoint findIndex {A : Type} (test : A -> bool) (l : list A) : option nat :=
  match l with
  | [] => None
  | x :: rest =>
      if test x then Some 0%nat
      else
        match findIndex test rest with
        | Some index => Some (S index)
        | None => None
        end
  end.

(** [splice(index, 1)] for an index inside the array. *)
Definition splice1 {A : Type} (index : nat) (l : list A) : list A :=
  firstn index l ++ skipn (S index) l.

Definition addFeature (features : list Feature) (feature : Feature)
    : list Feature :=
  features ++ [feature].

(** [removeFeature] of [Track] and of [Sequence], on the [features]
    array. *)
Definition removeFeature (features : list Feature) (featureId : string)
    : list Feature :=
  match findIndex (fun f => String.eqb (feature_id f) featureId) features with
  | Some index => splice1 index features
  | None => features
  end.

(** [toJSON] returns a plain [TrackType] object. *)
Definition toJSON (this : TrackObject) : TrackObject :=
  mkTrackObject (id this) (name this) (type this) (color this)
    (visible this) (height this) (map FeatureModel.toJSON (features this)).

(** [{ ...data, features }] read as a [Partial<TrackType>]. *)
Definition withFeatures (data : TrackObject) (features : list Feature)
    : TrackData :=
  mkTrackData (Some (id data)) (Some (name data)) (Some (type data))
    (color data) (Some (visible data)) (Some (height data))
    (Some (map asPartial features)).

(** [fromJSON]: the features are built once by [Feature.fromJSON]
    (readings [clock]) and once more by the constructor of the track
    (readings [clock']). *)
Definition fromJSON `{Runtime} (data : TrackObject)
    (now random colorRandom : Q) (clock clock' : nat -> Q * Q)
    : TrackObject :=
  new (withFeatures data (construct clock 0 (map asPartial (features data))))
    now random colorRandom clock'.

(** What the constructor establishes, given that [Math.random()] is in
    [0, 1). *)
Definition wellFormed (this : TrackObject) : Prop :=
  id this <> ""%string /\ name this <> ""%string /\ type this <> ""%string
  /\ (exists c, color this = Some c /\ truthy c = true)
  /\ ~ height this == 0
  /\ Forall FeatureModel.wellFormed (features this).

Definition sameTrack (g this : TrackObject) : Prop :=
  id g = id this /\ name g = name this /\ type g = type this
  /\ color g = color this /\ visible g = visible this
  /\ height g = height this
  /\ Forall2 sameFields (features g) (features this).

(** A track used in the examples. *)
Definition sampleTrack : TrackObject :=
  mkTrackObject "t1" "genes" "CDS" (Some (ColorNumber 255)) false 30
    [featureAt "a" 10 20; featureAt "b" 5 8].

End TrackModel.

Module GenomeModel.

Record Sequence : Type := mkSequence {
  sequence_id : string;
  sequence_name : string;
  sequence_length : Q;
  sequence_features : list Feature
}.

Record GenomeObject : Type := mkGenomeObject {
  sequences : list Sequence;
  tracks : list Track;
  length : Q
}.

(** One of the two loops of [getFeature], over the [features] arrays of
    the tracks or of the sequences. *)
Fixpoint findIn (arrays : list (list Feature)) (featureId : string)
    : option Feature :=
  match arrays with
  | [] => None
  | features :: rest =>
      match find (fun f => String.eqb (feature_id f) featureId) features with
      | Some feature => Some feature
      | None => findIn rest featureId
      end
  end.

(** [getFeature]: [None] is [undefined]. *)
Definition getFeature (this : GenomeObject) (featureId : string)
    : option Feature :=
  match findIn (map track_features (tracks this)) featureId with
  | Some feature => Some feature
  | None => findIn (map sequence_features (sequences this)) featureId
  end.

(** Every feature of the genome, track by track and then sequence by
    sequence. *)
Definition everyFeature (this : GenomeObject) : list Feature :=
  concat (map track_features (tracks this))
  ++ concat (map sequence_features (sequences this)).

End GenomeModel.

(** * Properties *)

(** ** Comparisons *)

Lemma lt_spec (a b : Q) : Js.lt a b = true <-> a < b.
Proof.
  unfold Js.lt. rewrite negb_true_iff, <- not_true_iff_false, Qle_bool_iff.
  split; [apply Qnot_le_lt | apply Qlt_not_le].
Qed.

Lemma le_spec (a b : Q) : Js.le a b = true <-> a <= b.
Proof. apply Qle_bool_iff. Qed.

Lemma gt_spec (a b : Q) : Js.gt a b = true <-> b < a.
Proof. apply lt_spec. Qed.

Lemma ge_spec (a b : Q) : Js.ge a b = true <-> b <= a.
Proof. apply le_spec. Qed.

Lemma lt_false (a b : Q) : Js.lt a b = false <-> b <= a.
Proof.
  unfold Js.lt. rewrite negb_false_iff. apply Qle_bool_iff.
Qed.

Lemma le_false (a b : Q) : Js.le a b = false <-> b < a.
Proof.
  rewrite <- not_true_iff_false, le_spec.
  split; [apply Qnot_le_lt | apply Qlt_not_le].
Qed.

Lemma gt_false (a b : Q) : Js.gt a b = false <-> a <= b.
Proof. apply lt_false. Qed.


(** ** Interval tree *)

Section IntervalTreeFacts.

Import IntervalTree.

Lemma stored_updateMax (node : IntervalNode) :
  stored (updateMax node) = stored node.
Proof. destruct node; reflexivity. Qed.

Lemma stored_insertNode (node : IntervalNode) (f g : Feature) :
  In g (stored (insertNode node f)) <-> g = f \/ In g (stored node).
Proof.
  induction node as [|h l IHl r IHr mn mx]; cbn [insertNode].
  - simpl. intuition congruence.
  - destruct (Js.lt (center f) (center h));
      rewrite stored_updateMax; cbn [stored In]; rewrite !in_app_iff.
    + rewrite IHl. intuition congruence.
    + rewrite IHr. intuition congruence.
Qed.

Lemma stored_fold_insert (fs : list Feature) (tree : t) (g : Feature) :
  In g (stored (root (fold_left insert fs tree)))
  <-> In g fs \/ In g (stored (root tree)).
Proof.
  revert tree; induction fs as [|f fs IH]; intros tree; simpl.
  - tauto.
  - rewrite IH. unfold insert at 1; simpl. rewrite stored_insertNode.
    intuition congruence.
Qed.

Lemma stored_insertAll (fs : list Feature) (g : Feature) :
  In g (stored (root (insertAll fs))) <-> In g fs.
Proof.
  unfold insertAll. rewrite stored_fold_insert. simpl. tauto.
Qed.

(** Whatever [queryNode] adds to the results is stored in the tree and
    passes the overlap test. *)
Lemma queryNode_sound (node : IntervalNode) (a b : Q) (acc : list Feature)
    (g : Feature) :
  In g (queryNode node a b acc) ->
  In g acc \/ (In g (stored node) /\ intersects g a b = true).
Proof.
  revert acc; induction node as [|h l IHl r IHr mn mx]; intros acc;
    cbn [queryNode stored].
  - tauto.
  - set (acc1 := if intersects h a b then acc ++ [h] else acc).
    assert (H1 : In g acc1 ->
                 In g acc \/ (g = h /\ intersects g a b = true)).
    { subst acc1. destruct (intersects h a b) eqn:E.
      - rewrite in_app_iff; simpl. intuition (subst; auto).
      - auto. }
    set (acc2 := match l with
                 | null => acc1
                 | Node _ _ _ _ lmax =>
                     if Js.ge lmax a then queryNode l a b acc1 else acc1
                 end).
    assert (H2 : In g acc2 ->
                 In g acc1 \/ (In g (stored l) /\ intersects g a b = true)).
    { subst acc2. destruct l as [|lf ll lr lmn lmx]; [auto|].
      destruct (Js.ge lmx a); [apply IHl | auto]. }
    intros Hin.
    assert (H3 : In g acc2 \/ (In g (stored r) /\ intersects g a b = true)).
    { destruct r as [|rf rl rr rmn rmx]; [auto|].
      destruct (Js.le rmn b); [apply IHr; exact Hin | auto]. }
    assert (Hcons : forall x, In x (h :: stored l ++ stored r) <->
                    x = h \/ In x (stored l) \/ In x (stored r)).
    { intros x. cbn [In]. rewrite in_app_iff. intuition congruence. }
    rewrite Hcons.
    destruct H3 as [H3|[H3 H3']]; [|tauto].
    apply H2 in H3. destruct H3 as [H3|[H3 H3']]; [|tauto].
    apply H1 in H3. tauto.
Qed.

(** The half of the query contract that the code keeps: every result was
    inserted and overlaps the range. *)
Lemma query_sound (fs : list Feature) (a b : Q) (g : Feature) :
  In g (query (insertAll fs) a b) ->
  In g fs /\ Js.ge (feature_end g) a = true /\ Js.le (feature_start g) b = true.
Proof.
  unfold query. intros H. apply queryNode_sound in H.
  destruct H as [[]|[H1 H2]].
  apply (proj1 (stored_insertAll fs g)) in H1. unfold intersects in H2.
  apply andb_true_iff in H2. destruct H2 as [H2 H3].
  split; [exact H1 | split; [exact H2 | exact H3]].
Qed.

End IntervalTreeFacts.

(** C1 (the code departs from the claim).  After inserting [10,20],
    [50,60] and [16,30] in that order, [query(18,22)] returns only
    [10,20], although [16,30] ends at or after 18 and starts at or before
    22: the feature sits in the left subtree of the node [50,60], whose
    own start, 50, is compared with the end of the range and prunes the
    whole subtree. *)
Theorem query_misses_overlapping_feature :
  let a := featureAt "a" 10 20 in
  let b := featureAt "b" 50 60 in
  let c := featureAt "c" 16 30 in
  let tree := IntervalTree.insertAll [a; b; c] in
  IntervalTree.query tree 18 22 = [a]
  /\ In c [a; b; c]
  /\ Js.ge (feature_end c) 18 = true
  /\ Js.le (feature_start c) 22 = true.
Proof.
  cbv zeta. split; [vm_compute; reflexivity|].
  split; [simpl; tauto|].
  split; vm_compute; reflexivity.
Qed.

(** The second scenario of the specification: with [10,20], [15,25] and
    [50,60] the query [18,22] does return exactly the first two. *)
Example query_scenario :
  IntervalTree.query
    (IntervalTree.insertAll
       [featureAt "a" 10 20; featureAt "b" 15 25; featureAt "c" 50 60]) 18 22
  = [featureAt "a" 10 20; featureAt "b" 15 25].
Proof. vm_compute. reflexivity. Qed.

(** ** Label placement *)

Section LabelFacts.

Import Utils.

Lemma existsb_false_iff {A : Type} (p : A -> bool) (l : list A) :
  existsb p l = false <-> forall x, In x l -> p x = false.
Proof.
  induction l as [|a l IH]; simpl.
  - tauto.
  - rewrite orb_false_iff, IH. split.
    + intros [Ha Hl] x [<-|Hx]; auto.
    + intros H. split; [apply H; auto | intros x Hx; apply H; auto].
Qed.

Lemma canRenderLabel_accepts (feature : Feature) (genomeLength w : Q)
    (rendered : list LabelAngle) :
  fst (canRenderLabel feature genomeLength rendered w) = true <->
  forall l, In l rendered -> clearOf l (labelAngle feature genomeLength w).
Proof.
  unfold canRenderLabel, clearOf, labelAngle; cbn [label_start label_end].
  rewrite <- (existsb_false_iff
    (fun label => checkAngleCollision
       (featureCenterAngle feature genomeLength - w / 2)
       (featureCenterAngle feature genomeLength + w / 2)
       (label_start label) (label_end label))).
  destruct (existsb _ rendered); simpl; split; congruence.
Qed.

Lemma canRenderLabel_array (feature : Feature) (genomeLength w : Q)
    (rendered : list LabelAngle) :
  snd (canRenderLabel feature genomeLength rendered w) =
  if fst (canRenderLabel feature genomeLength rendered w)
  then rendered ++ [labelAngle feature genomeLength w]
  else rendered.
Proof.
  unfold canRenderLabel, labelAngle. destruct (existsb _ rendered); reflexivity.
Qed.

Lemma ForallOrdPairs_snoc {A : Type} (R : A -> A -> Prop) (l : list A) (y : A) :
  ForallOrdPairs R l -> Forall (fun x => R x y) l ->
  ForallOrdPairs R (l ++ [y]).
Proof.
  induction 1 as [|a l Ha Hl IH]; intros Hy; simpl.
  - constructor; constructor.
  - inversion Hy as [|? ? Hay Hly]; subst. constructor.
    + apply Forall_app. split; [exact Ha | constructor; [exact Hay | constructor]].
    + apply IH. exact Hly.
Qed.

(** What the placement loop does guarantee: a label accepted later passes
    the collision test of the code against every label accepted earlier. *)
Lemma placeLabels_clear (features : list Feature) (genomeLength w : Q)
    (rendered : list LabelAngle) :
  ForallOrdPairs clearOf rendered ->
  ForallOrdPairs clearOf (snd (placeLabels features genomeLength rendered w)).
Proof.
  revert rendered; induction features as [|f fs IH]; intros rendered Hr.
  - exact Hr.
  - cbn [placeLabels].
    pose proof (canRenderLabel_accepts f genomeLength w rendered) as Hacc.
    pose proof (canRenderLabel_array f genomeLength w rendered) as Harr.
    destruct (canRenderLabel f genomeLength rendered w) as [ok angles].
    cbn [fst snd] in Hacc, Harr.
    specialize (IH angles).
    destruct (placeLabels fs genomeLength angles w) as [drawn final].
    cbn [snd] in *. apply IH. subst angles. destruct ok; [|exact Hr].
    apply ForallOrdPairs_snoc; [exact Hr|].
    apply List.Forall_forall. intros l Hl. apply Hacc; [reflexivity | exact Hl].
Qed.

End LabelFacts.

(** C10.  Over doubles, as the engine computes.  [canRenderLabel] answers
    true exactly when the interval from [c - w/2] to [c + w/2], where [c]
    is the mean of the angles of [feature.start] and [feature.end]
    (position over genome length, times [Math.PI], times 2), collides
    under [checkAngleCollision] with no interval already in the array; on
    true the array gains that one interval at its end, on false it is
    unchanged.  [checkAngleCollision] is the overlap test of the new
    interval as it is or moved forward by [2 * Math.PI]. *)
Theorem canRenderLabel_spec (feature : UtilsDouble.Feature)
    (genomeLength w : float) (rendered : list UtilsDouble.LabelAngle) :
  let pi := 0x1.921fb54442d18p+1%float in
  let featureStartAngle :=
    (UtilsDouble.feature_start feature / genomeLength * pi * 2)%float in
  let featureEndAngle :=
    (UtilsDouble.feature_end feature / genomeLength * pi * 2)%float in
  let c := ((featureStartAngle + featureEndAngle) / 2)%float in
  let result := UtilsDouble.canRenderLabel feature genomeLength rendered w in
  (fst result = true <->
   forall l, In l rendered ->
     UtilsDouble.checkAngleCollision (c - w / 2)%float (c + w / 2)%float
       (UtilsDouble.label_start l) (UtilsDouble.label_end l) = false)
  /\ snd result =
     (if fst result
      then rendered ++ [UtilsDouble.mkLabelAngle (c - w / 2)%float (c + w / 2)%float]
      else rendered)
  /\ forall currentStart currentEnd labelStart labelEnd,
       UtilsDouble.checkAngleCollision currentStart currentEnd labelStart labelEnd
       = (PrimFloat.ltb currentStart labelEnd
          && PrimFloat.ltb labelStart currentEnd)
         || (PrimFloat.ltb (currentStart + 2 * pi)%float labelEnd
             && PrimFloat.ltb labelStart (currentEnd + 2 * pi)%float).
Proof.
  cbv zeta. unfold UtilsDouble.canRenderLabel.
  change Double.Math_PI with 0x1.921fb54442d18p+1%float.
  split; [|split].
  - rewrite <- (existsb_false_iff
      (fun label => UtilsDouble.checkAngleCollision _ _
                      (UtilsDouble.label_start label)
                      (UtilsDouble.label_end label))).
    destruct (existsb _ rendered); cbn [negb fst]; split; congruence.
  - destruct (existsb _ rendered); reflexivity.
  - reflexivity.
Qed.

(** On a genome of length 1000 and with labels one base wide
    ([w = 1 / 1000 * Math.PI * 2]) the labels of the features [0,0] and
    [1,1] touch: the first ends at the double at which the second
    starts, the test is strict, and both are accepted.  With genome
    length 0 every angle is infinite or NaN, no comparison holds and a
    label is accepted twice. *)
Lemma canRenderLabel_spec_witness :
  let w := (1 / 1000 * Double.Math_PI * 2)%float in
  let first := UtilsDouble.canRenderLabel (UtilsDouble.mkFeature 0 0) 1000 [] w in
  let second :=
    UtilsDouble.canRenderLabel (UtilsDouble.mkFeature 1 1) 1000 (snd first) w in
  first = (true, [UtilsDouble.mkLabelAngle (-0x1.9bc65b68b71c3p-9) 0x1.9bc65b68b71c3p-9])
  /\ fst second = true
  /\ snd second
     = snd first ++ [UtilsDouble.mkLabelAngle 0x1.9bc65b68b71c3p-9 0x1.34d4c48e89552p-7]
  /\ fst (UtilsDouble.canRenderLabel (UtilsDouble.mkFeature 5 9) 0
            [UtilsDouble.mkLabelAngle infinity infinity] 0.08) = true.
Proof.
  cbv zeta.
  split; [vm_compute; reflexivity|].
  split; [|split].
  - apply (proj1 (canRenderLabel_spec (UtilsDouble.mkFeature 1 1) 1000
                    (1 / 1000 * Double.Math_PI * 2)%float _)).
    intros l Hl. vm_compute in Hl. destruct Hl as [<-|[]].
    vm_compute. reflexivity.
  - rewrite (proj1 (proj2 (canRenderLabel_spec (UtilsDouble.mkFeature 1 1) 1000
                             (1 / 1000 * Double.Math_PI * 2)%float _))).
    vm_compute. reflexivity.
  - apply (proj1 (canRenderLabel_spec (UtilsDouble.mkFeature 5 9) 0 0.08%float _)).
    intros l [<-|[]]. vm_compute. reflexivity.
Defined.

(** C2 (the code departs from the claim).  On a genome of length 10000
    and with labels 0.08 wide, the features [1,101] and [9900,10000],
    offered in that order, are both accepted, although the second
    interval moved back by one turn overlaps the first:
    [checkAngleCollision] tries the new interval as it is and moved
    forward by one turn, and never moved back. *)
Theorem labels_overlap_across_origin :
  let a := featureAt "a" 1 101 in
  let b := featureAt "b" 9900 10000 in
  let w := LABEL_ANGLE_WIDTH exportConfig in
  let ia := Utils.labelAngle a 10000 w in
  let ib := Utils.labelAngle b 10000 w in
  Utils.placeLabels [a; b] 10000 [] w = ([a; b], [ia; ib])
  /\ Utils.overlaps (Utils.shifted (-1) ib) ia = true
  /\ Utils.overlapsOnCircle ib ia = true.
Proof.
  cbv zeta. split; [|split]; vm_compute; reflexivity.
Qed.

(** The same scenario over doubles: both labels are accepted, and the
    second interval moved back by [2 * Math.PI] overlaps the first. *)
Example labels_overlap_across_origin_doubles :
  let first :=
    UtilsDouble.canRenderLabel (UtilsDouble.mkFeature 1 101) 10000 [] 0.08 in
  let second :=
    UtilsDouble.canRenderLabel (UtilsDouble.mkFeature 9900 10000) 10000
      (snd first) 0.08 in
  fst first = true /\ fst second = true
  /\ exists ia ib,
       snd second = [ia; ib]
       /\ PrimFloat.ltb
            (UtilsDouble.label_start ib - 2 * Double.Math_PI)%float
            (UtilsDouble.label_end ia) = true
       /\ PrimFloat.ltb (UtilsDouble.label_start ia)
            (UtilsDouble.label_end ib - 2 * Double.Math_PI)%float = true.
Proof.
  cbv zeta. split; [vm_compute; reflexivity|].
  split; [vm_compute; reflexivity|].
  eexists _, _. split; [vm_compute; reflexivity|].
  split; vm_compute; reflexivity.
Qed.

(** ** Level of detail *)

Section LODFacts.

Import LODManager.

Lemma matches_spec (z : Q) (level : LODLevel) :
  matches z level = true <-> inBucket z level.
Proof.
  unfold matches, inBucket. rewrite andb_true_iff, ge_spec.
  destruct (maxZoom level) as [q|]; simpl.
  - rewrite lt_spec. tauto.
  - tauto.
Qed.

Lemma find_none_iff {A : Type} (p : A -> bool) (l : list A) :
  find p l = None <-> forall x, In x l -> p x = false.
Proof.
  split; [apply find_none|].
  induction l as [|a l IH]; simpl; intros H; [reflexivity|].
  rewrite (H a) by auto. apply IH. intros x Hx. apply H. auto.
Qed.

(** In a chained table every bucket starts at or after the table does. *)
Lemma chained_lower (levels : list LODLevel) (from : Q) (level : LODLevel) :
  chained from levels -> In level levels -> from <= minZoom level.
Proof.
  revert from; induction levels as [|l rest IH]; intros from Hc Hin.
  - destruct Hin.
  - destruct Hc as [Hmin Hrest]. destruct Hin as [<-|Hin].
    + rewrite Hmin. apply Qle_refl.
    + destruct rest as [|l' rest']; [destruct Hin|].
      destruct Hrest as (q & _ & Hlt & Hc).
      apply Qle_trans with q; [apply Qlt_le_weak; exact Hlt|].
      apply IH; assumption.
Qed.

(** In a chained table the loop of [getLOD] finds, for every zoom at or
    after the start of the table, the one bucket that contains it. *)
Lemma chained_find (levels : list LODLevel) (from z : Q) :
  chained from levels -> from <= z ->
  exists level,
    find (matches z) levels = Some level /\ In level levels /\
    inBucket z level /\
    forall other, In other levels -> inBucket z other -> other = level.
Proof.
  revert from; induction levels as [|l rest IH]; intros from Hc Hz.
  - destruct Hc.
  - destruct Hc as [Hmin Hrest]. cbn [find].
    destruct (matches z l) eqn:Hm.
    + exists l. split; [reflexivity|]. split; [left; reflexivity|].
      apply matches_spec in Hm. split; [exact Hm|].
      intros other [->|Hin] Hother; [reflexivity|].
      exfalso. destruct rest as [|l' rest']; [destruct Hin|].
      destruct Hrest as (q & Hq & _ & Hc).
      pose proof (chained_lower _ _ _ Hc Hin) as Hlow.
      destruct Hm as [_ Hm]. rewrite Hq in Hm.
      destruct Hother as [Hother _]. lra.
    + assert (Hnot : ~ inBucket z l)
        by (rewrite <- matches_spec, Hm; discriminate).
      destruct rest as [|l' rest'].
      * exfalso. apply Hnot. unfold inBucket. rewrite Hrest, Hmin. tauto.
      * destruct Hrest as (q & Hq & Hlt & Hc).
        assert (Hqz : q <= z).
        { destruct (Qlt_le_dec z q) as [Hzq|Hzq]; [|exact Hzq].
          exfalso. apply Hnot. unfold inBucket. rewrite Hq, Hmin. tauto. }
        destruct (IH q Hc Hqz) as (level & Hf & Hin & Hb & Huniq).
        exists level. split; [exact Hf|]. split; [right; exact Hin|].
        split; [exact Hb|].
        intros other [<-|Hin'] Hother; [contradiction|].
        apply Huniq; assumption.
Qed.

(** The fall-back of [getLOD] reads the bucket at the end of the table. *)
Lemma lastLevel_snoc (earlier : list LODLevel) (final : LODLevel) :
  lastLevel (earlier ++ [final]) = Some final.
Proof.
  unfold lastLevel. rewrite length_app. cbn [length].
  replace (length earlier + 1 - 1)%nat with (length earlier) by lia.
  rewrite nth_error_app2 by lia.
  rewrite Nat.sub_diag. reflexivity.
Qed.

Lemma defaultLevels_chained : chained 0 defaultLevels.
Proof.
  unfold defaultLevels; cbn [chained minZoom maxZoom].
  repeat match goal with
         | |- _ /\ _ => split
         | |- exists q, Finite ?x = Finite q /\ _ => exists x
         | |- _ == _ => reflexivity
         | |- _ = _ => reflexivity
         | |- _ < _ => reflexivity
         end.
Qed.

End LODFacts.

(** C6.  For every zoom level [z >= 0], [getLOD] on the default table
    returns the one bucket with [minZoom <= z < maxZoom]; the six default
    buckets leave no gap (each starts where the one before ends, the
    first at 0, and the last is open-ended); and on any table that is not
    empty, when no bucket matches, [getLOD] returns the bucket at the end
    of the table. *)
Theorem getLOD_default_table :
  (forall z, 0 <= z ->
     exists level,
       LODManager.getLOD LODManager.defaultLevels z = Some level /\
       In level LODManager.defaultLevels /\
       LODManager.inBucket z level /\
       forall other, In other LODManager.defaultLevels ->
                     LODManager.inBucket z other -> other = level)
  /\ (length LODManager.defaultLevels = 6%nat /\
      LODManager.chained 0 LODManager.defaultLevels)
  /\ (forall earlier final z,
        (forall level, In level (earlier ++ [final]) ->
                       ~ LODManager.inBucket z level) ->
        LODManager.getLOD (earlier ++ [final]) z = Some final).
Proof.
  split; [|split].
  - intros z Hz.
    destruct (chained_find _ 0 z defaultLevels_chained Hz)
      as (level & Hf & Hrest).
    exists level. unfold LODManager.getLOD. rewrite Hf. split; [reflexivity|exact Hrest].
  - split; [reflexivity | exact defaultLevels_chained].
  - intros earlier final z Hnone. unfold LODManager.getLOD.
    replace (find (LODManager.matches z) (earlier ++ [final]))
      with (@None LODManager.LODLevel).
    + apply lastLevel_snoc.
    + symmetry. apply find_none_iff. intros level Hin.
      apply not_true_iff_false. rewrite matches_spec. apply Hnone, Hin.
Qed.

(** The third scenario of the specification, zoom 1.5, and the fall-back:
    no default bucket contains the zoom level -1, and [getLOD] answers
    with the sixth bucket. *)
Lemma getLOD_default_table_witness :
  ((0 <= 1.5) /\
   exists level,
     LODManager.getLOD LODManager.defaultLevels 1.5 = Some level /\
     In level LODManager.defaultLevels /\
     LODManager.inBucket 1.5 level /\
     forall other, In other LODManager.defaultLevels ->
                   LODManager.inBucket 1.5 other -> other = level)
  /\ (forall level, In level LODManager.defaultLevels ->
                    ~ LODManager.inBucket (-1) level)
  /\ LODManager.getLOD LODManager.defaultLevels (-1)
     = Some (LODManager.mkLODLevel 5 LODManager.Infinity 6 true true 2).
Proof.
  assert (H : 0 <= 1.5) by (vm_compute; discriminate).
  assert (Hnone : forall level, In level LODManager.defaultLevels ->
                                ~ LODManager.inBucket (-1) level).
  { intros level Hin [Hmin _].
    repeat (destruct Hin as [<-|Hin];
            [vm_compute in Hmin; apply Hmin; reflexivity|]).
    destruct Hin. }
  split; [split; [exact H | exact (proj1 getLOD_default_table 1.5 H)]|].
  split; [exact Hnone|].
  exact (proj2 (proj2 getLOD_default_table)
           [ LODManager.mkLODLevel 0 (LODManager.Finite 0.1) 1 false true 0.01;
             LODManager.mkLODLevel 0.1 (LODManager.Finite 0.5) 2 false true 0.05;
             LODManager.mkLODLevel 0.5 (LODManager.Finite 1) 3 true true 0.1;
             LODManager.mkLODLevel 1 (LODManager.Finite 2) 4 true true 0.5;
             LODManager.mkLODLevel 2 (LODManager.Finite 5) 5 true true 1 ]
           (LODManager.mkLODLevel 5 LODManager.Infinity 6 true true 2)
           (-1) Hnone).
Defined.

Example getLOD_scenario :
  option_map (fun l => (LODManager.minZoom l, LODManager.maxZoom l,
                        LODManager.showLabels l))
    (LODManager.getLOD LODManager.defaultLevels 0.05)
  = Some (0, LODManager.Finite 0.1, false)
  /\ option_map (fun l => (LODManager.minZoom l, LODManager.maxZoom l,
                           LODManager.showLabels l))
       (LODManager.getLOD LODManager.defaultLevels 1.5)
     = Some (1, LODManager.Finite 2, true).
Proof. split; vm_compute; reflexivity. Qed.

(** ** Feature angles *)

Section FeatureAngleFacts.

Import FeatureRenderer.

Variable cfg : RenderConfig.
Variable feature : Feature.
Variable genomeLength : Q.

Hypothesis nonzero : ~ genomeLength == 0.

Hypothesis short :
  angleForPosition (feature_end feature) genomeLength
  - angleForPosition (feature_start feature) genomeLength
  < MIN_ANGLE_WIDTH cfg.

(** A short feature is re-centred and widened before the gap is cut. *)
Lemma featureAngles_short :
  let base0 := angleForPosition (feature_start feature) genomeLength in
  let base1 := angleForPosition (feature_end feature) genomeLength in
  let gap :=
    Js.Math_min (MAX_GAP_ANGLE cfg)
      (Js.Math_max (MIN_GAP_ANGLE cfg)
         (MIN_ANGLE_WIDTH cfg * GAP_ANGLE_RATIO cfg)) in
  featureAngles cfg feature genomeLength =
  Some (mkFeatureAngles
    ((base0 + base1) / 2 - MIN_ANGLE_WIDTH cfg / 2)
    ((base0 + base1) / 2 + MIN_ANGLE_WIDTH cfg / 2)
    (MIN_ANGLE_WIDTH cfg)
    gap
    ((base0 + base1) / 2 - MIN_ANGLE_WIDTH cfg / 2 + gap)
    ((base0 + base1) / 2 + MIN_ANGLE_WIDTH cfg / 2 - gap)
    ((base0 + base1) / 2 + MIN_ANGLE_WIDTH cfg / 2 - gap
     - ((base0 + base1) / 2 - MIN_ANGLE_WIDTH cfg / 2 + gap))).
Proof.
  cbv zeta. unfold featureAngles.
  replace (Qeq_bool genomeLength 0) with false.
  2: { symmetry. apply not_true_iff_false. intros E.
       apply Qeq_bool_eq in E. contradiction. }
  change (feature_start feature / genomeLength * Js.Math_PI * 2)
    with (angleForPosition (feature_start feature) genomeLength).
  change (feature_end feature / genomeLength * Js.Math_PI * 2)
    with (angleForPosition (feature_end feature) genomeLength).
  rewrite (proj2 (lt_spec _ _) short).
  reflexivity.
Qed.

Lemma angleWidth_short :
  let gap :=
    Js.Math_min (MAX_GAP_ANGLE cfg)
      (Js.Math_max (MIN_GAP_ANGLE cfg)
         (MIN_ANGLE_WIDTH cfg * GAP_ANGLE_RATIO cfg)) in
  let middle :=
    (angleForPosition (feature_start feature) genomeLength
     + angleForPosition (feature_end feature) genomeLength) / 2 in
  exists a,
    featureAngles cfg feature genomeLength = Some a
    /\ baseEndAngle a - baseStartAngle a == MIN_ANGLE_WIDTH cfg
    /\ (baseStartAngle a + baseEndAngle a) / 2 == middle
    /\ angleWidth a == MIN_ANGLE_WIDTH cfg - 2 * gap
    /\ endAngle a - startAngle a == MIN_ANGLE_WIDTH cfg - 2 * gap
    /\ (startAngle a + endAngle a) / 2 == middle.
Proof.
  cbv zeta. eexists. split; [apply featureAngles_short|].
  cbn [baseStartAngle baseEndAngle startAngle endAngle angleWidth].
  repeat split; field.
Qed.

End FeatureAngleFacts.

(** C4, as the code has it.  Take a genome length other than zero and a
    feature whose base angular span is below [MIN_ANGLE_WIDTH], and let
    [gap] be
    [min(MAX_GAP_ANGLE, max(MIN_GAP_ANGLE, MIN_ANGLE_WIDTH * GAP_ANGLE_RATIO))].
    The span before the gap is cut is exactly [MIN_ANGLE_WIDTH].  What
    [renderCanvasFeature] and [renderSvgFeature] draw is the same; on a
    GC track it is a bar of span [MIN_ANGLE_WIDTH - 2 * gap]; on any
    other track it is nothing when that span is not positive, and
    otherwise a sector of that span between [radius] and
    [radius - trackHeight], or, for an interactive feature that is
    highlighted, a sector 0.02 longer between [radius + 2] and
    [radius - trackHeight - 2]; the pointer over an interactive feature
    shows the longer sector and the pointer leaving it restores what
    was drawn.  Every one of them is centred on the original angular
    midpoint of the feature.  Without an SVG container [renderSvgFeature]
    draws nothing. *)
Theorem short_feature_rendered_span (cfg : RenderConfig)
    (highlightedFeature : option Feature) (feature : Feature) (track : Track)
    (radius trackHeight genomeLength : Q) :
  let base0 := FeatureRenderer.angleForPosition (feature_start feature) genomeLength in
  let base1 := FeatureRenderer.angleForPosition (feature_end feature) genomeLength in
  let middle := (base0 + base1) / 2 in
  let gap :=
    Js.Math_min (MAX_GAP_ANGLE cfg)
      (Js.Math_max (MIN_GAP_ANGLE cfg)
         (MIN_ANGLE_WIDTH cfg * GAP_ANGLE_RATIO cfg)) in
  let span := MIN_ANGLE_WIDTH cfg - 2 * gap in
  let drawn :=
    FeatureRenderer.renderCanvasFeature cfg highlightedFeature feature track
      radius trackHeight genomeLength in
  let marked :=
    FeatureRenderer.isInteractive feature
    && FeatureRenderer.isHighlighted highlightedFeature feature in
  ~ genomeLength == 0 ->
  base1 - base0 < MIN_ANGLE_WIDTH cfg ->
  (exists a,
     FeatureRenderer.featureAngles cfg feature genomeLength = Some a
     /\ FeatureRenderer.baseEndAngle a - FeatureRenderer.baseStartAngle a
        == MIN_ANGLE_WIDTH cfg
     /\ (FeatureRenderer.baseStartAngle a + FeatureRenderer.baseEndAngle a) / 2
        == middle)
  /\ (FeatureRenderer.renderSvgFeature cfg highlightedFeature feature track
        radius trackHeight genomeLength true = drawn
      /\ FeatureRenderer.renderSvgFeature cfg highlightedFeature feature track
           radius trackHeight genomeLength false = FeatureRenderer.Nothing)
  /\ (FeatureRenderer.isGCType (track_type track) = true ->
      exists s e,
        drawn = FeatureRenderer.Bar s e
        /\ e - s == span /\ (s + e) / 2 == middle)
  /\ (FeatureRenderer.isGCType (track_type track) = false -> span <= 0 ->
      drawn = FeatureRenderer.Nothing)
  /\ (FeatureRenderer.isGCType (track_type track) = false -> 0 < span ->
      exists s e,
        (s + e) / 2 == middle
        /\ (if marked
            then drawn = FeatureRenderer.Sector (radius + 2)
                           (radius - trackHeight - 2) s e
                 /\ e - s == span + 0.02
            else drawn = FeatureRenderer.Sector radius (radius - trackHeight) s e
                 /\ e - s == span))
  /\ (exists s e,
        FeatureRenderer.pointerover cfg feature radius trackHeight genomeLength
        = FeatureRenderer.Sector (radius + 2) (radius - trackHeight - 2) s e
        /\ e - s == span + 0.02 /\ (s + e) / 2 == middle)
  /\ (FeatureRenderer.isGCType (track_type track) = false -> 0 < span ->
      FeatureRenderer.isInteractive feature = true ->
      FeatureRenderer.pointerout cfg highlightedFeature feature radius
        trackHeight genomeLength = drawn).
Proof.
  cbv zeta. intros Hlength Hshort.
  destruct (angleWidth_short cfg feature genomeLength Hlength Hshort)
    as (a & Hangles & Hbase & Hbasemid & Hwidth & Hspan & Hmid).
  unfold FeatureRenderer.renderCanvasFeature, FeatureRenderer.renderSvgFeature,
    FeatureRenderer.pointerover, FeatureRenderer.pointerout.
  cbn [negb]. rewrite Hangles.
  split; [|split; [split; reflexivity|split; [|split; [|split; [|split]]]]].
  - exists a. split; [reflexivity|]. split; [exact Hbase | exact Hbasemid].
  - intros Hgc. rewrite Hgc. eexists _, _. split; [reflexivity|].
    split; [exact Hspan | exact Hmid].
  - intros Hgc Hle. rewrite Hgc.
    replace (Js.gt (FeatureRenderer.angleWidth a) 0) with false; [reflexivity|].
    symmetry. apply gt_false. rewrite Hwidth. exact Hle.
  - intros Hgc Hpos. rewrite Hgc.
    replace (Js.gt (FeatureRenderer.angleWidth a) 0) with true
      by (symmetry; apply gt_spec; rewrite Hwidth; exact Hpos).
    destruct (FeatureRenderer.isInteractive feature
              && FeatureRenderer.isHighlighted highlightedFeature feature).
    + eexists _, _. split; [|split; [reflexivity|]].
      * rewrite <- Hmid. field.
      * rewrite <- Hspan. ring.
    + eexists _, _. split; [|split; [reflexivity|]].
      * exact Hmid.
      * exact Hspan.
  - eexists _, _. split; [reflexivity|]. split.
    + rewrite <- Hspan. ring.
    + rewrite <- Hmid. field.
  - intros Hgc Hpos Hinter. rewrite Hgc, Hinter.
    replace (Js.gt (FeatureRenderer.angleWidth a) 0) with true
      by (symmetry; apply gt_spec; rewrite Hwidth; exact Hpos).
    reflexivity.
Qed.

(** The one-base feature [100,100] on a genome of length 10000 with the
    literals of the export path: a sector of span 0.004 around the angle
    of position 100, and one of span 0.024 when it is the highlighted
    feature. *)
Lemma short_feature_rendered_span_witness :
  let cfg := exportConfig in
  let feature := featureAt "g" 100 100 in
  let track := mkTrack "t" "genes" "CDS" true [feature] in
  (~ 10000 == 0)
  /\ FeatureRenderer.angleForPosition 100 10000
     - FeatureRenderer.angleForPosition 100 10000 < MIN_ANGLE_WIDTH cfg
  /\ (exists s e,
        FeatureRenderer.renderCanvasFeature cfg None feature track 200 30 10000
        = FeatureRenderer.Sector 200 (200 - 30) s e
        /\ e - s == 0.004
        /\ (s + e) / 2 == FeatureRenderer.angleForPosition 100 10000)
  /\ (exists s e,
        FeatureRenderer.renderCanvasFeature cfg (Some feature) feature track
          200 30 10000
        = FeatureRenderer.Sector (200 + 2) (200 - 30 - 2) s e
        /\ e - s == 0.024
        /\ (s + e) / 2 == FeatureRenderer.angleForPosition 100 10000).
Proof.
  cbv zeta.
  assert (Hlength : ~ 10000 == 0) by (vm_compute; discriminate).
  assert (H : FeatureRenderer.angleForPosition
                (feature_end (featureAt "g" 100 100)) 10000
              - FeatureRenderer.angleForPosition
                  (feature_start (featureAt "g" 100 100)) 10000
              < MIN_ANGLE_WIDTH exportConfig) by (vm_compute; reflexivity).
  split; [exact Hlength|]. split; [exact H|]. split.
  - destruct (short_feature_rendered_span exportConfig None
                (featureAt "g" 100 100)
                (mkTrack "t" "genes" "CDS" true [featureAt "g" 100 100])
                200 30 10000 Hlength H)
      as (_ & _ & _ & _ & Hdrawn & _).
    destruct (Hdrawn eq_refl ltac:(vm_compute; reflexivity))
      as (s & e & Hmid & Heq & Hspan).
    exists s, e. split; [exact Heq|]. split.
    + rewrite Hspan. vm_compute. reflexivity.
    + rewrite Hmid. vm_compute. reflexivity.
  - destruct (short_feature_rendered_span exportConfig
                (Some (featureAt "g" 100 100)) (featureAt "g" 100 100)
                (mkTrack "t" "genes" "CDS" true [featureAt "g" 100 100])
                200 30 10000 Hlength H)
      as (_ & _ & _ & _ & Hdrawn & _).
    destruct (Hdrawn eq_refl ltac:(vm_compute; reflexivity))
      as (s & e & Hmid & Heq & Hspan).
    exists s, e. split; [exact Heq|]. split.
    + rewrite Hspan. vm_compute. reflexivity.
    + rewrite Hmid. vm_compute. reflexivity.
Defined.

(** C4 as stated fails.  With a minimum angle of 0.005 and gaps between
    0.0005 and 0.002 at ratio 0.05, the one-base feature [100,100] on a
    genome of length 10000 has base span 0, below the minimum, and is
    drawn as a sector of span 0.004, not 0.005; as the highlighted
    feature it is drawn with span 0.024.  With a minimum angle of 0.001
    and the same gaps nothing is drawn for it.  And a window [1,1000] of
    a skew track on a genome of ten million bases, whose base span is
    below the minimum too, is drawn by the merged skew path with that
    base span. *)
Lemma short_feature_span_below_min_width :
  let cfg := exportConfig in
  let feature := featureAt "g" 100 100 in
  let track := mkTrack "t" "genes" "CDS" true [feature] in
  let narrow := mkRenderConfig 15 30 5 0.001 0.0005 0.002 0.05 0.08 in
  let window := featureAt "w" 1 1000 in
  FeatureRenderer.angleForPosition (feature_end feature) 10000
    - FeatureRenderer.angleForPosition (feature_start feature) 10000
    < MIN_ANGLE_WIDTH cfg
  /\ (exists s e,
        FeatureRenderer.renderCanvasFeature cfg None feature track 200 30 10000
        = FeatureRenderer.Sector 200 (200 - 30) s e
        /\ e - s == 0.004 /\ ~ e - s == MIN_ANGLE_WIDTH cfg)
  /\ (exists s e,
        FeatureRenderer.renderCanvasFeature cfg (Some feature) feature track
          200 30 10000
        = FeatureRenderer.Sector (200 + 2) (200 - 30 - 2) s e
        /\ e - s == 0.024 /\ ~ e - s == MIN_ANGLE_WIDTH cfg)
  /\ FeatureRenderer.renderCanvasFeature narrow None feature track 200 30 10000
     = FeatureRenderer.Nothing
  /\ (FeatureRenderer.angleForPosition (feature_end window) 10000000
      - FeatureRenderer.angleForPosition (feature_start window) 10000000
      < MIN_ANGLE_WIDTH cfg
      /\ exists s e,
           FeatureRenderer.renderCanvasMergedGCSkewFeatures [(window, 1)] 10000000
           = [FeatureRenderer.Bar s e]
           /\ e - s
              == FeatureRenderer.angleForPosition (feature_end window) 10000000
                 - FeatureRenderer.angleForPosition (feature_start window) 10000000
           /\ ~ e - s == MIN_ANGLE_WIDTH cfg).
Proof.
  cbv zeta. split; [vm_compute; reflexivity|].
  split; [|split; [|split; [|split]]].
  - eexists _, _. split; [vm_compute; reflexivity|].
    split; [vm_compute; reflexivity | vm_compute; discriminate].
  - eexists _, _. split; [vm_compute; reflexivity|].
    split; [vm_compute; reflexivity | vm_compute; discriminate].
  - vm_compute. reflexivity.
  - vm_compute. reflexivity.
  - eexists _, _. split; [vm_compute; reflexivity|].
    split; [vm_compute; reflexivity | vm_compute; discriminate].
Qed.

(** With genome length 0 nothing is drawn on a track that is not a GC
    track for a feature whose coordinates do not have opposite signs,
    short or not, highlighted or not. *)
Lemma zero_genome_draws_nothing (cfg : RenderConfig)
    (highlightedFeature : option Feature) (feature : Feature) (track : Track)
    (radius trackHeight : Q) :
  FeatureRenderer.isGCType (track_type track) = false ->
  0 <= feature_start feature * feature_end feature ->
  FeatureRenderer.renderCanvasFeature cfg highlightedFeature feature track
    radius trackHeight 0 = FeatureRenderer.Nothing
  /\ FeatureRenderer.renderSvgFeature cfg highlightedFeature feature track
       radius trackHeight 0 true = FeatureRenderer.Nothing.
Proof.
  intros Hgc Hsign.
  unfold FeatureRenderer.renderCanvasFeature, FeatureRenderer.renderSvgFeature,
    FeatureRenderer.atZeroLength.
  cbn [negb]. change (Qeq_bool 0 0) with true. cbv iota. rewrite Hgc.
  replace (Js.lt (feature_start feature * feature_end feature) 0) with false;
    [split; reflexivity|].
  symmetry. apply lt_false. exact Hsign.
Qed.

(** ** Track stacking *)

Section StackingFacts.

Import FeatureRenderer CircularRenderer.

Lemma inject_Z_S (k : nat) :
  inject_Z (Z.of_nat (S k)) == inject_Z (Z.of_nat k) + 1.
Proof.
  rewrite Nat2Z.inj_succ. unfold Z.succ. rewrite inject_Z_plus. reflexivity.
Qed.

Lemma stackedFrom_nil (r step h : Q) : stackedFrom r step h [].
Proof. intros [|k] band H; discriminate H. Qed.

Lemma stackedFrom_cons (r step h : Q) (b : Band) (bands : list Band) :
  band_radius b == r -> band_height b = h ->
  stackedFrom (r - step) step h bands ->
  stackedFrom r step h (b :: bands).
Proof.
  intros Hr Hh Hrest [|k] band Hk.
  - injection Hk as <-. split; [|exact Hh]. rewrite Hr. simpl. ring.
  - destruct (Hrest k band Hk) as [Hrad Hhei]. split; [|exact Hhei].
    rewrite Hrad, inject_Z_S. ring.
Qed.

Lemma stackedFrom_snoc (r step h : Q) (b : Band) (bands : list Band) :
  stackedFrom r step h bands ->
  band_radius b == r - inject_Z (Z.of_nat (length bands)) * step ->
  band_height b = h ->
  stackedFrom r step h (bands ++ [b]).
Proof.
  intros Hbands Hr Hh k band Hk.
  destruct (Nat.lt_ge_cases k (length bands)) as [Hlt|Hge].
  - rewrite nth_error_app1 in Hk by exact Hlt. apply Hbands, Hk.
  - rewrite nth_error_app2 in Hk by exact Hge.
    destruct (k - length bands)%nat as [|n] eqn:Hd.
    + injection Hk as <-. replace k with (length bands) by lia. auto.
    + destruct n; discriminate Hk.
Qed.

(** The loop over the non-GC tracks: one band per track, in order, each
    one step further in, and the radius it returns. *)
Lemma renderCanvasNonGCTracks_stack (tracks : list Track) (r h s : Q) :
  let result := renderCanvasNonGCTracks tracks r h s in
  map band_type (fst result) = map (fun t => Some (track_type t)) tracks
  /\ stackedFrom r (h + s) h (fst result)
  /\ snd result == r - inject_Z (Z.of_nat (length tracks)) * (h + s).
Proof.
  cbv zeta. revert r; induction tracks as [|t rest IH]; intros r.
  - simpl. split; [reflexivity|]. split; [apply stackedFrom_nil | ring].
  - cbn [renderCanvasNonGCTracks].
    destruct (IH (r - (h + s))) as (Hty & Hst & Hr).
    destruct (renderCanvasNonGCTracks rest (r - (h + s)) h s) as [bands final].
    cbn [fst snd] in *. split; [|split].
    + cbn [map band_type]. rewrite Hty. reflexivity.
    + apply stackedFrom_cons; [reflexivity | reflexivity | exact Hst].
    + rewrite Hr. cbn [length]. rewrite inject_Z_S. ring.
Qed.

Lemma filter_all {A : Type} (p : A -> bool) (l : list A) :
  Forall (fun x => p x = true) l -> List.filter p l = l.
Proof.
  induction 1 as [|x l Hx Hl IH]; simpl; [reflexivity|].
  rewrite Hx, IH. reflexivity.
Qed.

(** On a list of visible tracks, [find] followed by the visibility test
    says whether a track of that type is present. *)
Lemma foundVisible_find (name : string) (tracks : list Track) :
  Forall (fun t => track_visible t = true) tracks ->
  foundVisible (find (isType name) tracks) = existsb (isType name) tracks.
Proof.
  induction 1 as [|t l Ht Hl IH]; simpl; [reflexivity|].
  destruct (isType name t); simpl; [exact Ht | exact IH].
Qed.

Lemma find_isType (name : string) (tracks : list Track) (t : Track) :
  find (isType name) tracks = Some t -> track_type t = name.
Proof.
  intros H. apply find_some in H. destruct H as [_ H].
  apply String.eqb_eq. exact H.
Qed.

Lemma nonGC_filter (tracks : list Track) :
  List.filter (fun track => negb (isType "gc_content" track)
                       && negb (isType "gc_skew_plus" track)
                       && negb (isType "gc_skew_minus" track)) tracks
  = List.filter isNonGC tracks.
Proof.
  apply filter_ext. intros t. unfold isNonGC, isGCType, isType.
  rewrite !negb_orb. reflexivity.
Qed.

(** The bands of [renderCanvasFeatures] in the terms of the code: the
    visible non-GC tracks, then gc_content if the first such track is
    visible, then one GC-skew band if the first plus or the first minus
    track is visible; each band one step further in than the one before. *)
Lemma renderCanvasFeatures_stack (cfg : RenderConfig) (radius : Q)
    (genome : Genome) :
  let tracks := genome_tracks genome in
  let visibleNonGC := List.filter track_visible (List.filter isNonGC tracks) in
  let gcC := foundVisible (find (isType "gc_content") tracks) in
  let gcP := foundVisible (find (isType "gc_skew_plus") tracks) in
  let gcM := foundVisible (find (isType "gc_skew_minus") tracks) in
  let h := calculateTrackHeight cfg radius (length visibleNonGC) gcC (gcP || gcM) in
  let bands := renderCanvasFeatures cfg radius (Some genome) in
  stackedFrom radius (h + TRACK_SPACING cfg) h bands
  /\ map band_type bands =
     map (fun t => Some (track_type t)) visibleNonGC
     ++ (if gcC then [Some "gc_content"%string] else [])
     ++ (if gcP || gcM
         then [Some (if gcP then "gc_skew_plus" else "gc_skew_minus")%string]
         else []).
Proof.
  cbv zeta. unfold renderCanvasFeatures. rewrite nonGC_filter.
  set (tracks := genome_tracks genome).
  set (visibleNonGC := List.filter track_visible (List.filter isNonGC tracks)).
  set (gcC := foundVisible (find (isType "gc_content") tracks)).
  set (gcP := foundVisible (find (isType "gc_skew_plus") tracks)).
  set (gcM := foundVisible (find (isType "gc_skew_minus") tracks)).
  set (h := calculateTrackHeight cfg radius (length visibleNonGC) gcC (gcP || gcM)).
  set (s := TRACK_SPACING cfg).
  destruct (renderCanvasNonGCTracks_stack visibleNonGC radius h s)
    as (Hty & Hst & Hr).
  destruct (renderCanvasNonGCTracks visibleNonGC radius h s) as [bands r1].
  cbn [fst snd] in Hty, Hst, Hr.
  assert (Hlen : length bands = length visibleNonGC).
  { rewrite <- (length_map band_type bands), Hty, length_map. reflexivity. }
  (* the gc_content band *)
  assert (Hgc : exists bands2 r2,
    match find (isType "gc_content") tracks with
    | Some track =>
        if gcC then
          let '(band, r) := renderCanvasGCTrack track r1 h s in
          (bands ++ [band], r)
        else (bands, r1)
    | None => (bands, r1)
    end = (bands2, r2)
    /\ stackedFrom radius (h + s) h bands2
    /\ map band_type bands2 =
       map (fun t => Some (track_type t)) visibleNonGC
       ++ (if gcC then [Some "gc_content"%string] else [])
    /\ r2 == radius - inject_Z (Z.of_nat (length bands2)) * (h + s)).
  { subst gcC. destruct (find (isType "gc_content") tracks) as [t|] eqn:Hfind;
      cbn [foundVisible].
    - destruct (track_visible t).
      + unfold renderCanvasGCTrack.
        eexists _, _. split; [reflexivity|]. split; [|split].
        * apply stackedFrom_snoc; [exact Hst | | reflexivity].
          cbn [band_radius]. rewrite Hr, Hlen. reflexivity.
        * rewrite map_app, Hty. cbn [map band_type].
          rewrite (find_isType _ _ _ Hfind). reflexivity.
        * rewrite length_app. cbn [length]. rewrite Hr, Hlen.
          rewrite Nat.add_1_r, inject_Z_S. ring.
      + exists bands, r1. split; [reflexivity|]. split; [exact Hst|].
        split; [rewrite app_nil_r; exact Hty | rewrite Hlen; exact Hr].
    - exists bands, r1. split; [reflexivity|]. split; [exact Hst|].
      split; [rewrite app_nil_r; exact Hty | rewrite Hlen; exact Hr]. }
  destruct Hgc as (bands2 & r2 & -> & Hst2 & Hty2 & Hr2).
  (* the merged GC-skew band *)
  destruct (gcP || gcM) eqn:Hskew.
  - unfold renderCanvasGCSkewTracks. split.
    + apply stackedFrom_snoc; [exact Hst2 | exact Hr2 | reflexivity].
    + rewrite map_app, Hty2, <- app_assoc. cbn [map band_type].
      do 3 f_equal. subst gcP gcM.
      destruct (find (isType "gc_skew_plus") tracks) as [p|] eqn:Hp;
        cbn [foundVisible] in *.
      * destruct (track_visible p); cbn [option_map].
        -- rewrite (find_isType _ _ _ Hp). reflexivity.
        -- destruct (find (isType "gc_skew_minus") tracks) as [m|] eqn:Hm;
             cbn [foundVisible option_map] in *; [|discriminate].
           rewrite (find_isType _ _ _ Hm). reflexivity.
      * destruct (find (isType "gc_skew_minus") tracks) as [m|] eqn:Hm;
          cbn [foundVisible option_map] in *; [|discriminate].
        rewrite (find_isType _ _ _ Hm). reflexivity.
  - split; [exact Hst2|]. rewrite Hty2, app_nil_r. reflexivity.
Qed.

Lemma existsb_isGCSkew (tracks : list Track) :
  existsb isGCSkew tracks =
  existsb (isType "gc_skew_plus") tracks || existsb (isType "gc_skew_minus") tracks.
Proof.
  induction tracks as [|t l IH]; simpl; [reflexivity|].
  rewrite IH. unfold isGCSkew.
  destruct (isType "gc_skew_plus" t), (isType "gc_skew_minus" t),
    (existsb (isType "gc_skew_plus") l); reflexivity.
Qed.

End StackingFacts.

(** C5.  For a list of visible tracks, the band height is
    [clamp(outerRadius / (count + 2), MIN_TRACK_HEIGHT, MAX_TRACK_HEIGHT)]
    with [count] the number of non-GC tracks, plus one if gc_content is
    among the tracks, plus one if a GC-skew track is; the bands are drawn
    in the order non-GC tracks (in list order), gc_content, merged GC
    skew; band [k] has outer radius [outerRadius - k * (trackHeight +
    TRACK_SPACING)], so that successive radii decrease by exactly
    [trackHeight + TRACK_SPACING]. *)
Theorem track_stacking (cfg : RenderConfig) (outerRadius : Q)
    (length_ : Q) (tracks : list Track) :
  Forall (fun t => track_visible t = true) tracks ->
  let count := CircularRenderer.bandCount tracks in
  let trackHeight :=
    CircularRenderer.clamp (outerRadius / (inject_Z (Z.of_nat count) + 2))
      (MIN_TRACK_HEIGHT cfg) (MAX_TRACK_HEIGHT cfg) in
  let bands :=
    CircularRenderer.renderCanvasFeatures cfg outerRadius
      (Some (CircularRenderer.mkGenome length_ tracks)) in
  FeatureRenderer.calculateTrackHeight cfg outerRadius
    (length (List.filter CircularRenderer.isNonGC tracks))
    (existsb (CircularRenderer.isType "gc_content") tracks)
    (existsb CircularRenderer.isGCSkew tracks) = trackHeight
  /\ length bands = count
  /\ map FeatureRenderer.band_type bands = CircularRenderer.bandOrder tracks
  /\ CircularRenderer.stackedFrom outerRadius
       (trackHeight + TRACK_SPACING cfg) trackHeight bands.
Proof.
  intros Hvis. cbv zeta.
  pose proof (renderCanvasFeatures_stack cfg outerRadius
                (CircularRenderer.mkGenome length_ tracks)) as H.
  cbv zeta in H. cbn [CircularRenderer.genome_tracks] in H.
  rewrite !(foundVisible_find _ tracks Hvis) in H.
  rewrite (filter_all track_visible) in H.
  2:{ apply List.Forall_forall. intros t Ht. apply filter_In in Ht.
      apply (proj1 (List.Forall_forall _ _) Hvis). tauto. }
  rewrite <- existsb_isGCSkew in H.
  assert (Hh : FeatureRenderer.calculateTrackHeight cfg outerRadius
                 (length (List.filter CircularRenderer.isNonGC tracks))
                 (existsb (CircularRenderer.isType "gc_content") tracks)
                 (existsb CircularRenderer.isGCSkew tracks)
               = CircularRenderer.clamp
                   (outerRadius /
                    (inject_Z (Z.of_nat (CircularRenderer.bandCount tracks)) + 2))
                   (MIN_TRACK_HEIGHT cfg) (MAX_TRACK_HEIGHT cfg)).
  { unfold FeatureRenderer.calculateTrackHeight, CircularRenderer.clamp,
      CircularRenderer.bandCount, Js.Math_min, Js.Math_max.
    do 5 f_equal.
    destruct (existsb (CircularRenderer.isType "gc_content") tracks),
      (existsb CircularRenderer.isGCSkew tracks); lia. }
  rewrite Hh in H. destruct H as [Hst Hty].
  assert (Horder : map FeatureRenderer.band_type
            (CircularRenderer.renderCanvasFeatures cfg outerRadius
               (Some (CircularRenderer.mkGenome length_ tracks)))
          = CircularRenderer.bandOrder tracks).
  { rewrite Hty. unfold CircularRenderer.bandOrder. reflexivity. }
  split; [exact Hh|]. split; [|split; [exact Horder | exact Hst]].
  rewrite <- (length_map FeatureRenderer.band_type), Horder.
  unfold CircularRenderer.bandOrder, CircularRenderer.bandCount.
  rewrite !length_app, length_map.
  destruct (existsb (CircularRenderer.isType "gc_content") tracks),
    (existsb CircularRenderer.isGCSkew tracks); simpl; lia.
Qed.

Lemma track_stacking_witness :
  let tracks :=
    [ mkTrack "t1" "genes" "CDS" true [];
      mkTrack "t2" "GC content" "gc_content" true [];
      mkTrack "t3" "tRNA" "tRNA" true [];
      mkTrack "t4" "GC skew-" "gc_skew_minus" true [] ] in
  let bands :=
    CircularRenderer.renderCanvasFeatures exportConfig 200
      (Some (CircularRenderer.mkGenome 10000 tracks)) in
  Forall (fun t => track_visible t = true) tracks
  /\ length bands = 4%nat
  /\ map FeatureRenderer.band_type bands =
     [Some "CDS"; Some "tRNA"; Some "gc_content"; Some "gc_skew_minus"]%string
  /\ CircularRenderer.stackedFrom 200 (30 + 5) 30 bands.
Proof.
  cbv zeta.
  assert (Hvis : Forall (fun t => track_visible t = true)
            [ mkTrack "t1" "genes" "CDS" true [];
              mkTrack "t2" "GC content" "gc_content" true [];
              mkTrack "t3" "tRNA" "tRNA" true [];
              mkTrack "t4" "GC skew-" "gc_skew_minus" true [] ])
    by (repeat constructor).
  split; [exact Hvis|].
  destruct (track_stacking exportConfig 200 10000 _ Hvis)
    as (_ & Hlen & Horder & Hstack).
  split; [exact Hlen|]. split; [exact Horder|].
  exact Hstack.
Defined.

(** ** Zoom and pan *)

Section ZoomPanFacts.

Import ZoomPanController.

Lemma nth_error_eachSceneGroup (f : SvgGroup -> SvgGroup) (svg : Svg)
    (i : nat) :
  nth_error (eachSceneGroup f svg) i =
  option_map (fun g => if isSceneGroup g then f g else g) (nth_error svg i).
Proof. unfold eachSceneGroup. apply nth_error_map. Qed.

Lemma groupPosition_matchTranslate (g : SvgGroup) (pos : Point) :
  groupPosition g = Some pos ->
  matchTranslate (group_transform g) = Some (point_x pos, point_y pos).
Proof.
  unfold groupPosition.
  destruct (matchTranslate (group_transform g)) as [[x y]|]; [|discriminate].
  intros [= <-]. reflexivity.
Qed.

Lemma legend_not_scene (g : SvgGroup) :
  group_id g = "legendContainer"%string -> isSceneGroup g = false.
Proof. unfold isSceneGroup. intros ->. reflexivity. Qed.

End ZoomPanFacts.

(** C8.  On the canvas, [setPanOffset] moves the circle container from
    [(px,py)] to [(px+dx, py+dy)] and leaves every other child of the
    stage, the legend container among them, as it was.  On SVG, every
    scene group at [(px,py)] ends at [(px+dx, py+dy)], and every other
    group, the legend group among them, keeps its transform. *)
Theorem setPanOffset_adds (offset : ZoomPanController.Point) :
  (forall circle others svg,
     exists moved,
       ZoomPanController.setPanOffset offset (Some (circle :: others)) svg "canvas"
       = (Some (moved :: others), svg)
       /\ ZoomPanController.position moved =
          ZoomPanController.mkPoint
            (ZoomPanController.point_x (ZoomPanController.position circle)
             + ZoomPanController.point_x offset)
            (ZoomPanController.point_y (ZoomPanController.position circle)
             + ZoomPanController.point_y offset)
       /\ ZoomPanController.scale moved = ZoomPanController.scale circle)
  /\ (forall stage svg,
        exists svg',
          ZoomPanController.setPanOffset offset stage (Some svg) "svg"
          = (stage, Some svg')
          /\ length svg' = length svg
          /\ forall i g, nth_error svg i = Some g ->
               exists g',
                 nth_error svg' i = Some g'
                 /\ ZoomPanController.group_id g' = ZoomPanController.group_id g
                 /\ (ZoomPanController.isSceneGroup g = true ->
                     forall pos, ZoomPanController.groupPosition g = Some pos ->
                       ZoomPanController.groupPosition g' =
                       Some (ZoomPanController.mkPoint
                               (ZoomPanController.point_x pos
                                + ZoomPanController.point_x offset)
                               (ZoomPanController.point_y pos
                                + ZoomPanController.point_y offset)))
                 /\ (ZoomPanController.isSceneGroup g = false -> g' = g)
                 /\ (ZoomPanController.group_id g = "legendContainer"%string ->
                     g' = g)).
Proof.
  split.
  - intros circle others svg. eexists. split; [reflexivity|].
    split; reflexivity.
  - intros stage svg. eexists. split; [reflexivity|].
    split; [unfold ZoomPanController.eachSceneGroup; apply length_map|].
    intros i g Hg. rewrite nth_error_eachSceneGroup, Hg. cbn [option_map].
    eexists. split; [reflexivity|].
    destruct (ZoomPanController.isSceneGroup g) eqn:Hscene.
    + split; [|split; [|split]].
      * destruct (ZoomPanController.matchTranslate _) as [[x y]|]; reflexivity.
      * intros _ pos Hpos.
        rewrite (groupPosition_matchTranslate g pos Hpos). reflexivity.
      * discriminate.
      * intros Hid. rewrite (legend_not_scene g Hid) in Hscene. discriminate.
    + split; [reflexivity|]. split; [discriminate|].
      split; reflexivity.
Qed.

Lemma setPanOffset_adds_witness :
  let legend := ZoomPanController.mkSvgGroup "legendContainer"
                  (Some (ZoomPanController.Translate 7 9)) in
  let scene := ZoomPanController.mkSvgGroup "featureContainer"
                 (Some (ZoomPanController.TranslateScale 10 20 2)) in
  exists svg',
    ZoomPanController.setPanOffset (ZoomPanController.mkPoint 3 4) None
      (Some [scene; legend]) "svg" = (None, Some svg')
    /\ option_map ZoomPanController.groupPosition (nth_error svg' 0)
       = Some (Some (ZoomPanController.mkPoint (10 + 3) (20 + 4)))
    /\ nth_error svg' 1 = Some legend.
Proof.
  cbv zeta.
  destruct (proj2 (setPanOffset_adds (ZoomPanController.mkPoint 3 4)) None
              [ ZoomPanController.mkSvgGroup "featureContainer"
                  (Some (ZoomPanController.TranslateScale 10 20 2));
                ZoomPanController.mkSvgGroup "legendContainer"
                  (Some (ZoomPanController.Translate 7 9)) ])
    as (svg' & Heq & _ & Hgroups).
  exists svg'. split; [exact Heq|]. split.
  - destruct (Hgroups 0%nat _ eq_refl) as (g' & Hn & _ & Hpos & _).
    rewrite Hn. cbn [option_map].
    rewrite (Hpos eq_refl _ eq_refl). reflexivity.
  - destruct (Hgroups 1%nat _ eq_refl) as (g' & Hn & _ & _ & _ & Hleg).
    rewrite Hn, (Hleg eq_refl). reflexivity.
Defined.

(** C3, as the code has it.  Take a target zoom level other than zero
    and a controller whose current zoom is not zero, and let the scale
    the scene group itself is drawn at be the zoom level the controller
    holds.  Then point-anchored zoom keeps the world coordinate under
    the anchor, computed before and after from the position and scale
    of the group itself: on the canvas for the circle container, on SVG
    for every scene group; after the call the group is drawn at the
    target level. *)
Theorem zoom_keeps_anchor (this : ZoomPanController.t) (level : Q)
    (p : ZoomPanController.Point) :
  ~ level == 0 ->
  ~ ZoomPanController.zoomLevel this == 0 ->
  (forall circle others,
     ZoomPanController.samePoint (ZoomPanController.scale circle)
       (ZoomPanController.mkPoint (ZoomPanController.zoomLevel this)
                                  (ZoomPanController.zoomLevel this)) ->
     exists moved,
       ZoomPanController.setCanvasZoomLevel this level (Some p)
         (Some (circle :: others))
       = (ZoomPanController.withZoomLevel this level, Some (moved :: others))
       /\ ZoomPanController.scale moved = ZoomPanController.mkPoint level level
       /\ ZoomPanController.samePoint
            (ZoomPanController.worldUnderContainer p moved)
            (ZoomPanController.worldUnderContainer p circle))
  /\ (forall svg,
        exists svg',
          ZoomPanController.setSvgZoomLevel this level (Some p) (Some svg)
          = (ZoomPanController.withZoomLevel this level, Some svg')
          /\ forall i g s before,
               nth_error svg i = Some g ->
               ZoomPanController.isSceneGroup g = true ->
               ZoomPanController.groupScale g = Some s ->
               s == ZoomPanController.zoomLevel this ->
               ZoomPanController.worldUnderGroup p g = Some before ->
               exists g' after,
                 nth_error svg' i = Some g'
                 /\ ZoomPanController.groupScale g' = Some level
                 /\ ZoomPanController.worldUnderGroup p g' = Some after
                 /\ ZoomPanController.samePoint after before).
Proof.
  intros Hlevel Hzoom. split.
  - intros circle others [Hsx Hsy].
    cbn [ZoomPanController.point_x ZoomPanController.point_y] in Hsx, Hsy.
    eexists. split; [reflexivity|].
    split; [reflexivity|].
    unfold ZoomPanController.samePoint, ZoomPanController.worldUnderContainer.
    cbn [ZoomPanController.position ZoomPanController.scale
         ZoomPanController.point_x ZoomPanController.point_y].
    rewrite Hsx, Hsy.
    split; field; split; assumption.
  - intros svg. eexists. split; [reflexivity|].
    intros i g s before Hg Hscene Hscale Hsync Hbefore.
    unfold ZoomPanController.worldUnderGroup in Hbefore.
    destruct (ZoomPanController.groupPosition g) as [pos|] eqn:Hpos;
      [|discriminate].
    rewrite Hscale in Hbefore. injection Hbefore as <-.
    rewrite nth_error_eachSceneGroup, Hg. cbn [option_map]. rewrite Hscene.
    rewrite (groupPosition_matchTranslate g pos Hpos).
    eexists _, _. split; [reflexivity|]. split; [reflexivity|].
    split; [reflexivity|].
    unfold ZoomPanController.samePoint, ZoomPanController.worldUnder.
    cbn [ZoomPanController.point_x ZoomPanController.point_y].
    rewrite Hsync.
    split; field; split; assumption.
Qed.

(** The fourth scenario of the specification on the canvas, zoom from 1
    to 2 anchored at (100,100); and on SVG a zoom from 2 to 4 anchored
    at (300,300) of a feature group at [translate(-100,-100) scale(2)],
    where the world point (200,200) stays under the anchor. *)
Lemma zoom_keeps_anchor_witness :
  let this := ZoomPanController.mk 400 300 800 600 1 in
  let p := ZoomPanController.mkPoint 100 100 in
  let circle :=
    ZoomPanController.mkContainer (ZoomPanController.mkPoint 0 0)
      (ZoomPanController.mkPoint 1 1) in
  let zoomed := ZoomPanController.mk 400 300 800 600 2 in
  let q := ZoomPanController.mkPoint 300 300 in
  let group :=
    ZoomPanController.mkSvgGroup "featureContainer"
      (Some (ZoomPanController.TranslateScale (-100) (-100) 2)) in
  (~ 2 == 0 /\ ~ ZoomPanController.zoomLevel this == 0 /\
   exists moved,
     ZoomPanController.setCanvasZoomLevel this 2 (Some p) (Some [circle])
     = (ZoomPanController.withZoomLevel this 2, Some [moved])
     /\ ZoomPanController.samePoint
          (ZoomPanController.worldUnderContainer p moved)
          (ZoomPanController.mkPoint 100 100))
  /\ (~ 4 == 0 /\ ~ ZoomPanController.zoomLevel zoomed == 0 /\
      exists svg' g' after,
        ZoomPanController.setSvgZoomLevel zoomed 4 (Some q) (Some [group])
        = (ZoomPanController.withZoomLevel zoomed 4, Some svg')
        /\ nth_error svg' 0 = Some g'
        /\ ZoomPanController.groupScale g' = Some 4
        /\ ZoomPanController.worldUnderGroup q g' = Some after
        /\ ZoomPanController.samePoint after
             (ZoomPanController.mkPoint 200 200)).
Proof.
  cbv zeta.
  assert (H2 : ~ 2 == 0) by (vm_compute; discriminate).
  assert (H4 : ~ 4 == 0) by (vm_compute; discriminate).
  assert (H1 : ~ ZoomPanController.zoomLevel
                   (ZoomPanController.mk 400 300 800 600 1) == 0)
    by (vm_compute; discriminate).
  assert (H2' : ~ ZoomPanController.zoomLevel
                    (ZoomPanController.mk 400 300 800 600 2) == 0)
    by (vm_compute; discriminate).
  split.
  - split; [exact H2|]. split; [exact H1|].
    destruct (proj1 (zoom_keeps_anchor (ZoomPanController.mk 400 300 800 600 1) 2
                       (ZoomPanController.mkPoint 100 100) H2 H1)
                (ZoomPanController.mkContainer (ZoomPanController.mkPoint 0 0)
                   (ZoomPanController.mkPoint 1 1)) [])
      as (moved & Heq & _ & Hx & Hy).
    { split; reflexivity. }
    exists moved. split; [exact Heq|].
    split; [rewrite Hx | rewrite Hy]; vm_compute; reflexivity.
  - split; [exact H4|]. split; [exact H2'|].
    destruct (proj2 (zoom_keeps_anchor (ZoomPanController.mk 400 300 800 600 2) 4
                       (ZoomPanController.mkPoint 300 300) H4 H2')
                [ZoomPanController.mkSvgGroup "featureContainer"
                   (Some (ZoomPanController.TranslateScale (-100) (-100) 2))])
      as (svg' & Heq & Hgroups).
    destruct (Hgroups 0%nat _ 2 _ eq_refl eq_refl eq_refl (Qeq_refl _) eq_refl)
      as (g' & after & Hnth & Hscale & Hafter & Hx & Hy).
    exists svg', g', after. split; [exact Heq|]. split; [exact Hnth|].
    split; [exact Hscale|]. split; [exact Hafter|].
    split; [rewrite Hx | rewrite Hy]; vm_compute; reflexivity.
Defined.

(** C3 as stated fails in two ways.

    For the target level 0: from zoom 1 with the circle container at the
    origin and the anchor at (100,100), the world point under the anchor
    is (100,100) before the call; the call puts the container at the
    anchor with scale 0, and the quotient [(p - position) / 0] no longer
    gives (100,100).

    For a group whose own scale is not the zoom level of the controller:
    on SVG, after a zoom to 2 anchored at (100,100) and a pan by (10,0),
    the feature group is at [translate(-90,-100)] without a scale while
    the controller holds the zoom level 2; the world point under
    (300,300) is (390,400); a zoom to 4 anchored at (300,300) leaves the
    group at [translate(-480,-500) scale(4)], and the world point under
    (300,300) is (195,200). *)
Lemma zoom_loses_anchor :
  (let this := ZoomPanController.mk 400 300 800 600 1 in
   let p := ZoomPanController.mkPoint 100 100 in
   let circle :=
     ZoomPanController.mkContainer (ZoomPanController.mkPoint 0 0)
       (ZoomPanController.mkPoint 1 1) in
   let after :=
     ZoomPanController.setCanvasZoomLevel this 0 (Some p) (Some [circle]) in
   ~ ZoomPanController.zoomLevel this == 0
   /\ ZoomPanController.worldUnderContainer p circle
      = ZoomPanController.mkPoint ((100 - 0) / 1) ((100 - 0) / 1)
   /\ exists moved,
        snd after = Some [moved]
        /\ ZoomPanController.scale moved = ZoomPanController.mkPoint 0 0
        /\ ~ ZoomPanController.samePoint
               (ZoomPanController.worldUnderContainer p moved)
               (ZoomPanController.worldUnderContainer p circle))
  /\ (let fresh := ZoomPanController.mk 400 300 800 600 1 in
      let group := ZoomPanController.mkSvgGroup "featureContainer" None in
      let legend := ZoomPanController.mkSvgGroup "legendContainer" None in
      let first :=
        ZoomPanController.setSvgZoomLevel fresh 2
          (Some (ZoomPanController.mkPoint 100 100)) (Some [group; legend]) in
      let panned :=
        ZoomPanController.setPanOffset (ZoomPanController.mkPoint 10 0) None
          (snd first) "svg" in
      let q := ZoomPanController.mkPoint 300 300 in
      let second :=
        ZoomPanController.setSvgZoomLevel (fst first) 4 (Some q) (snd panned) in
      exists g g' before after,
        snd panned = Some [g; legend]
        /\ snd second = Some [g'; legend]
        /\ ~ ZoomPanController.zoomLevel (fst first) == 0
        /\ ZoomPanController.group_transform g
           = Some (ZoomPanController.Translate (100 - (100 - 0) * (2 / 1) + 10)
                                               (100 - (100 - 0) * (2 / 1) + 0))
        /\ ZoomPanController.worldUnderGroup q g = Some before
        /\ ZoomPanController.samePoint before (ZoomPanController.mkPoint 390 400)
        /\ ZoomPanController.groupScale g' = Some 4
        /\ ZoomPanController.worldUnderGroup q g' = Some after
        /\ ZoomPanController.samePoint after (ZoomPanController.mkPoint 195 200)
        /\ ~ ZoomPanController.samePoint after before).
Proof.
  split.
  - cbv zeta. split; [vm_compute; discriminate|].
    split; [reflexivity|].
    eexists. split; [reflexivity|]. split; [reflexivity|].
    intros [Hx _]. vm_compute in Hx. discriminate Hx.
  - cbv zeta. eexists _, _, _, _.
    split; [reflexivity|]. split; [reflexivity|].
    split; [vm_compute; discriminate|].
    split; [reflexivity|].
    split; [reflexivity|].
    split; [split; vm_compute; reflexivity|].
    split; [reflexivity|].
    split; [reflexivity|].
    split; [split; vm_compute; reflexivity|].
    intros [Hx _]. vm_compute in Hx. discriminate Hx.
Qed.

(** ** Arc paths *)

Section ArcPathFacts.

Import Utils.

Lemma string_app_assoc (a b c : string) :
  ((a ++ b) ++ c = a ++ (b ++ c))%string.
Proof.
  induction a as [|ch a IH]; [reflexivity|].
  change (String ch ((a ++ b) ++ c) = String ch (a ++ (b ++ c)))%string.
  f_equal. exact IH.
Qed.

Lemma largeArcFlag_text `{Double.Runtime} (startAngle endAngle : float) :
  Double.toString (UtilsDouble.largeArcFlag startAngle endAngle)
  = UtilsDouble.flagText
      (PrimFloat.ltb Double.Math_PI (PrimFloat.sub endAngle startAngle)).
Proof.
  unfold UtilsDouble.largeArcFlag, UtilsDouble.flagText, Double.gt.
  destruct (PrimFloat.ltb Double.Math_PI (PrimFloat.sub endAngle startAngle));
    [apply Double.toString_1 | apply Double.toString_0].
Qed.

(** The double [Math.PI] of [Double] denotes the rational [Math.PI] of
    [Js]. *)
Lemma Math_PI_denotes : Double.toQ Double.Math_PI = Some Js.Math_PI.
Proof. vm_compute. reflexivity. Qed.

End ArcPathFacts.

(** C7.  For every centre, radii and angles, all of them doubles,
    [createArcPath] emits the text of the grammar
    [M x1 y1 A rx ry 0 {0|1} 1 x2 y2 L x3 y3 A rx ry 0 {0|1} 0 x4 y4 Z]
    with [rx = ry = outerRadius] in the first arc and [innerRadius] in
    the second, and in both arcs the large-arc flag 1 when
    [endAngle - startAngle > Math.PI] holds of the doubles (the
    difference rounded, the comparison false on NaN) and 0 otherwise. *)
Theorem createArcPath_grammar `{Double.Runtime}
    (cx cy outerRadius innerRadius startAngle endAngle : float) :
  let pi := 0x1.921fb54442d18p+1%float in
  let large := PrimFloat.ltb pi (PrimFloat.sub endAngle startAngle) in
  UtilsDouble.createArcPath cx cy outerRadius innerRadius startAngle endAngle
  = UtilsDouble.arcPathText
      (UtilsDouble.mkArcPath
         (cx + Double.Math_cos startAngle * outerRadius)%float
         (cy + Double.Math_sin startAngle * outerRadius)%float
         outerRadius outerRadius large
         (cx + Double.Math_cos endAngle * outerRadius)%float
         (cy + Double.Math_sin endAngle * outerRadius)%float
         (cx + Double.Math_cos endAngle * innerRadius)%float
         (cy + Double.Math_sin endAngle * innerRadius)%float
         innerRadius innerRadius large
         (cx + Double.Math_cos startAngle * innerRadius)%float
         (cy + Double.Math_sin startAngle * innerRadius)%float).
Proof.
  cbv zeta. unfold UtilsDouble.createArcPath, UtilsDouble.arcPathText.
  rewrite !largeArcFlag_text.
  cbn [String.concat UtilsDouble.arc_x1 UtilsDouble.arc_y1
       UtilsDouble.arc_rx1 UtilsDouble.arc_ry1 UtilsDouble.arc_large1
       UtilsDouble.arc_x2 UtilsDouble.arc_y2 UtilsDouble.arc_x3
       UtilsDouble.arc_y3 UtilsDouble.arc_rx2 UtilsDouble.arc_ry2
       UtilsDouble.arc_large2 UtilsDouble.arc_x4 UtilsDouble.arc_y4].
  rewrite !string_app_assoc. reflexivity.
Qed.

(** For the angles 0.1 and [0.1 + Math.PI] the difference of the two
    doubles rounds to [Math.PI] itself, which is not greater than
    [Math.PI]: both arcs carry the flag 0. *)
Lemma createArcPath_grammar_witness :
  UtilsDouble.createArcPath 0 0 1 0.5 0.1 (0.1 + Double.Math_PI)
  = UtilsDouble.arcPathText
      (UtilsDouble.mkArcPath
         (0 + Double.Math_cos 0.1 * 1)%float
         (0 + Double.Math_sin 0.1 * 1)%float
         1 1 false
         (0 + Double.Math_cos (0.1 + Double.Math_PI) * 1)%float
         (0 + Double.Math_sin (0.1 + Double.Math_PI) * 1)%float
         (0 + Double.Math_cos (0.1 + Double.Math_PI) * 0.5)%float
         (0 + Double.Math_sin (0.1 + Double.Math_PI) * 0.5)%float
         0.5 0.5 false
         (0 + Double.Math_cos 0.1 * 0.5)%float
         (0 + Double.Math_sin 0.1 * 0.5)%float).
Proof.
  exact (createArcPath_grammar 0 0 1 0.5 0.1 (0.1 + Double.Math_PI)).
Defined.

(** Sectors under the concrete runtime.  A sector of no extent has the
    flag 0 and one of four radians the flag 1.  For the angles 0.1 and
    [0.1 + Math.PI] the difference of the two doubles rounds to
    [Math.PI] itself, which is not greater than [Math.PI]: the flag is
    0, although the two doubles are more than [Math.PI] apart as
    rationals. *)
Example createArcPath_sample :
  UtilsDouble.createArcPath 400 300 100 80 0 0
  = "M 500 300 A 100 100 0 0 1 500 300 L 480 300 A 80 80 0 0 0 480 300 Z"%string
  /\ UtilsDouble.largeArcFlag 0 4 = 1%float
  /\ UtilsDouble.largeArcFlag 0.1 (0.1 + Double.Math_PI) = 0%float
  /\ (exists low high,
        Double.toQ 0.1 = Some low
        /\ Double.toQ (0.1 + Double.Math_PI) = Some high
        /\ Js.Math_PI < high - low).
Proof.
  split; [vm_compute; reflexivity|].
  split; [vm_compute; reflexivity|].
  split; [vm_compute; reflexivity|].
  eexists _, _. split; [vm_compute; reflexivity|].
  split; [vm_compute; reflexivity|]. vm_compute. reflexivity.
Qed.

(** ** Feature round trip *)

Section FeatureModelFacts.

Import FeatureModel.

Context `{Runtime}.

Lemma generateId_nonempty (now random : Q) :
  String.eqb (generateId now random) "" = false.
Proof. reflexivity. Qed.

Lemma eqb_empty_false (s : string) : s <> ""%string -> String.eqb s "" = false.
Proof. intros Hs. apply String.eqb_neq. exact Hs. Qed.

Lemma orZero_eq (v : Q) : orZero (Some v) == v.
Proof.
  unfold orZero. destruct (Qeq_bool v 0) eqn:E; [|reflexivity].
  apply Qeq_bool_eq in E. symmetry. exact E.
Qed.

Lemma spread_id (object : gmap string string) : spread object = object.
Proof. unfold spread. apply list_to_map_to_list. Qed.

(** The constructor establishes the invariant. *)
Lemma new_wellFormed (data : FeatureData) (now random : Q) :
  wellFormed (new data now random).
Proof.
  unfold wellFormed, new.
  destruct (Js.gt (orZero (data_start data)) (orZero (data_end data))) eqn:Hswap;
    cbn [feature_id feature_type feature_start feature_end];
    (split; [|split]).
  1,4: destruct (data_id data) as [v|];
         [destruct (String.eqb v "") eqn:E|];
         try (apply String.eqb_neq; first [exact E | apply generateId_nonempty]).
  1,3: unfold orString; destruct (data_type data) as [v|];
         [destruct (String.eqb v "") eqn:E|];
         try (apply String.eqb_neq; first [exact E | reflexivity]).
  - apply gt_spec in Hswap. apply Qlt_le_weak. exact Hswap.
  - apply gt_false in Hswap. exact Hswap.
Qed.

(** Serialising a well-formed feature and reading it back gives the same
    fields, whatever the clock and the random source say. *)
Lemma roundtrip_wellFormed (f : Feature) (now random : Q) :
  wellFormed f -> sameFields (fromJSON (toJSON f) now random) f.
Proof.
  intros (Hid & Hty & Hle).
  unfold fromJSON, toJSON, asPartial, new.
  cbn [data_id data_name data_type data_start data_end data_strand
       data_attributes data_sequenceId feature_id feature_name feature_type
       feature_start feature_end feature_strand feature_attributes
       feature_sequenceId].
  rewrite (eqb_empty_false _ Hid). unfold orString.
  rewrite (eqb_empty_false _ Hty).
  assert (Hgt : Js.gt (orZero (Some (feature_start f)))
                      (orZero (Some (feature_end f))) = false).
  { apply gt_false. rewrite !orZero_eq. exact Hle. }
  rewrite Hgt. unfold sameFields.
  cbn [feature_id feature_name feature_type feature_start feature_end
       feature_strand feature_attributes].
  rewrite spread_id, !orZero_eq.
  repeat split; reflexivity.
Qed.

End FeatureModelFacts.

(** C9.  For every instance [new Feature(data)],
    [Feature.fromJSON(feature.toJSON())] has the same [id], [name],
    [type], [start], [end] and [strand], and the same attribute under
    every key. *)
Theorem Feature_roundtrip `{Runtime} (data : FeatureModel.FeatureData)
    (now random now' random' : Q) :
  let feature := FeatureModel.new data now random in
  FeatureModel.sameFields
    (FeatureModel.fromJSON (FeatureModel.toJSON feature) now' random')
    feature.
Proof.
  cbv zeta. apply roundtrip_wellFormed. apply new_wellFormed.
Qed.

Example Feature_roundtrip_sample :
  let data :=
    FeatureModel.mkFeatureData None (Some "dnaA"%string) None (Some 1500)
      (Some 120) (Some StrandMinus)
      (Some (<["product"%string := "initiator"%string]> ∅)) None in
  let feature := FeatureModel.new data 1700000000000 0.4242 in
  feature_id feature = "feature_1700000000000_4242"%string
  /\ feature_start feature = 120 /\ feature_end feature = 1500
  /\ feature_id (FeatureModel.fromJSON (FeatureModel.toJSON feature) 5 0.5)
     = "feature_1700000000000_4242"%string.
Proof. repeat split; vm_compute; reflexivity. Qed.

(** ** Interval tree: cached bounds, sorted input and removal *)

Section IntervalTreeOpsFacts.

Import IntervalTree IntervalTreeOps.

Lemma updateMax_shape (f : Feature) (l r : IntervalNode) (mn mx : Q) :
  exists mx', updateMax (Node f l r mn mx) = Node f l r mn mx'.
Proof. simpl. eexists. reflexivity. Qed.

(** [updateMax] stores the largest of the end of the node's feature and
    the cached maxima of its children. *)
Lemma updateMax_cached (f : Feature) (l r : IntervalNode) (mn mx : Q) :
  cached l -> cached r -> mn = feature_start f ->
  cached (updateMax (Node f l r mn mx)).
Proof.
  intros Hl Hr Hmn. cbn [updateMax].
  set (m1 := match l with
             | null => feature_end f
             | Node _ _ _ _ lmax =>
                 if Js.gt lmax (feature_end f) then lmax else feature_end f
             end).
  set (m2 := match r with
             | null => m1
             | Node _ _ _ _ rmax => if Js.gt rmax m1 then rmax else m1
             end).
  assert (H1 : feature_end f <= m1
               /\ (forall g, In g (stored l) -> feature_end g <= m1)
               /\ (feature_end f = m1
                   \/ exists g, In g (stored l) /\ feature_end g = m1)).
  { subst m1. destruct l as [|lf ll lr lmn lmx].
    - split; [apply Qle_refl|]. split; [intros g []|]. left; reflexivity.
    - destruct Hl as (Hub & Hatt & _).
      destruct (Js.gt lmx (feature_end f)) eqn:E.
      + apply gt_spec in E. split; [apply Qlt_le_weak; exact E|].
        split; [exact Hub|]. right. exact Hatt.
      + apply gt_false in E. split; [apply Qle_refl|].
        split; [|left; reflexivity].
        intros g Hg. apply Qle_trans with lmx; [apply Hub, Hg | exact E]. }
  destruct H1 as (Hf1 & Hl1 & Ha1).
  assert (H2 : m1 <= m2
               /\ (forall g, In g (stored r) -> feature_end g <= m2)
               /\ (m1 = m2 \/ exists g, In g (stored r) /\ feature_end g = m2)).
  { subst m2. destruct r as [|rf rl rr rmn rmx].
    - split; [apply Qle_refl|]. split; [intros g []|]. left; reflexivity.
    - destruct Hr as (Hub & Hatt & _).
      destruct (Js.gt rmx m1) eqn:E.
      + apply gt_spec in E. split; [apply Qlt_le_weak; exact E|].
        split; [exact Hub|]. right. exact Hatt.
      + apply gt_false in E. split; [apply Qle_refl|].
        split; [|left; reflexivity].
        intros g Hg. apply Qle_trans with rmx; [apply Hub, Hg | exact E]. }
  destruct H2 as (H12 & Hr2 & Ha2).
  cbn [cached stored]. split; [|split; [|split; [exact Hmn | split; assumption]]].
  - intros g [<-|Hg].
    + apply Qle_trans with m1; assumption.
    + apply in_app_iff in Hg. destruct Hg as [Hg|Hg].
      * apply Qle_trans with m1; [apply Hl1, Hg | exact H12].
      * apply Hr2, Hg.
  - destruct Ha2 as [<-|(g & Hg & Hgm)].
    + destruct Ha1 as [<-|(g & Hg & Hgm)].
      * exists f. split; [left; reflexivity | reflexivity].
      * exists g. split; [right; apply in_app_iff; left; exact Hg | exact Hgm].
    + exists g. split; [right; apply in_app_iff; right; exact Hg | exact Hgm].
Qed.

Lemma insertNode_cached (node : IntervalNode) (f : Feature) :
  cached node -> cached (insertNode node f).
Proof.
  induction node as [|h l IHl r IHr mn mx]; intros Hc.
  - cbn [insertNode newNode cached stored app].
    split; [intros g [<-|[]]; apply Qle_refl|].
    split; [exists f; split; [left; reflexivity | reflexivity]|].
    split; [reflexivity | split; exact I].
  - destruct Hc as (_ & _ & Hmn & Hl & Hr). cbn [insertNode].
    destruct (Js.lt (center f) (center h)); apply updateMax_cached; auto.
Qed.

Lemma fold_insert_cached (fs : list Feature) (tree : t) :
  cached (root tree) -> cached (root (fold_left insert fs tree)).
Proof.
  revert tree; induction fs as [|f fs IH]; intros tree Hc; [exact Hc|].
  cbn [fold_left]. apply IH. cbn [insert root]. apply insertNode_cached, Hc.
Qed.

End IntervalTreeOpsFacts.

(** X1.  In every tree built by inserts, the cached [max] of every node
    is an upper bound of the ends of the features in its subtree and is
    the end of one of them, and the cached [min] is the start of the
    node's own feature. *)
Theorem insert_keeps_cached_bounds (fs : list Feature) :
  IntervalTreeOps.cached (IntervalTree.root (IntervalTree.insertAll fs)).
Proof.
  unfold IntervalTree.insertAll. apply fold_insert_cached. exact I.
Qed.

Section SortedInsertFacts.

Import IntervalTree IntervalTreeOps.

Lemma rightSpine_insertNode (fs : list Feature) (node : IntervalNode)
    (g : Feature) :
  rightSpine fs node ->
  (forall f, In f fs -> center f <= center g) ->
  rightSpine (fs ++ [g]) (insertNode node g).
Proof.
  induction 1 as [|f rest r mx Hr IH]; intros Hle.
  - cbn [insertNode newNode app]. constructor. constructor.
  - cbn [insertNode].
    assert (Hlt : Js.lt (center g) (center f) = false)
      by (apply lt_false, Hle; left; reflexivity).
    rewrite Hlt.
    destruct (updateMax_shape f null (insertNode r g) (feature_start f) mx)
      as [mx' ->].
    cbn [app]. constructor. apply IH. intros h Hh. apply Hle. right. exact Hh.
Qed.

Lemma rightSpine_fold (fs pre : list Feature) (tree : t) :
  rightSpine pre (root tree) ->
  StronglySorted ascends (pre ++ fs) ->
  rightSpine (pre ++ fs) (root (fold_left insert fs tree)).
Proof.
  revert pre tree; induction fs as [|g fs IH]; intros pre tree Hs Hsorted.
  - rewrite app_nil_r. exact Hs.
  - cbn [fold_left].
    replace (pre ++ g :: fs) with ((pre ++ [g]) ++ fs)
      by (rewrite <- app_assoc; reflexivity).
    apply IH.
    + cbn [insert root]. apply rightSpine_insertNode; [exact Hs|].
      intros f Hf.
      assert (Hfg : ascends f g).
      { clear - Hsorted Hf. induction pre as [|p pre IHp]; [destruct Hf|].
        cbn [app] in Hsorted. apply StronglySorted_inv in Hsorted.
        destruct Hsorted as [Hrest Hall]. destruct Hf as [<-|Hf].
        - apply (proj1 (List.Forall_forall _ _) Hall).
          apply in_app_iff. right. left. reflexivity.
        - apply IHp; assumption. }
      exact (proj1 Hfg).
    + rewrite <- app_assoc. exact Hsorted.
Qed.

(** On a right spine whose starts ascend, the query stops at the first
    start beyond the range and has by then met every overlapping feature. *)
Lemma queryNode_rightSpine (fs : list Feature) (node : IntervalNode)
    (a b : Q) (acc : list Feature) :
  rightSpine fs node ->
  StronglySorted ascends fs ->
  queryNode node a b acc
  = acc ++ List.filter (fun f => intersects f a b) fs.
Proof.
  intros Hs; revert acc; induction Hs as [|f rest r mx Hr IH];
    intros acc Hsorted.
  - cbn [queryNode List.filter]. rewrite app_nil_r. reflexivity.
  - apply StronglySorted_inv in Hsorted. destruct Hsorted as [Hrest Hall].
    cbn [queryNode List.filter].
    set (acc1 := if intersects f a b then acc ++ [f] else acc).
    assert (Hacc1 : forall tail,
              acc1 ++ tail = acc ++ (if intersects f a b then f :: tail else tail)).
    { intros tail. subst acc1. destruct (intersects f a b);
        [rewrite <- app_assoc|]; reflexivity. }
    destruct Hr as [|g rest' r' mx' Hr'].
    + cbn [List.filter]. rewrite <- Hacc1, app_nil_r. reflexivity.
    + destruct (Js.le (feature_start g) b) eqn:Hle.
      * rewrite (IH acc1 Hrest). apply Hacc1.
      * apply le_false in Hle.
        assert (Hnone : List.filter (fun h => intersects h a b) (g :: rest') = []).
        { assert (Hg : forall h, In h (g :: rest') -> intersects h a b = false).
          { intros h Hh. unfold intersects. apply andb_false_iff. right.
            apply le_false. apply Qlt_le_trans with (feature_start g); [exact Hle|].
            destruct Hh as [<-|Hh]; [apply Qle_refl|].
            apply StronglySorted_inv in Hrest. destruct Hrest as [_ Hg].
            exact (proj2 (proj1 (List.Forall_forall _ _) Hg h Hh)). }
          clear - Hg. induction (g :: rest') as [|h l IHl]; [reflexivity|].
          cbn [List.filter]. rewrite (Hg h) by (left; reflexivity).
          apply IHl. intros x Hx. apply Hg. right. exact Hx. }
        rewrite Hnone. rewrite <- Hacc1, app_nil_r. reflexivity.
Qed.

End SortedInsertFacts.

(** X2.  When the features are inserted in an order in which neither the
    centres nor the starts ever decrease (sorted, non-nested annotation),
    [query(a,b)] returns exactly the inserted features that overlap
    [a,b], in insertion order. *)
Theorem query_complete_on_ascending_input (fs : list Feature) (a b : Q) :
  StronglySorted IntervalTreeOps.ascends fs ->
  IntervalTree.query (IntervalTree.insertAll fs) a b
  = List.filter (fun f => IntervalTree.intersects f a b) fs.
Proof.
  intros Hsorted. unfold IntervalTree.query, IntervalTree.insertAll.
  rewrite (queryNode_rightSpine fs); [reflexivity | | exact Hsorted].
  apply (rightSpine_fold fs [] IntervalTree.empty);
    [constructor | exact Hsorted].
Qed.

Lemma query_complete_on_ascending_input_witness :
  let fs := [featureAt "a" 10 20; featureAt "b" 15 25; featureAt "c" 50 60] in
  StronglySorted IntervalTreeOps.ascends fs
  /\ IntervalTree.query (IntervalTree.insertAll fs) 18 55
     = [featureAt "a" 10 20; featureAt "b" 15 25; featureAt "c" 50 60].
Proof.
  cbv zeta.
  assert (H : StronglySorted IntervalTreeOps.ascends
            [featureAt "a" 10 20; featureAt "b" 15 25; featureAt "c" 50 60]).
  { repeat constructor; vm_compute; discriminate. }
  split; [exact H|].
  rewrite (query_complete_on_ascending_input _ 18 55 H).
  vm_compute. reflexivity.
Defined.

Section RemoveFacts.

Import IntervalTree IntervalTreeOps.

Lemma stored_insertNode_perm (node : IntervalNode) (f : Feature) :
  Permutation (stored (insertNode node f)) (f :: stored node).
Proof.
  induction node as [|h l IHl r IHr mn mx]; cbn [insertNode].
  - reflexivity.
  - destruct (Js.lt (center f) (center h));
      rewrite stored_updateMax; cbn [stored].
    + rewrite IHl. cbn [app]. apply perm_swap.
    + rewrite IHr. rewrite <- Permutation_middle. apply perm_swap.
Qed.

Lemma stored_fold_insert_perm (fs : list Feature) (tree : t) :
  Permutation (stored (root (fold_left insert fs tree)))
              (rev fs ++ stored (root tree)).
Proof.
  revert tree; induction fs as [|f fs IH]; intros tree; cbn [fold_left rev].
  - reflexivity.
  - rewrite IH. cbn [insert root]. rewrite stored_insertNode_perm.
    rewrite <- app_assoc. reflexivity.
Qed.

Lemma stored_insertAll_perm (fs : list Feature) :
  Permutation (stored (root (insertAll fs))) fs.
Proof.
  unfold insertAll. rewrite stored_fold_insert_perm. cbn [empty root stored].
  rewrite app_nil_r. symmetry. apply Permutation_rev.
Qed.

Lemma ordered_updateMax (f : Feature) (l r : IntervalNode) (mn mx : Q) :
  ordered (Node f l r mn mx) -> ordered (updateMax (Node f l r mn mx)).
Proof. intros H. exact H. Qed.

Lemma insertNode_ordered (node : IntervalNode) (f : Feature) :
  ordered node -> ordered (insertNode node f).
Proof.
  induction node as [|h l IHl r IHr mn mx]; intros Ho.
  - cbn. repeat split; intros g [].
  - destruct Ho as (Hl & Hr & Hol & Hor). cbn [insertNode].
    destruct (Js.lt (center f) (center h)) eqn:E; apply ordered_updateMax;
      cbn [ordered]; (split; [|split; [|split]]); auto.
    + intros g Hg. apply stored_insertNode in Hg. destruct Hg as [->|Hg];
        [apply lt_spec; exact E | apply Hl, Hg].
    + intros g Hg. apply stored_insertNode in Hg. destruct Hg as [->|Hg];
        [apply lt_false; exact E | apply Hr, Hg].
Qed.

Lemma fold_insert_ordered (fs : list Feature) (tree : t) :
  ordered (root tree) -> ordered (root (fold_left insert fs tree)).
Proof.
  revert tree; induction fs as [|f fs IH]; intros tree Ho; [exact Ho|].
  cbn [fold_left]. apply IH. cbn [insert root]. apply insertNode_ordered, Ho.
Qed.

Lemma findMin_stored (f : Feature) (l r : IntervalNode) (mn mx : Q) :
  exists mf ml mr mmn mmx,
    findMin (Node f l r mn mx) = Node mf ml mr mmn mmx
    /\ In mf (stored (Node f l r mn mx)).
Proof.
  revert f r mn mx; induction l as [|lf ll IHll lr _ lmn lmx];
    intros f r mn mx.
  - exists f, null, r, mn, mx. split; [reflexivity | left; reflexivity].
  - destruct (IHll lf lr lmn lmx) as (mf & ml & mr & mmn & mmx & Hfind & Hin).
    exists mf, ml, mr, mmn, mmx. split; [exact Hfind|].
    cbn [stored]. right. apply in_app_iff. left. exact Hin.
Qed.

(** In a list without repeated ids, an id names one feature. *)
Lemma unique_by_id (l : list Feature) (x y : Feature) :
  List.NoDup (map feature_id l) -> In x l -> In y l ->
  feature_id x = feature_id y -> x = y.
Proof.
  induction l as [|h l IH]; intros Hnd Hx Hy Hid; [destruct Hx|].
  cbn [map] in Hnd. apply List.NoDup_cons_iff in Hnd. destruct Hnd as [Hh Hnd].
  destruct Hx as [<-|Hx], Hy as [<-|Hy].
  - reflexivity.
  - exfalso. apply Hh. rewrite Hid. apply in_map, Hy.
  - exfalso. apply Hh. rewrite <- Hid. apply in_map, Hx.
  - apply IH; assumption.
Qed.

Lemma NoDup_ids_node (f : Feature) (l r : IntervalNode) (mn mx : Q) :
  List.NoDup (map feature_id (stored (Node f l r mn mx))) ->
  List.NoDup (map feature_id (stored l)) /\ List.NoDup (map feature_id (stored r)).
Proof.
  cbn [stored map]. rewrite map_app. intros H.
  apply List.NoDup_cons_iff in H. destruct H as [_ H].
  split; [apply List.NoDup_app_remove_r in H | apply List.NoDup_app_remove_l in H];
    exact H.
Qed.

(** Removing a stored feature from an ordered tree without repeated ids
    takes out that feature and nothing else. *)
Lemma removeNode_stored (node : IntervalNode) (f g : Feature) :
  ordered node -> List.NoDup (map feature_id (stored node)) ->
  In f (stored node) ->
  In g (stored (removeNode node f))
  <-> In g (stored node) /\ feature_id g <> feature_id f.
Proof.
  revert f g; induction node as [|h l IHl r IHr mn mx]; intros f g Ho Hnd Hf.
  - destruct Hf.
  - pose proof (fun x y => unique_by_id _ x y Hnd) as Huniq.
    destruct (NoDup_ids_node _ _ _ _ _ Hnd) as [Hndl Hndr].
    destruct Ho as (Hol & Hor & Hordl & Hordr).
    assert (Hhin : In h (stored (Node h l r mn mx))) by (left; reflexivity).
    assert (Hsub_l : forall x, In x (stored l) -> In x (stored (Node h l r mn mx)))
      by (intros x Hx; cbn [stored]; right; apply in_app_iff; left; exact Hx).
    assert (Hsub_r : forall x, In x (stored r) -> In x (stored (Node h l r mn mx)))
      by (intros x Hx; cbn [stored]; right; apply in_app_iff; right; exact Hx).
    assert (Hnode : forall x, In x (stored (Node h l r mn mx)) <->
                      x = h \/ In x (stored l) \/ In x (stored r)).
    { intros x. cbn [stored In]. rewrite in_app_iff. intuition congruence. }
    assert (Hl_ne : forall x, In x (stored l) -> feature_id x <> feature_id h).
    { intros x Hx Hid. assert (x = h) by (apply Huniq; auto). subst x.
      apply (Qlt_irrefl (center h)). apply Hol, Hx. }
    assert (Hr_ne : forall x, In x (stored r) -> feature_id x <> feature_id h).
    { intros x Hx Hid.
      cbn [stored map] in Hnd. apply List.NoDup_cons_iff in Hnd.
      destruct Hnd as [Hh _]. apply Hh. rewrite <- Hid.
      apply in_map. apply in_app_iff. right. exact Hx. }
    cbn [removeNode].
    destruct (String.eqb (feature_id h) (feature_id f)) eqn:Eid.
    + apply String.eqb_eq in Eid.
      assert (f = h) by (apply Huniq; auto). subst f.
      destruct l as [|lf ll lr lmn lmx], r as [|rf rl rr rmn rmx].
      * cbn [stored app]. split; [intros [] | intros [[<-|[]] Hne]; congruence].
      * rewrite Hnode. split.
        -- intros Hg. split; [right; right; exact Hg | apply Hr_ne, Hg].
        -- intros [[->|[[]|Hg]] Hne]; [congruence | exact Hg].
      * rewrite Hnode. split.
        -- intros Hg. split; [right; left; exact Hg | apply Hl_ne, Hg].
        -- intros [[->|[Hg|[]]] Hne]; [congruence | exact Hg].
      * set (L := Node lf ll lr lmn lmx) in *.
        set (R := Node rf rl rr rmn rmx) in *.
        destruct (findMin_stored rf rl rr rmn rmx)
          as (mf & ml & mr & mmn & mmx & Hfind & Hmin).
        fold R in Hfind, Hmin. rewrite Hfind.
        rewrite stored_updateMax. rewrite Hnode.
        assert (Hrm : In g (stored (removeNode R mf)) <->
                      In g (stored R) /\ feature_id g <> feature_id mf)
          by (apply IHr; assumption).
        cbn [stored In]. rewrite in_app_iff, Hrm. split.
        -- intros [<-|[Hg|[Hg _]]].
           ++ split; [right; right; exact Hmin | apply Hr_ne, Hmin].
           ++ split; [right; left; exact Hg | apply Hl_ne, Hg].
           ++ split; [right; right; exact Hg | apply Hr_ne, Hg].
        -- intros [[->|[Hg|Hg]] Hne]; [congruence | right; left; exact Hg |].
           destruct (String.eqb (feature_id g) (feature_id mf)) eqn:Eg.
           ++ apply String.eqb_eq in Eg. left. symmetry.
              apply (unique_by_id _ _ _ Hndr); assumption.
           ++ apply String.eqb_neq in Eg. right. right. split; assumption.
    + apply String.eqb_neq in Eid.
      assert (Hf' : In f (stored l) \/ In f (stored r)).
      { apply Hnode in Hf. destruct Hf as [->|Hf]; [congruence | exact Hf]. }
      destruct (Js.lt (center f) (center h)) eqn:Ec;
        rewrite stored_updateMax, Hnode; cbn [stored In]; rewrite in_app_iff.
      * apply lt_spec in Ec.
        assert (Hfl : In f (stored l)).
        { destruct Hf' as [Hfl|Hfr]; [exact Hfl|]. exfalso.
          apply (Qlt_irrefl (center f)).
          apply Qlt_le_trans with (center h); [exact Ec | apply Hor, Hfr]. }
        rewrite (IHl f g Hordl Hndl Hfl). split.
        -- intros [<-|[[Hg Hne]|Hg]].
           ++ split; [left; reflexivity | congruence].
           ++ split; [right; left; exact Hg | exact Hne].
           ++ split; [right; right; exact Hg|]. intros Hid.
              assert (g = f) by (apply Huniq; auto). subst g.
              apply (Qlt_irrefl (center f)).
              apply Qlt_le_trans with (center h); [exact Ec | apply Hor, Hg].
        -- intros [[->|[Hg|Hg]] Hne]; [left; reflexivity | | right; right; exact Hg].
           right. left. split; assumption.
      * apply lt_false in Ec.
        assert (Hfr : In f (stored r)).
        { destruct Hf' as [Hfl|Hfr]; [|exact Hfr]. exfalso.
          apply (Qlt_irrefl (center f)).
          apply Qlt_le_trans with (center h); [apply Hol, Hfl | exact Ec]. }
        rewrite (IHr f g Hordr Hndr Hfr). split.
        -- intros [<-|[Hg|[Hg Hne]]].
           ++ split; [left; reflexivity | congruence].
           ++ split; [right; left; exact Hg|]. intros Hid.
              assert (g = f) by (apply Huniq; auto). subst g.
              apply (Qlt_irrefl (center f)).
              apply Qlt_le_trans with (center h); [apply Hol, Hg | exact Ec].
           ++ split; [right; right; exact Hg | exact Hne].
        -- intros [[->|[Hg|Hg]] Hne]; [left; reflexivity | right; left; exact Hg |].
           right. right. split; assumption.
Qed.

(** The identity map after a run of inserts of features with distinct ids. *)
Lemma features_fold_insert (fs : list Feature) (tree : t) (id : string) :
  List.NoDup (map feature_id fs) ->
  (forall f, In f fs -> feature_id f = id ->
     features (fold_left insert fs tree) !! id = Some f)
  /\ ((forall f, In f fs -> feature_id f <> id) ->
      features (fold_left insert fs tree) !! id = features tree !! id).
Proof.
  revert tree; induction fs as [|h fs IH]; intros tree Hnd.
  - split; [intros f [] | reflexivity].
  - cbn [map] in Hnd. apply List.NoDup_cons_iff in Hnd. destruct Hnd as [Hh Hnd].
    cbn [fold_left]. destruct (IH (insert tree h) Hnd) as [IH1 IH2]. split.
    + intros f [<-|Hf] Hid.
      * rewrite IH2.
        -- cbn [insert features]. rewrite Hid. apply lookup_insert_eq.
        -- intros g Hg Hgid. apply Hh. rewrite Hid, <- Hgid. apply in_map, Hg.
      * apply IH1; assumption.
    + intros Hnone. rewrite IH2.
      * cbn [insert features]. apply lookup_insert_ne.
        apply Hnone. left. reflexivity.
      * intros g Hg. apply Hnone. right. exact Hg.
Qed.

End RemoveFacts.

(** X3.  For features with pairwise distinct ids inserted into an empty
    tree, [remove(id)] leaves in the tree exactly the inserted features
    with another id and drops the id from the identity map, so that no
    later query returns a feature with that id; for an id that was never
    inserted the tree is left as it is. *)
Theorem remove_then_query (fs : list Feature) (id : string) :
  List.NoDup (map feature_id fs) ->
  let tree := IntervalTreeOps.remove (IntervalTree.insertAll fs) id in
  (forall g, In g (IntervalTree.stored (IntervalTree.root tree))
             <-> In g fs /\ feature_id g <> id)
  /\ (forall a b g, In g (IntervalTree.query tree a b) ->
        In g fs /\ feature_id g <> id)
  /\ IntervalTree.features tree !! id = None
  /\ ((forall f, In f fs -> feature_id f <> id) ->
      tree = IntervalTree.insertAll fs).
Proof.
  intros Hnd. cbv zeta.
  pose proof (features_fold_insert fs IntervalTree.empty id Hnd) as [Hsome Hnone].
  fold (IntervalTree.insertAll fs) in Hsome, Hnone.
  cbn [IntervalTree.empty IntervalTree.features] in Hnone.
  rewrite lookup_empty in Hnone.
  assert (Hstored : forall g,
            In g (IntervalTree.stored (IntervalTree.root
                    (IntervalTreeOps.remove (IntervalTree.insertAll fs) id)))
            <-> In g fs /\ feature_id g <> id).
  { intros g. unfold IntervalTreeOps.remove.
    destruct (IntervalTree.features (IntervalTree.insertAll fs) !! id)
      as [f|] eqn:Hlook.
    - assert (Hf : In f fs /\ feature_id f = id).
      { destruct (in_dec string_dec id (map feature_id fs)) as [Hin|Hout].
        - apply in_map_iff in Hin. destruct Hin as (f' & Hid & Hf').
          pose proof (Hsome f' Hf' Hid) as Hlook'.
          assert (f' = f) by congruence. subst f'. auto.
        - exfalso. assert (E : Some f = None); [|discriminate E].
          apply Hnone.
          intros f' Hf' Hid. apply Hout. rewrite <- Hid. apply in_map, Hf'. }
      destruct Hf as [Hf Hid]. cbn [IntervalTree.root].
      rewrite removeNode_stored.
      + rewrite stored_insertAll, Hid. reflexivity.
      + apply fold_insert_ordered. exact I.
      + apply (Permutation_NoDup (l := map feature_id fs)); [|exact Hnd].
        apply Permutation_map. symmetry. apply stored_insertAll_perm.
      + apply stored_insertAll. exact Hf.
    - rewrite stored_insertAll. split; [|tauto].
      intros Hg. split; [exact Hg|]. intros Hid.
      discriminate (Hsome g Hg Hid). }
  split; [exact Hstored|]. split; [|split].
  - intros a b g Hg. apply Hstored. unfold IntervalTree.query in Hg.
    apply queryNode_sound in Hg. destruct Hg as [[]|[Hg _]]. exact Hg.
  - unfold IntervalTreeOps.remove.
    destruct (IntervalTree.features (IntervalTree.insertAll fs) !! id)
      as [f|] eqn:Hlook; [|exact Hlook].
    cbn [IntervalTree.features]. apply lookup_delete_eq.
  - intros Habsent. unfold IntervalTreeOps.remove.
    rewrite (Hnone Habsent). reflexivity.
Qed.

Lemma remove_then_query_witness :
  let fs := [featureAt "a" 10 20; featureAt "b" 5 8; featureAt "c" 50 60;
             featureAt "d" 30 45] in
  List.NoDup (map feature_id fs)
  /\ IntervalTree.query (IntervalTreeOps.remove (IntervalTree.insertAll fs) "a") 0 100
     = [featureAt "d" 30 45; featureAt "b" 5 8; featureAt "c" 50 60]
  /\ forall g, In g (IntervalTree.query
                       (IntervalTreeOps.remove (IntervalTree.insertAll fs) "a") 0 100)
               -> feature_id g <> "a"%string.
Proof.
  cbv zeta.
  assert (H : List.NoDup (map feature_id
                [featureAt "a" 10 20; featureAt "b" 5 8; featureAt "c" 50 60;
                 featureAt "d" 30 45])).
  { cbn. repeat constructor; cbn; intuition discriminate. }
  split; [exact H|]. split; [vm_compute; reflexivity|].
  intros g Hg.
  exact (proj2 (proj1 (proj2 (remove_then_query _ "a" H)) 0 100 g Hg)).
Defined.

(** ** Level of detail: culling and table updates *)

Section LODPolicyFacts.

Import LODManager LODPolicy.

Lemma getLOD_in (levels : list LODLevel) (z : Q) :
  levels <> [] -> exists level, getLOD levels z = Some level /\ In level levels.
Proof.
  intros Hne. unfold getLOD.
  destruct (find (matches z) levels) as [level|] eqn:Hfind.
  - exists level. split; [reflexivity|]. apply find_some in Hfind. tauto.
  - unfold lastLevel.
    destruct (nth_error levels (length levels - 1)) as [level|] eqn:Hnth.
    + exists level. split; [reflexivity|]. eapply nth_error_In, Hnth.
    + exfalso. apply nth_error_None in Hnth.
      destruct levels as [|l rest]; [congruence|]. cbn [length] in Hnth. lia.
Qed.

Lemma filterWith_const {A : Type} (l : list A) :
  JsArray.filterWith (fun _ => Some true) l = Some l.
Proof.
  induction l as [|x l IH]; cbn [JsArray.filterWith]; [reflexivity|].
  rewrite IH. reflexivity.
Qed.

Lemma filterWith_ext {A : Type} (p q : A -> option bool) (l : list A) :
  (forall x, p x = q x) -> JsArray.filterWith p l = JsArray.filterWith q l.
Proof.
  intros H. induction l as [|x l IH]; cbn [JsArray.filterWith]; [reflexivity|].
  rewrite H, IH. reflexivity.
Qed.

Lemma insertByKey_perm {A : Type} (key : A -> Q) (x : A) (l : list A) :
  Permutation (JsArray.insertByKey key x l) (x :: l).
Proof.
  induction l as [|y l IH]; cbn [JsArray.insertByKey]; [reflexivity|].
  destruct (Js.le (key x) (key y)); [reflexivity|].
  rewrite IH. apply perm_swap.
Qed.

Lemma sortByKey_perm {A : Type} (key : A -> Q) (l : list A) :
  Permutation (JsArray.sortByKey key l) l.
Proof.
  induction l as [|x l IH]; [reflexivity|].
  cbn [JsArray.sortByKey fold_right]. rewrite insertByKey_perm.
  apply perm_skip. exact IH.
Qed.

Lemma insertByKey_sorted {A : Type} (key : A -> Q) (x : A) (l : list A) :
  Sorted (fun a b => key a <= key b) l ->
  Sorted (fun a b => key a <= key b) (JsArray.insertByKey key x l).
Proof.
  induction l as [|y l IH]; intros Hs; cbn [JsArray.insertByKey].
  - repeat constructor.
  - destruct (Js.le (key x) (key y)) eqn:E.
    + apply le_spec in E. constructor; [exact Hs | constructor; exact E].
    + apply le_false in E. apply Sorted_inv in Hs. destruct Hs as [Hs Hhd].
      constructor; [apply IH, Hs|].
      destruct l as [|z l]; cbn [JsArray.insertByKey].
      * constructor. apply Qlt_le_weak, E.
      * destruct (Js.le (key x) (key z)).
        -- constructor. apply Qlt_le_weak, E.
        -- constructor. inversion Hhd; assumption.
Qed.

Lemma sortByKey_sorted {A : Type} (key : A -> Q) (l : list A) :
  Sorted (fun a b => key a <= key b) (JsArray.sortByKey key l).
Proof.
  induction l as [|x l IH]; [constructor|].
  cbn [JsArray.sortByKey fold_right]. apply insertByKey_sorted, IH.
Qed.

Lemma defaultLevels_ascending : ascendingTable defaultLevels.
Proof.
  unfold ascendingTable, defaultLevels.
  repeat constructor; vm_compute; discriminate.
Qed.

Lemma apply_keeps_table (levels : list LODLevel) (u : update) :
  levels <> [] ->
  LODPolicy.apply levels u <> [] /\ ascendingTable (LODPolicy.apply levels u).
Proof.
  intros Hne. destruct u as [level|]; cbn [LODPolicy.apply].
  - split; [|apply sortByKey_sorted].
    unfold addLODLevel. intros Hnil.
    pose proof (sortByKey_perm minZoom (levels ++ [level])) as Hp.
    rewrite Hnil in Hp. apply Permutation_nil in Hp.
    destruct levels; discriminate Hp.
  - split; [discriminate | apply defaultLevels_ascending].
Qed.

Lemma tableAfter_keeps (updates : list update) (levels : list LODLevel) :
  levels <> [] -> ascendingTable levels ->
  fold_left LODPolicy.apply updates levels <> []
  /\ ascendingTable (fold_left LODPolicy.apply updates levels).
Proof.
  revert levels; induction updates as [|u us IH]; intros levels Hne Hs.
  - split; assumption.
  - cbn [fold_left]. destruct (apply_keeps_table levels u Hne) as [Hne' Hs'].
    apply IH; assumption.
Qed.

End LODPolicyFacts.

Lemma filterFeatures_default (features : list Feature) (z : Q) :
  LODPolicy.filterFeatures LODManager.defaultLevels features z = Some features.
Proof.
  unfold LODPolicy.filterFeatures.
  rewrite (filterWith_ext _ (fun _ => Some true)); [apply filterWith_const|].
  intros feature. unfold LODPolicy.shouldRenderFeature.
  destruct (getLOD_in LODManager.defaultLevels z) as (level & -> & Hin);
    [discriminate|].
  repeat (destruct Hin as [<-|Hin]; [reflexivity|]). destruct Hin.
Qed.

(** X4.  With the default table no feature is culled at any zoom level:
    [filterFeatures] returns the list it was given, also for zoom levels
    that no bucket contains. *)
Theorem filterFeatures_default_keeps_all (features : list Feature) (z : Q) :
  LODPolicy.filterFeatures LODManager.defaultLevels features z = Some features.
Proof. apply filterFeatures_default. Qed.



(** X6.  After any sequence of [addLODLevel] and [resetLODLevels] calls on
    a fresh manager the table is not empty and ascends by [minZoom], and
    [getLOD] returns one of its levels for every zoom level (so the
    culling tests never read an undefined level). *)
Theorem lod_table_invariant (updates : list LODPolicy.update) (z : Q) :
  let levels := LODPolicy.tableAfter updates in
  LODPolicy.ascendingTable levels
  /\ (exists level, LODManager.getLOD levels z = Some level /\ In level levels)
  /\ forall feature,
       LODPolicy.shouldRenderFeature levels feature z <> None
       /\ LODPolicy.shouldRenderLabel levels feature z <> None.
Proof.
  cbv zeta. unfold LODPolicy.tableAfter.
  destruct (tableAfter_keeps updates LODManager.defaultLevels) as [Hne Hs];
    [discriminate | apply defaultLevels_ascending |].
  destruct (getLOD_in _ z Hne) as (level & Hget & Hin).
  split; [exact Hs|]. split; [exists level; auto|].
  intros feature.
  unfold LODPolicy.shouldRenderFeature, LODPolicy.shouldRenderLabel.
  rewrite Hget. split.
  - destruct (negb (LODManager.showFeatures level)); discriminate.
  - destruct (negb (LODManager.showLabels level)); [discriminate|].
    destruct (Js.lt _ 30); discriminate.
Qed.

(** X7.  [addLODLevel] keeps every level of the table, adds the new one
    and nothing else, and leaves the table ascending by [minZoom]
    whatever order it had before. *)
Theorem addLODLevel_sorted_permutation (levels : list LODManager.LODLevel)
    (level : LODManager.LODLevel) :
  Permutation (LODPolicy.addLODLevel levels level) (level :: levels)
  /\ LODPolicy.ascendingTable (LODPolicy.addLODLevel levels level).
Proof.
  split.
  - unfold LODPolicy.addLODLevel. rewrite sortByKey_perm.
    symmetry. apply Permutation_cons_append.
  - apply sortByKey_sorted.
Qed.

(** ** Annulus path, label placement and label drawing *)

(** X8.  The annulus path of a track background is a sentence of the same
    grammar as the sector path: both of its arcs carry the large-arc flag
    1, the outer arc ends 0.1 to the left of where it starts, and the
    inner arc runs back to below the start. *)
Theorem createAnnulusPath_grammar `{Runtime} (cx cy outerRadius innerRadius : Q) :
  UtilsMore.createAnnulusPath cx cy outerRadius innerRadius
  = Utils.arcPathText
      (Utils.mkArcPath
         cx (cy - outerRadius)
         outerRadius outerRadius true
         (cx - 0.1) (cy - outerRadius)
         (cx - 0.1) (cy - innerRadius)
         innerRadius innerRadius true
         cx (cy - innerRadius)).
Proof.
  unfold UtilsMore.createAnnulusPath, Utils.arcPathText.
  cbn [String.concat Utils.arc_x1 Utils.arc_y1 Utils.arc_rx1 Utils.arc_ry1
       Utils.arc_large1 Utils.arc_x2 Utils.arc_y2 Utils.arc_x3 Utils.arc_y3
       Utils.arc_rx2 Utils.arc_ry2 Utils.arc_large2 Utils.arc_x4 Utils.arc_y4
       Utils.flagText].
  rewrite !string_app_assoc. reflexivity.
Qed.

Section PlacementFacts.

Import Utils.

Lemma placeLabels_structure (features : list Feature) (genomeLength w : Q)
    (rendered : list LabelAngle) :
  let result := placeLabels features genomeLength rendered w in
  fst result `sublist_of` features
  /\ snd result
     = rendered ++ map (fun f => labelAngle f genomeLength w) (fst result).
Proof.
  cbv zeta. revert rendered; induction features as [|f fs IH]; intros rendered.
  - cbn. split; [constructor | rewrite app_nil_r; reflexivity].
  - cbn [placeLabels].
    pose proof (canRenderLabel_array f genomeLength w rendered) as Harr.
    destruct (canRenderLabel f genomeLength rendered w) as [ok angles].
    cbn [fst snd] in Harr. specialize (IH angles).
    destruct (placeLabels fs genomeLength angles w) as [drawn final].
    cbn [fst snd] in *. destruct IH as [Hsub Hfinal]. subst angles.
    destruct ok.
    + split; [apply sublist_skip, Hsub|].
      rewrite Hfinal, <- app_assoc. reflexivity.
    + split; [apply sublist_cons, Hsub | exact Hfinal].
Qed.

Lemma StronglySorted_sublist {A : Type} (R : A -> A -> Prop) (l k : list A) :
  l `sublist_of` k -> StronglySorted R k -> StronglySorted R l.
Proof.
  induction 1 as [|x l k Hlk IH|x l k Hlk IH]; intros Hs.
  - constructor.
  - apply StronglySorted_inv in Hs. destruct Hs as [Hs Hall].
    constructor; [apply IH, Hs|].
    apply List.Forall_forall. intros y Hy.
    apply (proj1 (List.Forall_forall _ _) Hall).
    apply list_elem_of_In. eapply elem_of_sublist; [|exact Hlk].
    apply list_elem_of_In, Hy.
  - apply StronglySorted_inv in Hs. apply IH, Hs.
Qed.

Lemma Math_PI_pos : 0 < Js.Math_PI.
Proof. reflexivity. Qed.

End PlacementFacts.

(** X9.  The array after the placement loop is the array before it
    followed by the intervals of the accepted features, in the order in
    which they were offered; nothing that was in the array is removed
    or changed, and the accepted features are a subsequence of the
    features offered. *)
Theorem placeLabels_appends (features : list Feature) (genomeLength w : Q)
    (rendered : list Utils.LabelAngle) :
  let result := Utils.placeLabels features genomeLength rendered w in
  fst result `sublist_of` features
  /\ snd result
     = rendered
       ++ map (fun f => Utils.labelAngle f genomeLength w) (fst result).
Proof. apply placeLabels_structure. Qed.

(** X10.  When the features are offered in order of non-increasing
    angular midpoint and a label is at most one full turn wide, no two
    accepted labels overlap on the circle: not as they are, and not after
    moving either of them by one turn. *)
Theorem placeLabels_descending_no_overlap (features : list Feature)
    (genomeLength w : Q) :
  StronglySorted
    (fun f g => Utils.featureCenterAngle g genomeLength
                <= Utils.featureCenterAngle f genomeLength) features ->
  w <= 2 * Js.Math_PI ->
  ForallOrdPairs
    (fun earlier later =>
       Utils.overlapsOnCircle later earlier = false
       /\ Utils.overlapsOnCircle earlier later = false)
    (snd (Utils.placeLabels features genomeLength [] w)).
Proof.
  intros Hsorted Hw.
  pose proof (placeLabels_clear features genomeLength w [] (FOP_nil _)) as Hclear.
  destruct (placeLabels_structure features genomeLength w []) as [Hsub Hfinal].
  cbn [app] in Hfinal.
  assert (Hdrawn : StronglySorted
            (fun f g => Utils.featureCenterAngle g genomeLength
                        <= Utils.featureCenterAngle f genomeLength)
            (fst (Utils.placeLabels features genomeLength [] w))).
  { eapply StronglySorted_sublist; [exact Hsub | exact Hsorted]. }
  rewrite Hfinal in Hclear |- *.
  revert Hdrawn Hclear.
  generalize (fst (Utils.placeLabels features genomeLength [] w)).
  intros drawn. induction drawn as [|f drawn IH]; intros Hs Hclear.
  - constructor.
  - cbn [map] in *. apply StronglySorted_inv in Hs. destruct Hs as [Hs Hall].
    inversion Hclear as [|? ? Hhead Htail]; subst.
    constructor; [|apply IH; assumption].
    apply List.Forall_forall. intros later Hlater.
    apply in_map_iff in Hlater. destruct Hlater as (g & <- & Hg).
    pose proof (proj1 (List.Forall_forall _ _) Hall g Hg) as Hcentre.
    pose proof (proj1 (List.Forall_forall _ _) Hhead
                  (Utils.labelAngle g genomeLength w)
                  (in_map _ _ _ Hg)) as Hc.
    unfold Utils.clearOf, Utils.checkAngleCollision in Hc.
    apply orb_false_iff in Hc. destruct Hc as [Hdirect Hforward].
    unfold Utils.labelAngle in *; cbn [Utils.label_start Utils.label_end] in *.
    set (cf := Utils.featureCenterAngle f genomeLength) in *.
    set (cg := Utils.featureCenterAngle g genomeLength) in *.
    pose proof Math_PI_pos as Hpi.
    assert (Hdirect' : ~ (cg - w / 2 < cf + w / 2 /\ cf - w / 2 < cg + w / 2)).
    { intros [H1 H2]. apply andb_false_iff in Hdirect.
      destruct Hdirect as [Hd|Hd];
        [apply lt_false in Hd | apply gt_false in Hd]; lra. }
    assert (Hforward' : ~ (cg - w / 2 + 2 * Js.Math_PI < cf + w / 2
                           /\ cf - w / 2 < cg + w / 2 + 2 * Js.Math_PI)).
    { intros [H1 H2]. apply andb_false_iff in Hforward.
      destruct Hforward as [Hd|Hd];
        [apply lt_false in Hd | apply gt_false in Hd]; lra. }
    unfold Utils.overlapsOnCircle, Utils.overlaps, Utils.shifted;
      cbn [Utils.label_start Utils.label_end].
    split; apply orb_false_iff; split; try (apply orb_false_iff; split);
      apply not_true_iff_false; rewrite andb_true_iff, lt_spec, gt_spec;
      intros [H1 H2]; first [apply Hdirect'; split; lra
                            | apply Hforward'; split; lra | lra].
Qed.

Lemma placeLabels_descending_no_overlap_witness :
  let fs := [featureAt "b" 9900 10000; featureAt "a" 1 101] in
  let w := LABEL_ANGLE_WIDTH exportConfig in
  w <= 2 * Js.Math_PI
  /\ fst (Utils.placeLabels fs 10000 [] w) = [featureAt "b" 9900 10000]
  /\ ForallOrdPairs
       (fun earlier later =>
          Utils.overlapsOnCircle later earlier = false
          /\ Utils.overlapsOnCircle earlier later = false)
       (snd (Utils.placeLabels fs 10000 [] w)).
Proof.
  cbv zeta.
  assert (Hw : LABEL_ANGLE_WIDTH exportConfig <= 2 * Js.Math_PI)
    by (vm_compute; discriminate).
  split; [exact Hw|]. split; [vm_compute; reflexivity|].
  apply placeLabels_descending_no_overlap; [|exact Hw].
  repeat constructor. vm_compute. discriminate.
Defined.

Section LabelRendererFacts.

Import Utils LabelRenderer.

Context `{Runtime}.

Lemma filterWith_sound {A : Type} (test : A -> option bool) (l kept : list A) :
  JsArray.filterWith test l = Some kept ->
  forall x, In x kept <-> In x l /\ test x = Some true.
Proof.
  revert kept; induction l as [|a l IH]; intros kept Hk x;
    cbn [JsArray.filterWith] in Hk.
  - injection Hk as <-. cbn. tauto.
  - destruct (test a) as [keep|] eqn:Ea; [|discriminate Hk].
    destruct (JsArray.filterWith test l) as [rest|]; [|discriminate Hk].
    injection Hk as <-. specialize (IH rest eq_refl x).
    destruct keep; cbn [In]; rewrite IH; split.
    + intros [<-|[Hx Ht]]; auto.
    + intros [[<-|Hx] Ht]; auto.
    + intros [Hx Ht]; auto.
    + intros [[<-|Hx] Ht]; [congruence | auto].
Qed.

(** The label of a feature, if it has a name. *)
Lemma labelFeatures_placeLabels (centerX centerY : Q) (features : list Feature)
    (labelRadius genomeLength : Q) (rendered : list LabelAngle) (w : Q) :
  let result :=
    labelFeatures centerX centerY features labelRadius genomeLength rendered w in
  let placed := placeLabels features genomeLength rendered w in
  snd result = snd placed
  /\ fst result =
     flat_map
       (fun f =>
          match renderCanvasLabel centerX centerY f labelRadius genomeLength true with
          | Some label => [label]
          | None => []
          end)
       (fst placed).
Proof.
  cbv zeta. revert rendered; induction features as [|f fs IH]; intros rendered.
  - cbn. auto.
  - cbn [labelFeatures placeLabels].
    destruct (canRenderLabel f genomeLength rendered w) as [ok angles].
    specialize (IH angles).
    destruct (labelFeatures centerX centerY fs labelRadius genomeLength angles w)
      as [labels final].
    destruct (placeLabels fs genomeLength angles w) as [drawn final'].
    cbn [fst snd] in *. destruct IH as [-> ->].
    split; [reflexivity|]. destruct ok; reflexivity.
Qed.

Lemma centerAngle_midpoint (feature : Feature) (genomeLength : Q) :
  centerAngle feature genomeLength == featureCenterAngle feature genomeLength.
Proof.
  assert (Haux : forall s e i : Q,
            (s + (e - s) / 2) * i * Js.Math_PI * 2
            == (s * i * Js.Math_PI * 2 + e * i * Js.Math_PI * 2) / 2)
    by (intros; field).
  exact (Haux (feature_start feature) (feature_end feature) (/ genomeLength)).
Qed.

Lemma renderCanvasLabel_some (centerX centerY : Q) (feature : Feature)
    (radius genomeLength : Q) (label : Label) :
  renderCanvasLabel centerX centerY feature radius genomeLength true = Some label ->
  feature_name feature = Some (label_text label)
  /\ label_text label <> ""%string
  /\ label_rotation label = centerAngle feature genomeLength
  /\ label_x label = centerX + Math_cos (centerAngle feature genomeLength) * radius
  /\ label_y label = centerY + Math_sin (centerAngle feature genomeLength) * radius.
Proof.
  unfold renderCanvasLabel. destruct (feature_name feature) as [name|];
    [|discriminate].
  destruct (String.eqb name "") eqn:E; cbn [orb negb]; [discriminate|].
  intros [= <-]. cbn. apply String.eqb_neq in E. auto.
Qed.

(** What a run of the track loop draws and reserves. *)
Lemma labelTracks_sound (levels : list LODManager.LODLevel)
    (centerX centerY zoomLevel : Q) (tracks : list Track)
    (currentRadius trackHeight trackSpacing offset genomeLength : Q)
    (rendered : list LabelAngle) (w : Q)
    (labels : list Label) (final : list LabelAngle) :
  labelTracks levels centerX centerY zoomLevel tracks currentRadius trackHeight
    trackSpacing offset genomeLength rendered w = Some (labels, final) ->
  (forall a, In a rendered -> In a final)
  /\ forall label, In label labels ->
       exists track feature,
         In track tracks /\ track_visible track = true
         /\ In feature (track_features track)
         /\ LODPolicy.shouldRenderLabel levels feature zoomLevel = Some true
         /\ feature_name feature = Some (label_text label)
         /\ label_text label <> ""%string
         /\ label_rotation label == featureCenterAngle feature genomeLength
         /\ In (labelAngle feature genomeLength w) final.
Proof.
  revert currentRadius rendered labels final;
    induction tracks as [|track rest IH];
    intros currentRadius rendered labels final Hrun; cbn [labelTracks] in Hrun.
  - injection Hrun as <- <-. split; [auto | intros label []].
  - destruct (track_visible track) eqn:Hvis; cbn [negb] in Hrun.
    + destruct (LODPolicy.getFeaturesWithLabels levels (track_features track)
                  zoomLevel) as [fl|] eqn:Hfl; [|discriminate Hrun].
      pose proof (labelFeatures_placeLabels centerX centerY fl
                    (currentRadius + offset) genomeLength rendered w) as Hlp.
      cbv zeta in Hlp.
      pose proof (placeLabels_structure fl genomeLength w rendered) as Hst.
      cbv zeta in Hst.
      destruct (labelFeatures centerX centerY fl (currentRadius + offset)
                  genomeLength rendered w) as [here angles].
      cbn [fst snd] in Hlp. destruct Hlp as [Hangles Hhere].
      destruct Hst as [Hsub Hsnd]. rewrite <- Hangles in Hsnd.
      destruct (labelTracks levels centerX centerY zoomLevel rest
                  (currentRadius - (trackHeight + trackSpacing)) trackHeight
                  trackSpacing offset genomeLength angles w)
        as [[more final']|] eqn:Hrest; [|discriminate Hrun].
      injection Hrun as <- <-.
      destruct (IH _ _ _ _ Hrest) as [Hmono Hmore]. split.
      * intros a Ha. apply Hmono. rewrite Hsnd. apply in_app_iff. left. exact Ha.
      * intros label Hlabel. apply in_app_iff in Hlabel.
        destruct Hlabel as [Hlabel|Hlabel].
        -- rewrite Hhere in Hlabel. apply in_flat_map in Hlabel.
           destruct Hlabel as (feature & Hfeat & Hl).
           destruct (renderCanvasLabel centerX centerY feature
                       (currentRadius + offset) genomeLength true)
             as [label'|] eqn:Hrender; [|destruct Hl].
           destruct Hl as [<-|[]].
           destruct (renderCanvasLabel_some _ _ _ _ _ _ Hrender)
             as (Hname & Hne & Hrot & _).
           assert (Hin_fl : In feature fl).
           { apply list_elem_of_In. eapply elem_of_sublist; [|exact Hsub].
             apply list_elem_of_In, Hfeat. }
           apply (filterWith_sound _ _ _ Hfl) in Hin_fl.
           destruct Hin_fl as [Hin_track Hshould].
           exists track, feature. split; [left; reflexivity|].
           split; [exact Hvis|]. split; [exact Hin_track|].
           split; [exact Hshould|]. split; [exact Hname|].
           split; [exact Hne|]. split; [rewrite Hrot; apply centerAngle_midpoint|].
           apply Hmono. rewrite Hsnd. apply in_app_iff. right.
           apply in_map_iff. exists feature. auto.
        -- destruct (Hmore label Hlabel) as (t & f & Ht & Hrest').
           exists t, f. split; [right; exact Ht | exact Hrest'].
    + destruct (IH _ _ _ _ Hrun) as [Hmono Hmore]. split; [exact Hmono|].
      intros label Hlabel. destruct (Hmore label Hlabel) as (t & f & Ht & Hrest').
      exists t, f. split; [right; exact Ht | exact Hrest'].
Qed.

End LabelRendererFacts.

(** X11.  In the label loop of a track, the intervals reserved are those
    of the placement loop and do not depend on names: a feature without
    a name that is accepted reserves its interval and blocks later
    labels, but no text is drawn for it.  The texts drawn are those of
    the accepted features that have a name, in order. *)
Theorem labels_reserved_without_name `{Runtime} (centerX centerY : Q)
    (features : list Feature) (labelRadius genomeLength : Q)
    (rendered : list Utils.LabelAngle) (w : Q) :
  let result :=
    LabelRenderer.labelFeatures centerX centerY features labelRadius
      genomeLength rendered w in
  let accepted := fst (Utils.placeLabels features genomeLength rendered w) in
  snd result
  = rendered ++ map (fun f => Utils.labelAngle f genomeLength w) accepted
  /\ map LabelRenderer.label_text (fst result)
     = flat_map
         (fun f =>
            match feature_name f with
            | Some name => if String.eqb name "" then [] else [name]
            | None => []
            end)
         accepted.
Proof.
  cbv zeta.
  destruct (labelFeatures_placeLabels centerX centerY features labelRadius
              genomeLength rendered w) as [Hsnd Hfst].
  destruct (placeLabels_structure features genomeLength w rendered) as [_ Hst].
  split; [rewrite Hsnd; exact Hst|].
  rewrite Hfst.
  generalize (fst (Utils.placeLabels features genomeLength rendered w)).
  intros accepted. induction accepted as [|f l IH]; [reflexivity|].
  cbn [flat_map]. rewrite map_app, IH. f_equal.
  unfold LabelRenderer.renderCanvasLabel.
  destruct (feature_name f) as [name|]; [|reflexivity].
  destruct (String.eqb name ""); reflexivity.
Qed.

(** X12.  Every text [renderCanvasLabels] draws is the non-empty name of
    a feature of a visible track that passes [shouldRenderLabel]; it is
    rotated to the angular midpoint of the feature, which is the centre
    of the interval reserved for it in the collision array. *)
Theorem renderCanvasLabels_sound `{Runtime} (cfg : RenderConfig)
    (offset : Q) (levels : list LODManager.LODLevel)
    (centerX centerY radius : Q) (labelsVisible : bool) (zoomLevel : Q)
    (genome : CircularRenderer.Genome) (labelContainer : bool)
    (labels : list LabelRenderer.Label) (angles : list Utils.LabelAngle) :
  LabelRenderer.renderCanvasLabels cfg offset levels centerX centerY radius
    labelsVisible zoomLevel (Some genome) labelContainer
  = Some (labels, angles) ->
  forall label, In label labels ->
    labelsVisible = true /\ labelContainer = true
    /\ exists track feature,
         In track (CircularRenderer.genome_tracks genome)
         /\ track_visible track = true
         /\ In feature (track_features track)
         /\ LODPolicy.shouldRenderLabel levels feature zoomLevel = Some true
         /\ feature_name feature = Some (LabelRenderer.label_text label)
         /\ LabelRenderer.label_text label <> ""%string
         /\ LabelRenderer.label_rotation label
            == Utils.featureCenterAngle feature
                 (CircularRenderer.genome_length genome)
         /\ In (Utils.labelAngle feature (CircularRenderer.genome_length genome)
                  (LABEL_ANGLE_WIDTH cfg)) angles.
Proof.
  unfold LabelRenderer.renderCanvasLabels. intros Hrun label Hlabel.
  destruct labelsVisible, labelContainer; cbn [negb orb] in Hrun;
    try (injection Hrun as <- <-; destruct Hlabel).
  split; [reflexivity|]. split; [reflexivity|].
  apply labelTracks_sound in Hrun. destruct Hrun as [_ Hrun].
  apply Hrun, Hlabel.
Qed.

Lemma renderCanvasLabels_sound_witness :
  let genome :=
    CircularRenderer.mkGenome 10000
      [ mkTrack "t1" "genes" "CDS" true
          [ mkFeature "g1" (Some "dnaA"%string) "CDS" 100 400 StrandPlus ∅ None;
            mkFeature "g2" None "CDS" 2000 2400 StrandPlus ∅ None ] ] in
  exists labels angles,
    LabelRenderer.renderCanvasLabels exportConfig 20 LODManager.defaultLevels
      400 300 200 true 1 (Some genome) true = Some (labels, angles)
    /\ map LabelRenderer.label_text labels = ["dnaA"%string]
    /\ length angles = 2%nat
    /\ forall label, In label labels ->
         LabelRenderer.label_text label <> ""%string.
Proof.
  cbv zeta.
  destruct (LabelRenderer.renderCanvasLabels exportConfig 20
              LODManager.defaultLevels 400 300 200 true 1
              (Some (CircularRenderer.mkGenome 10000
                 [ mkTrack "t1" "genes" "CDS" true
                     [ mkFeature "g1" (Some "dnaA"%string) "CDS" 100 400
                         StrandPlus ∅ None;
                       mkFeature "g2" None "CDS" 2000 2400 StrandPlus ∅ None ] ]))
              true) as [[labels angles]|] eqn:Hrun.
  - exists labels, angles. split; [reflexivity|].
    pose proof (renderCanvasLabels_sound _ _ _ _ _ _ _ _ _ _ _ _ Hrun) as Hsound.
    vm_compute in Hrun. injection Hrun as <- <-.
    split; [reflexivity|]. split; [reflexivity|].
    intros label Hlabel.
    destruct (Hsound label Hlabel) as (_ & _ & t & f & _ & _ & _ & _ & _ & Hne & _).
    exact Hne.
  - vm_compute in Hrun. discriminate Hrun.
Defined.

Section MergeFacts.

Import UtilsMore.

Lemma Permutation_in_iff {A : Type} (l l' : list A) (x : A) :
  Permutation l l' -> (In x l <-> In x l').
Proof.
  intros Hp. split; apply Permutation_in; [exact Hp | symmetry; exact Hp].
Qed.

Lemma skewEntries_default (parseFloat : string -> option Q)
    (track : Track) (visible : bool) (z : Q) (test : Q -> bool) :
  exists entries,
    skewEntries parseFloat LODManager.defaultLevels (Some track) visible z test
    = Some entries
    /\ forall f v,
         In (f, v) entries <->
         visible = true /\ In f (track_features track)
         /\ gcValue parseFloat f = Some v /\ test v = true.
Proof.
  unfold skewEntries. destruct visible.
  - rewrite filterFeatures_default. eexists. split; [reflexivity|].
    intros f v. rewrite in_flat_map. split.
    + intros (g & Hg & Hin). destruct (gcValue parseFloat g) as [value|] eqn:Ev;
        [|destruct Hin].
      destruct (test value) eqn:Et; [|destruct Hin].
      destruct Hin as [[= <- <-]|[]]. auto.
    + intros (_ & Hf & Hv & Ht). exists f. split; [exact Hf|].
      rewrite Hv, Ht. left. reflexivity.
  - exists []. split; [reflexivity|]. intros f v. split; [intros [] |].
    intros [Hfalse _]. discriminate Hfalse.
Qed.

End MergeFacts.

(** X13.  With the default LOD table, the merged GC-skew list holds
    exactly the features of the visible plus track whose value is
    positive and the features of the visible minus track whose value is
    negative (a value that is zero or not a number is left out, and so is
    every feature of a hidden track), and it ascends by feature start. *)
Theorem mergeGCSkewFeatures_default (parseFloat : string -> option Q)
    (plus minus : Track) (plusVisible minusVisible : bool) (z : Q) :
  exists merged,
    UtilsMore.mergeGCSkewFeatures parseFloat LODManager.defaultLevels
      (Some plus) (Some minus) plusVisible minusVisible z = Some merged
    /\ Sorted (fun a b => feature_start (fst a) <= feature_start (fst b)) merged
    /\ forall f v,
         In (f, v) merged <->
         (plusVisible = true /\ In f (track_features plus)
          /\ UtilsMore.gcValue parseFloat f = Some v /\ 0 < v)
         \/ (minusVisible = true /\ In f (track_features minus)
             /\ UtilsMore.gcValue parseFloat f = Some v /\ v < 0).
Proof.
  unfold UtilsMore.mergeGCSkewFeatures.
  destruct (skewEntries_default parseFloat plus plusVisible z
              (fun value => Js.gt value 0)) as (ps & -> & Hps).
  destruct (skewEntries_default parseFloat minus minusVisible z
              (fun value => Js.lt value 0)) as (ms & -> & Hms).
  eexists. split; [reflexivity|]. split.
  - apply (sortByKey_sorted (fun entry : Feature * Q => feature_start (fst entry))).
  - intros f v.
    rewrite (Permutation_in_iff _ _ (f, v)
               (sortByKey_perm (fun entry : Feature * Q => feature_start (fst entry))
                  (ps ++ ms))).
    rewrite in_app_iff, Hps, Hms, gt_spec, lt_spec. reflexivity.
Qed.

(** ** Zoom and pan: how the calls compose *)

Section ViewFacts.

Import ZoomPanController CircularView.

Lemma sameTransform_refl (a : option Transform) : sameTransform a a.
Proof.
  destruct a as [[x y|x y s|t]|]; cbn; repeat split; reflexivity.
Qed.

Lemma Forall2_map_both {A B : Type} (R : B -> B -> Prop) (f g : A -> B)
    (l : list A) :
  (forall x, In x l -> R (f x) (g x)) -> Forall2 R (map f l) (map g l).
Proof.
  induction l as [|a l IH]; intros H; cbn [map]; constructor.
  - apply H. left. reflexivity.
  - apply IH. intros x Hx. apply H. right. exact Hx.
Qed.

End ViewFacts.

(** X14.  A zoom without an anchor point behaves differently on the two
    back ends.  On the canvas it discards the pan: whatever the position
    of the circle container was, the map centre ends at the midpoint of
    the canvas.  On SVG every scene group keeps its translation and only
    takes the new scale. *)
Theorem zoom_without_anchor (this : ZoomPanController.t) (level : Q) :
  (forall circle others,
     exists moved,
       ZoomPanController.setCanvasZoomLevel this level None
         (Some (circle :: others))
       = (ZoomPanController.withZoomLevel this level, Some (moved :: others))
       /\ ZoomPanController.point_x (ZoomPanController.position moved)
          + ZoomPanController.centerX this * level
          == ZoomPanController.width this / 2
       /\ ZoomPanController.point_y (ZoomPanController.position moved)
          + ZoomPanController.centerY this * level
          == ZoomPanController.height this / 2
       /\ ZoomPanController.scale moved = ZoomPanController.mkPoint level level)
  /\ (forall svg,
        exists svg',
          ZoomPanController.setSvgZoomLevel this level None (Some svg)
          = (ZoomPanController.withZoomLevel this level, Some svg')
          /\ forall i g pos,
               nth_error svg i = Some g ->
               ZoomPanController.isSceneGroup g = true ->
               ZoomPanController.groupPosition g = Some pos ->
               nth_error svg' i
               = Some (ZoomPanController.mkSvgGroup
                         (ZoomPanController.group_id g)
                         (Some (ZoomPanController.TranslateScale
                                  (ZoomPanController.point_x pos)
                                  (ZoomPanController.point_y pos) level)))).
Proof.
  split.
  - intros circle others. eexists. split; [reflexivity|].
    cbn [ZoomPanController.position ZoomPanController.point_x
         ZoomPanController.point_y ZoomPanController.scale].
    split; [ring|]. split; [ring | reflexivity].
  - intros svg. eexists. split; [reflexivity|].
    intros i g pos Hg Hscene Hpos.
    rewrite nth_error_eachSceneGroup, Hg. cbn [option_map]. rewrite Hscene.
    rewrite (groupPosition_matchTranslate g pos Hpos). reflexivity.
Qed.

Lemma zoom_without_anchor_witness :
  let this := ZoomPanController.mk 400 300 800 600 1 in
  let g := ZoomPanController.mkSvgGroup "featureContainer"
             (Some (ZoomPanController.Translate 35 (-20))) in
  exists svg',
    ZoomPanController.setSvgZoomLevel this 2 None (Some [g])
    = (ZoomPanController.withZoomLevel this 2, Some svg')
    /\ nth_error svg' 0
       = Some (ZoomPanController.mkSvgGroup "featureContainer"
                 (Some (ZoomPanController.TranslateScale 35 (-20) 2))).
Proof.
  cbv zeta.
  destruct (proj2 (zoom_without_anchor (ZoomPanController.mk 400 300 800 600 1) 2)
              [ZoomPanController.mkSvgGroup "featureContainer"
                 (Some (ZoomPanController.Translate 35 (-20)))])
    as (svg' & Heq & Hgroups).
  exists svg'. split; [exact Heq|].
  exact (Hgroups 0%nat _ (ZoomPanController.mkPoint 35 (-20))
           eq_refl eq_refl eq_refl).
Defined.

(** X15.  Pans add up: on either back end two pans in a row leave the
    circle container, and every SVG group, where one pan by the sum of the
    two offsets leaves it. *)
Theorem pans_add_up (a b : ZoomPanController.Point) :
  let sum := ZoomPanController.mkPoint
               (ZoomPanController.point_x a + ZoomPanController.point_x b)
               (ZoomPanController.point_y a + ZoomPanController.point_y b) in
  (forall circle others svg,
     exists twice once,
       fst (ZoomPanController.setPanOffset b
              (fst (ZoomPanController.setPanOffset a (Some (circle :: others))
                      svg "canvas")) svg "canvas")
       = Some (twice :: others)
       /\ fst (ZoomPanController.setPanOffset sum (Some (circle :: others))
                 svg "canvas")
          = Some (once :: others)
       /\ ZoomPanController.samePoint (ZoomPanController.position twice)
            (ZoomPanController.position once)
       /\ ZoomPanController.scale twice = ZoomPanController.scale once)
  /\ (forall stage svg,
        exists twice once,
          snd (ZoomPanController.setPanOffset b stage
                 (snd (ZoomPanController.setPanOffset a stage (Some svg) "svg"))
                 "svg")
          = Some twice
          /\ snd (ZoomPanController.setPanOffset sum stage (Some svg) "svg")
             = Some once
          /\ Forall2 CircularView.sameGroup twice once).
Proof.
  cbv zeta. split.
  - intros circle others svg. eexists _, _.
    split; [reflexivity|]. split; [reflexivity|].
    split; [|reflexivity].
    unfold ZoomPanController.samePoint.
    cbn [ZoomPanController.position ZoomPanController.point_x
         ZoomPanController.point_y].
    split; ring.
  - intros stage svg. eexists _, _.
    split; [reflexivity|]. split; [reflexivity|].
    unfold ZoomPanController.eachSceneGroup. rewrite map_map.
    apply Forall2_map_both. intros g _.
    destruct (ZoomPanController.isSceneGroup g) eqn:Hscene.
    + assert (Hscene' : forall t,
                ZoomPanController.isSceneGroup
                  (ZoomPanController.mkSvgGroup (ZoomPanController.group_id g) t)
                = true) by (intros t; exact Hscene).
      destruct (ZoomPanController.matchTranslate
                  (ZoomPanController.group_transform g)) as [[x y]|];
        rewrite Hscene'; cbn; (split; [reflexivity|]); split; ring.
    + rewrite Hscene. split; [reflexivity | apply sameTransform_refl].
Qed.

(** X16.  Anchored zooms at one point compose: on the canvas, zooming to
    a non-zero level and then to a second level about the same point
    leaves the circle container where a single zoom to the second level
    leaves it; in particular zooming away and back to the starting level
    restores the position. *)
Theorem anchored_zooms_compose (this : ZoomPanController.t) (l1 l2 : Q)
    (p : ZoomPanController.Point) (circle : ZoomPanController.Container)
    (others : list ZoomPanController.Container) :
  ~ ZoomPanController.zoomLevel this == 0 ->
  ~ l1 == 0 ->
  let first := ZoomPanController.setCanvasZoomLevel this l1 (Some p)
                 (Some (circle :: others)) in
  let second := ZoomPanController.setCanvasZoomLevel (fst first) l2 (Some p)
                  (snd first) in
  let direct := ZoomPanController.setCanvasZoomLevel this l2 (Some p)
                  (Some (circle :: others)) in
  exists twice once,
    snd second = Some (twice :: others)
    /\ snd direct = Some (once :: others)
    /\ fst second = fst direct
    /\ ZoomPanController.samePoint (ZoomPanController.position twice)
         (ZoomPanController.position once)
    /\ ZoomPanController.scale twice = ZoomPanController.scale once
    /\ (l2 == ZoomPanController.zoomLevel this ->
        ZoomPanController.samePoint (ZoomPanController.position twice)
          (ZoomPanController.position circle)).
Proof.
  intros Hz Hl1. cbv zeta. eexists _, _.
  split; [reflexivity|]. split; [reflexivity|]. split; [reflexivity|].
  unfold ZoomPanController.samePoint.
  cbn [ZoomPanController.setCanvasZoomLevel ZoomPanController.withZoomLevel
       ZoomPanController.zoomLevel ZoomPanController.position
       ZoomPanController.point_x ZoomPanController.point_y fst snd
       ZoomPanController.scale].
  split; [split; field; split; assumption|].
  split; [reflexivity|].
  intros Hback. rewrite Hback. split; field; split; assumption.
Qed.

Lemma anchored_zooms_compose_witness :
  let this := ZoomPanController.mk 400 300 800 600 1 in
  let p := ZoomPanController.mkPoint 100 100 in
  let circle :=
    ZoomPanController.mkContainer (ZoomPanController.mkPoint 30 40)
      (ZoomPanController.mkPoint 1 1) in
  ~ ZoomPanController.zoomLevel this == 0 /\ ~ 2.5 == 0
  /\ exists twice,
       snd (ZoomPanController.setCanvasZoomLevel
              (fst (ZoomPanController.setCanvasZoomLevel this 2.5 (Some p)
                      (Some [circle])))
              1 (Some p)
              (snd (ZoomPanController.setCanvasZoomLevel this 2.5 (Some p)
                      (Some [circle]))))
       = Some [twice]
       /\ ZoomPanController.samePoint (ZoomPanController.position twice)
            (ZoomPanController.mkPoint 30 40).
Proof.
  cbv zeta.
  assert (H1 : ~ ZoomPanController.zoomLevel
                   (ZoomPanController.mk 400 300 800 600 1) == 0)
    by (vm_compute; discriminate).
  assert (H2 : ~ 2.5 == 0) by (vm_compute; discriminate).
  split; [exact H1|]. split; [exact H2|].
  destruct (anchored_zooms_compose (ZoomPanController.mk 400 300 800 600 1)
              2.5 1 (ZoomPanController.mkPoint 100 100)
              (ZoomPanController.mkContainer (ZoomPanController.mkPoint 30 40)
                 (ZoomPanController.mkPoint 1 1)) [] H1 H2)
    as (twice & once & Hsecond & _ & _ & _ & _ & Hback).
  exists twice. split; [exact Hsecond|].
  apply Hback. reflexivity.
Defined.

Section ResetFacts.

Import ZoomPanController CircularView.

Lemma find_map_same {A : Type} (p : A -> bool) (f : A -> A) (l : list A) :
  (forall x, p (f x) = p x) ->
  find p (map f l) = option_map f (find p l).
Proof.
  intros Hp. induction l as [|a l IH]; cbn [map find]; [reflexivity|].
  rewrite Hp. destruct (p a); [reflexivity | exact IH].
Qed.

Lemma find_eachSceneGroup (f : SvgGroup -> SvgGroup) (svg : Svg) (name : string) :
  (forall g, group_id (f g) = group_id g) ->
  find (fun g => String.eqb (group_id g) name) (eachSceneGroup f svg)
  = option_map (fun g => if isSceneGroup g then f g else g)
      (find (fun g => String.eqb (group_id g) name) svg).
Proof.
  intros Hid. unfold eachSceneGroup. apply find_map_same.
  intros g. destruct (isSceneGroup g); [rewrite Hid|]; reflexivity.
Qed.

Lemma featureContainer_scene (g : SvgGroup) :
  String.eqb (group_id g) "featureContainer" = true -> isSceneGroup g = true.
Proof.
  intros Hid. unfold isSceneGroup. rewrite Hid.
  destruct (String.eqb (group_id g) "gridContainer"); reflexivity.
Qed.

(** The feature group after an SVG zoom: still there, under its id. *)
Lemma zoom_featureContainer (this : ZoomPanController.t) (level : Q)
    (point : option Point) (svg : Svg) (g : SvgGroup) :
  find (fun g => String.eqb (group_id g) "featureContainer") svg = Some g ->
  exists svg1 g1,
    setSvgZoomLevel this level point (Some svg)
    = (withZoomLevel this level, Some svg1)
    /\ find (fun g => String.eqb (group_id g) "featureContainer") svg1 = Some g1.
Proof.
  intros Hfind. destruct point as [p|]; cbn [setSvgZoomLevel];
    eexists _, _; (split; [reflexivity|]);
    (rewrite find_eachSceneGroup;
       [rewrite Hfind; cbn [option_map]; reflexivity|]);
    intros g0; destruct (matchTranslate (group_transform g0)) as [[? ?]|];
    reflexivity.
Qed.

(** The feature group after an SVG pan: a bare translation. *)
Lemma pan_featureContainer (offset : Point) (stage : option Stage) (svg : Svg)
    (g : SvgGroup) :
  find (fun g => String.eqb (group_id g) "featureContainer") svg = Some g ->
  exists svg2 tx ty,
    ZoomPanController.setPanOffset offset stage (Some svg) "svg"
    = (stage, Some svg2)
    /\ find (fun g => String.eqb (group_id g) "featureContainer") svg2
       = Some (mkSvgGroup (group_id g) (Some (Translate tx ty))).
Proof.
  intros Hfind.
  assert (Hscene : isSceneGroup g = true)
    by (apply featureContainer_scene; apply find_some in Hfind; tauto).
  cbn [ZoomPanController.setPanOffset String.eqb Ascii.eqb Bool.eqb].
  destruct (matchTranslate (group_transform g)) as [[cx cy]|] eqn:Hm;
    eexists _, _, _; (split; [reflexivity|]);
    (rewrite find_eachSceneGroup;
       [rewrite Hfind; cbn [option_map]; rewrite Hscene, Hm; reflexivity|]);
    intros g0; destruct (matchTranslate (group_transform g0)) as [[? ?]|];
    reflexivity.
Qed.

End ResetFacts.

(** X17.  [resetView] resets the pan on the canvas only.  On the canvas
    the circle container ends at scale 1 with the map centre at the
    midpoint of the canvas, wherever it was before.  On SVG every scene
    group keeps the translation it had and ends with a transform without
    a scale. *)
Theorem resetView_by_backend (view : CircularView.View) :
  (forall circle others,
     CircularView.rendererType view = "canvas"%string ->
     CircularView.stage view = Some (circle :: others) ->
     exists moved,
       CircularView.stage (CircularView.resetView view) = Some (moved :: others)
       /\ CircularView.viewZoom (CircularView.resetView view) = 1
       /\ ZoomPanController.scale moved = ZoomPanController.mkPoint 1 1
       /\ ZoomPanController.point_x (ZoomPanController.position moved)
          + ZoomPanController.centerX (CircularView.controller view)
          == ZoomPanController.width (CircularView.controller view) / 2
       /\ ZoomPanController.point_y (ZoomPanController.position moved)
          + ZoomPanController.centerY (CircularView.controller view)
          == ZoomPanController.height (CircularView.controller view) / 2)
  /\ (forall svg,
        CircularView.rendererType view = "svg"%string ->
        CircularView.svgContainer view = Some svg ->
        exists svg',
          CircularView.svgContainer (CircularView.resetView view) = Some svg'
          /\ CircularView.viewZoom (CircularView.resetView view) = 1
          /\ forall i g pos,
               nth_error svg i = Some g ->
               ZoomPanController.isSceneGroup g = true ->
               ZoomPanController.groupPosition g = Some pos ->
               exists x y,
                 nth_error svg' i
                 = Some (ZoomPanController.mkSvgGroup
                           (ZoomPanController.group_id g)
                           (Some (ZoomPanController.Translate x y)))
                 /\ x == ZoomPanController.point_x pos
                 /\ y == ZoomPanController.point_y pos).
Proof.
  split.
  - intros circle others Htype Hstage.
    unfold CircularView.resetView, CircularView.setZoomLevel,
      CircularView.setPanOffset.
    rewrite Htype, Hstage.
    cbn [String.eqb Ascii.eqb Bool.eqb ZoomPanController.setCanvasZoomLevel
         CircularView.rendererType CircularView.stage CircularView.svgContainer
         CircularView.viewZoom CircularView.controller
         ZoomPanController.setPanOffset ZoomPanController.withZoomLevel
         ZoomPanController.position ZoomPanController.scale
         ZoomPanController.point_x ZoomPanController.point_y
         ZoomPanController.centerX ZoomPanController.centerY
         ZoomPanController.width ZoomPanController.height].
    eexists. split; [reflexivity|].
    split; [reflexivity|]. split; [reflexivity|].
    cbn [ZoomPanController.position ZoomPanController.point_x
         ZoomPanController.point_y].
    split; ring.
  - intros svg Htype Hsvg.
    unfold CircularView.resetView, CircularView.setZoomLevel,
      CircularView.setPanOffset.
    rewrite Htype, Hsvg. cbn [String.eqb Ascii.eqb Bool.eqb
      ZoomPanController.setSvgZoomLevel CircularView.rendererType
      CircularView.stage CircularView.svgContainer CircularView.viewZoom
      CircularView.controller ZoomPanController.setPanOffset].
    eexists. split; [reflexivity|]. split; [reflexivity|].
    intros i g pos Hg Hscene Hpos.
    rewrite !nth_error_eachSceneGroup, Hg. cbn [option_map]. rewrite Hscene.
    rewrite (groupPosition_matchTranslate g pos Hpos).
    assert (Hscene' : forall t,
              ZoomPanController.isSceneGroup
                (ZoomPanController.mkSvgGroup (ZoomPanController.group_id g) t)
              = true) by (intros t; exact Hscene).
    rewrite Hscene'. cbn. eexists _, _. split; [reflexivity|]. split; ring.
Qed.

Lemma resetView_by_backend_witness :
  let controller := ZoomPanController.mk 400 300 800 600 2 in
  let g := ZoomPanController.mkSvgGroup "featureContainer"
             (Some (ZoomPanController.TranslateScale 35 (-20) 2)) in
  let view := CircularView.mkView "svg" None (Some [g]) 2 controller in
  CircularView.svgContainer (CircularView.resetView view)
  = Some [ZoomPanController.mkSvgGroup "featureContainer"
            (Some (ZoomPanController.Translate (35 + 0) (-20 + 0)))]
  /\ exists svg',
       CircularView.svgContainer (CircularView.resetView view) = Some svg'
       /\ CircularView.viewZoom (CircularView.resetView view) = 1.
Proof.
  cbv zeta. split; [reflexivity|].
  destruct (proj2 (resetView_by_backend
                     (CircularView.mkView "svg" None
                        (Some [ZoomPanController.mkSvgGroup "featureContainer"
                                 (Some (ZoomPanController.TranslateScale 35 (-20) 2))])
                        2 (ZoomPanController.mk 400 300 800 600 2)))
              _ eq_refl eq_refl) as (svg' & Hsvg & Hzoom & _).
  exists svg'. split; [exact Hsvg | exact Hzoom].
Defined.

(** X18.  The hit test and the SVG pan disagree about the scale.  On SVG
    a pan rewrites the transform of every scene group without its scale,
    so after a zoom to any level followed by a pan the hit test, which
    reads the scale from the transform of the feature group, divides the
    pointer offset by 1 and not by the zoom level. *)
Theorem svg_hit_test_after_pan (view : CircularView.View) (svg : ZoomPanController.Svg)
    (level : Q) (point : option ZoomPanController.Point)
    (offset : ZoomPanController.Point) (g : ZoomPanController.SvgGroup) :
  CircularView.rendererType view = "svg"%string ->
  CircularView.svgContainer view = Some svg ->
  find (fun g => String.eqb (ZoomPanController.group_id g) "featureContainer") svg
  = Some g ->
  let view' :=
    CircularView.setPanOffset (CircularView.setZoomLevel view level point) offset in
  CircularView.viewZoom view' = level
  /\ exists tx ty,
       forall x y,
         CircularView.adjusted view' x y = Some ((x - tx) / 1, (y - ty) / 1).
Proof.
  intros Htype Hsvg Hfind. cbv zeta.
  destruct (zoom_featureContainer (CircularView.controller view) level point
              svg g Hfind) as (svg1 & g1 & Hzoom & Hfind1).
  destruct (pan_featureContainer offset (CircularView.stage view) svg1 g1 Hfind1)
    as (svg2 & tx & ty & Hpan & Hfind2).
  unfold CircularView.setPanOffset, CircularView.setZoomLevel.
  rewrite Htype, Hsvg. cbn [String.eqb Ascii.eqb Bool.eqb]. rewrite Hzoom.
  cbn [CircularView.rendererType CircularView.stage CircularView.svgContainer
       CircularView.viewZoom CircularView.controller].
  rewrite Hpan. cbn [CircularView.viewZoom]. split; [reflexivity|].
  exists tx, ty. intros x y. unfold CircularView.adjusted.
  cbn [String.eqb Ascii.eqb Bool.eqb CircularView.rendererType
       CircularView.svgContainer CircularView.stage].
  rewrite Hfind2. reflexivity.
Qed.

Lemma svg_hit_test_after_pan_witness :
  let controller := ZoomPanController.mk 400 300 800 600 1 in
  let g := ZoomPanController.mkSvgGroup "featureContainer" None in
  let view := CircularView.mkView "svg" None (Some [g]) 1 controller in
  let view' :=
    CircularView.setPanOffset
      (CircularView.setZoomLevel view 2 (Some (ZoomPanController.mkPoint 100 100)))
      (ZoomPanController.mkPoint 10 0) in
  CircularView.viewZoom view' = 2
  /\ CircularView.adjusted view' 300 300
     = Some ((300 - (100 - (100 - 0) * (2 / 1) + 10)) / 1,
             (300 - (100 - (100 - 0) * (2 / 1) + 0)) / 1).
Proof.
  cbv zeta. split.
  - exact (proj1 (svg_hit_test_after_pan
                    (CircularView.mkView "svg" None
                       (Some [ZoomPanController.mkSvgGroup "featureContainer" None])
                       1 (ZoomPanController.mk 400 300 800 600 1))
                    _ 2 (Some (ZoomPanController.mkPoint 100 100))
                    (ZoomPanController.mkPoint 10 0) _ eq_refl eq_refl eq_refl)).
  - reflexivity.
Defined.

(** ** Hit testing *)

Section HitTestFacts.

Import FeatureRenderer CircularRenderer HitTest.

Lemma nonGCRanges_bands (tracks : list Track) (r h s : Q) :
  Forall2 sameRing (fst (nonGCRanges tracks r h s))
    (fst (renderCanvasNonGCTracks tracks r h s))
  /\ snd (nonGCRanges tracks r h s) = snd (renderCanvasNonGCTracks tracks r h s).
Proof.
  revert r; induction tracks as [|t rest IH]; intros r.
  - cbn. split; [constructor | reflexivity].
  - cbn [nonGCRanges renderCanvasNonGCTracks].
    specialize (IH (r - (h + s))).
    destruct (nonGCRanges rest (r - (h + s)) h s) as [ranges final].
    destruct (renderCanvasNonGCTracks rest (r - (h + s)) h s) as [bands final'].
    cbn [fst snd] in *. destruct IH as [Hall Hfinal]. split; [|exact Hfinal].
    constructor; [|exact Hall].
    unfold sameRing; cbn. split; [reflexivity|]. split; [ring | reflexivity].
Qed.

Lemma closestFrom_spec (features : list Feature) (pos len : Q)
    (closest : option Feature) (minDistance : option Q) :
  consistent pos len closest minDistance ->
  match closestFrom features pos len closest minDistance with
  | None =>
      closest = None /\ forall g, In g features -> eligible g = false
  | Some f =>
      (closest = Some f \/ (In f features /\ eligible f = true))
      /\ (forall g, In g features -> eligible g = true ->
            circularDistance f pos len <= circularDistance g pos len)
      /\ (forall c, closest = Some c ->
            circularDistance f pos len <= circularDistance c pos len)
  end.
Proof.
  revert closest minDistance; induction features as [|h rest IH];
    intros closest minDistance Hc; cbn [closestFrom].
  - destruct closest as [c|].
    + split; [left; reflexivity|]. split; [intros g []|].
      intros c' [= <-]. apply Qle_refl.
    + split; [reflexivity | intros g []].
  - destruct (eligible h) eqn:Eh.
    + set (d := circularDistance h pos len).
      destruct (match minDistance with
                | Some m => Js.lt d m
                | None => true
                end) eqn:Ecloser.
      * specialize (IH (Some h) (Some d) eq_refl).
        destruct (closestFrom rest pos len (Some h) (Some d)) as [f|].
        -- destruct IH as (Hsrc & Hmin & Hstart).
           split; [|split].
           ++ destruct Hsrc as [[= <-]|[Hin He]];
                right; (split; [|assumption]); [left; reflexivity | right; exact Hin].
           ++ intros g [<-|Hg] Hel; [apply Hstart; reflexivity | apply Hmin; assumption].
           ++ intros c ->. destruct minDistance as [m|]; [|destruct Hc].
              cbn in Hc. subst m. apply lt_spec in Ecloser.
              apply Qle_trans with d; [apply Hstart; reflexivity|].
              apply Qlt_le_weak, Ecloser.
        -- destruct IH as [Hnone _]. discriminate Hnone.
      * destruct minDistance as [m|]; [|discriminate Ecloser].
        destruct closest as [c|]; [|destruct Hc]. cbn in Hc. subst m.
        apply lt_false in Ecloser.
        specialize (IH (Some c) (Some (circularDistance c pos len)) eq_refl).
        destruct (closestFrom rest pos len (Some c)
                    (Some (circularDistance c pos len))) as [f|].
        -- destruct IH as (Hsrc & Hmin & Hstart).
           split; [|split].
           ++ destruct Hsrc as [Hsrc|[Hin He]]; [left; exact Hsrc|].
              right. split; [right; exact Hin | exact He].
           ++ intros g [<-|Hg] Hel; [|apply Hmin; assumption].
              apply Qle_trans with (circularDistance c pos len);
                [apply Hstart; reflexivity | exact Ecloser].
           ++ exact Hstart.
        -- destruct IH as [Hnone _]. discriminate Hnone.
    + specialize (IH closest minDistance Hc).
      destruct (closestFrom rest pos len closest minDistance) as [f|].
      * destruct IH as (Hsrc & Hmin & Hstart). split; [|split].
        -- destruct Hsrc as [Hsrc|[Hin He]]; [left; exact Hsrc|].
           right. split; [right; exact Hin | exact He].
        -- intros g [<-|Hg] Hel; [congruence | apply Hmin; assumption].
        -- exact Hstart.
      * destruct IH as [Hnone Hrest]. split; [exact Hnone|].
        intros g [<-|Hg]; [exact Eh | apply Hrest, Hg].
Qed.

End HitTestFacts.

(** X19.  With the configured track heights and spacing equal to the
    literals of the hit test (15, 30 and 5), the rings the hit test
    searches are the rings the canvas draws: the same number, in the same
    order, each with the outer radius, height and track type of the band
    drawn. *)
Theorem hit_ranges_match_bands (cfg : RenderConfig) (radius len : Q)
    (tracks : list Track) :
  MIN_TRACK_HEIGHT cfg = 15 -> MAX_TRACK_HEIGHT cfg = 30 ->
  TRACK_SPACING cfg = 5 ->
  Forall2 HitTest.sameRing (HitTest.trackRanges radius tracks)
    (CircularRenderer.renderCanvasFeatures cfg radius
       (Some (CircularRenderer.mkGenome len tracks))).
Proof.
  intros Hmin Hmax Hsp.
  unfold HitTest.trackRanges, CircularRenderer.renderCanvasFeatures,
    FeatureRenderer.calculateTrackHeight, HitTest.hitTrackHeight.
  cbn [CircularRenderer.genome_tracks]. rewrite Hmin, Hmax, Hsp.
  set (visible := List.filter track_visible _).
  set (gcC := CircularRenderer.foundVisible
                (find (CircularRenderer.isType "gc_content") tracks)).
  set (gcP := CircularRenderer.foundVisible
                (find (CircularRenderer.isType "gc_skew_plus") tracks)).
  set (gcM := CircularRenderer.foundVisible
                (find (CircularRenderer.isType "gc_skew_minus") tracks)).
  set (h := Js.Math_min 30 _).
  destruct (nonGCRanges_bands visible radius h 5) as [Hall Hfinal].
  destruct (HitTest.nonGCRanges visible radius h 5) as [ranges r1].
  destruct (FeatureRenderer.renderCanvasNonGCTracks visible radius h 5)
    as [bands r1'].
  cbn [fst snd] in Hall, Hfinal. subst r1'.
  assert (Hgc : exists ranges2 bands2 r2 r2',
    match find (CircularRenderer.isType "gc_content") tracks with
    | Some track =>
        if gcC then
          (ranges ++ [HitTest.mkTrackRange (Some track) (r1 - h) r1],
           r1 - (h + 5))
        else (ranges, r1)
    | None => (ranges, r1)
    end = (ranges2, r2)
    /\ match find (CircularRenderer.isType "gc_content") tracks with
       | Some track =>
           if gcC then
             let '(band, r) := FeatureRenderer.renderCanvasGCTrack track r1 h 5 in
             (bands ++ [band], r)
           else (bands, r1)
       | None => (bands, r1)
       end = (bands2, r2')
    /\ Forall2 HitTest.sameRing ranges2 bands2 /\ r2 == r2').
  { destruct (find (CircularRenderer.isType "gc_content") tracks) as [t|].
    - destruct gcC.
      + eexists _, _, _, _. split; [reflexivity|]. split; [reflexivity|].
        split; [|ring].
        apply Forall2_app; [exact Hall|]. constructor; [|constructor].
        unfold HitTest.sameRing; cbn. split; [reflexivity|].
        split; [ring | reflexivity].
      + exists ranges, bands, r1, r1. split; [reflexivity|]. split; [reflexivity|].
        split; [exact Hall | reflexivity].
    - exists ranges, bands, r1, r1. split; [reflexivity|]. split; [reflexivity|].
        split; [exact Hall | reflexivity]. }
  destruct Hgc as (ranges2 & bands2 & r2 & r2' & -> & -> & Hall2 & Hr2).
  destruct (gcP || gcM); [|exact Hall2].
  unfold FeatureRenderer.renderCanvasGCSkewTracks.
  apply Forall2_app; [exact Hall2|]. constructor; [|constructor].
  unfold HitTest.sameRing; cbn. split; [exact Hr2|].
  split; [ring|]. destruct gcP; reflexivity.
Qed.

Lemma hit_ranges_match_bands_witness :
  let tracks :=
    [ mkTrack "t1" "genes" "CDS" true [];
      mkTrack "t2" "GC content" "gc_content" true [];
      mkTrack "t3" "tRNA" "tRNA" false [];
      mkTrack "t4" "GC skew-" "gc_skew_minus" true [] ] in
  MIN_TRACK_HEIGHT exportConfig = 15 /\ MAX_TRACK_HEIGHT exportConfig = 30
  /\ TRACK_SPACING exportConfig = 5
  /\ map HitTest.range_outerRadius (HitTest.trackRanges 200 tracks)
     = [200; 200 - (30 + 5); 200 - (30 + 5) - (30 + 5)]
  /\ Forall2 HitTest.sameRing (HitTest.trackRanges 200 tracks)
       (CircularRenderer.renderCanvasFeatures exportConfig 200
          (Some (CircularRenderer.mkGenome 10000 tracks))).
Proof.
  cbv zeta. split; [reflexivity|]. split; [reflexivity|].
  split; [reflexivity|]. split; [reflexivity|].
  apply hit_ranges_match_bands; reflexivity.
Defined.

(** X20.  The feature the hit test reports lies on a track whose ring
    contains the pointer, is one of the features the test considers, and
    is at least as close along the circle to the pointer's genomic
    position as every other such feature of that track.  It reports
    nothing exactly when no ring contains the pointer, or the ring found
    has no track or no feature to consider. *)
Theorem hoveredFeature_nearest (radius : Q) (genome : CircularRenderer.Genome)
    (distance genomePosition : Q) :
  let ranges := HitTest.trackRanges radius (CircularRenderer.genome_tracks genome) in
  let len := CircularRenderer.genome_length genome in
  match HitTest.hoveredFeature radius (Some genome) distance genomePosition with
  | Some f =>
      exists range track,
        In range ranges /\ HitTest.range_track range = Some track
        /\ HitTest.range_innerRadius range <= distance
        /\ distance <= HitTest.range_outerRadius range
        /\ In f (track_features track) /\ HitTest.eligible f = true
        /\ forall g, In g (track_features track) -> HitTest.eligible g = true ->
             HitTest.circularDistance f genomePosition len
             <= HitTest.circularDistance g genomePosition len
  | None =>
      (forall range, In range ranges -> HitTest.inRange distance range = false)
      \/ exists range,
           In range ranges /\ HitTest.inRange distance range = true
           /\ forall track, HitTest.range_track range = Some track ->
                forall g, In g (track_features track) -> HitTest.eligible g = false
  end.
Proof.
  cbv zeta. unfold HitTest.hoveredFeature, HitTest.rangeAt.
  set (ranges := HitTest.trackRanges radius (CircularRenderer.genome_tracks genome)).
  destruct (find (HitTest.inRange distance) (rev ranges)) as [range|] eqn:Hfind.
  - apply find_some in Hfind. destruct Hfind as [Hin Hrange].
    apply in_rev in Hin.
    destruct (HitTest.range_track range) as [track|] eqn:Htrack.
    + pose proof (closestFrom_spec (track_features track) genomePosition
                    (CircularRenderer.genome_length genome) None None I) as Hspec.
      destruct (HitTest.closestFrom (track_features track) genomePosition
                  (CircularRenderer.genome_length genome) None None) as [f|].
      * destruct Hspec as ([Hsrc|[Hf He]] & Hmin & _); [discriminate Hsrc|].
        exists range, track. unfold HitTest.inRange in Hrange.
        apply andb_true_iff in Hrange. destruct Hrange as [Hlo Hhi].
        apply ge_spec in Hlo. apply le_spec in Hhi.
        repeat split; assumption.
      * right. exists range. split; [exact Hin|]. split; [exact Hrange|].
        intros track' Htrack'. rewrite Htrack in Htrack'.
        injection Htrack' as <-. exact (proj2 Hspec).
    + right. exists range. split; [exact Hin|]. split; [exact Hrange|].
      intros track' Htrack'. rewrite Htrack in Htrack'. discriminate Htrack'.
  - left. intros range Hin.
    apply (find_none _ _ Hfind). apply in_rev in Hin. exact Hin.
Qed.

(** The last scenario of the specification: one CDS track with one
    feature, the pointer in its ring. *)
Example hoveredFeature_scenario :
  let f := featureAt "f1" 1 100 in
  let genome :=
    CircularRenderer.mkGenome 5000 [mkTrack "t1" "CDS" "CDS" true [f]] in
  HitTest.hoveredFeature 200 (Some genome) 190 50 = Some f
  /\ HitTest.hoveredFeature 200 (Some genome) 100 50 = None.
Proof. split; vm_compute; reflexivity. Qed.

(** ** Zoom controls *)

Section ZoomControlFacts.

Import ZoomPanController CircularView ZoomControls.

Lemma viewZoom_setZoomLevel (view : View) (level : Q) (point : option Point) :
  viewZoom (setZoomLevel view level point) = level.
Proof.
  unfold setZoomLevel.
  destruct (String.eqb (rendererType view) "canvas").
  - destruct (setCanvasZoomLevel _ _ _ _); reflexivity.
  - destruct (setSvgZoomLevel _ _ _ _); reflexivity.
Qed.

Lemma viewZoom_setPanOffset (view : View) (offset : Point) :
  viewZoom (CircularView.setPanOffset view offset) = viewZoom view.
Proof.
  unfold CircularView.setPanOffset.
  destruct (ZoomPanController.setPanOffset _ _ _ _); reflexivity.
Qed.

Lemma zoomIn_inRange (z : Q) : inRange z -> inRange (Js.Math_min (z * 1.2) 10).
Proof.
  intros [Hlo Hhi]. unfold Js.Math_min. split.
  - apply Q.min_glb; lra.
  - apply Q.le_min_r.
Qed.

Lemma zoomOut_inRange (z : Q) : inRange z -> inRange (Js.Math_max (z * 0.8) 0.1).
Proof.
  intros [Hlo Hhi]. unfold Js.Math_max. split.
  - apply Q.le_max_r.
  - apply Q.max_lub; lra.
Qed.

Lemma wheel_inRange (z delta : Q) :
  inRange (Js.Math_max 0.1 (Js.Math_min (z * delta) 10)).
Proof.
  unfold Js.Math_max, Js.Math_min. split.
  - apply Q.le_max_l.
  - apply Q.max_lub; [lra | apply Q.le_min_r].
Qed.

Lemma onEvent_settled (ui : Ui) (e : Event) :
  settled ui -> settled (onEvent ui e).
Proof.
  intros [Hc Hd]. destruct e; cbn [onEvent].
  - split; [apply zoomIn_inRange; exact Hc | exact Hd].
  - split; [apply zoomOut_inRange; exact Hc | exact Hd].
  - split; [unfold inRange; cbn [controlsZoom]; split; lra | exact Hd].
  - destruct (cgview ui); [|split; assumption].
    split; [exact Hc | apply wheel_inRange].
Qed.

Lemma run_settled (events : list Event) (ui : Ui) :
  settled ui -> settled (run ui events).
Proof.
  unfold run. revert ui.
  induction events as [|e events IH]; intros ui H; [exact H|].
  cbn [fold_left]. apply IH, onEvent_settled, H.
Qed.

Lemma onEvent_view_inRange (ui : Ui) (e : Event) (view : View) :
  settled ui -> cgview ui = Some view ->
  exists view', cgview (onEvent ui e) = Some view' /\ inRange (viewZoom view').
Proof.
  intros [Hc Hd] Hv. destruct e; cbn [onEvent]; rewrite Hv;
    cbn [callSetZoomLevel callSetPanOffset cgview].
  - eexists; split; [reflexivity|].
    rewrite viewZoom_setZoomLevel. apply zoomIn_inRange, Hc.
  - eexists; split; [reflexivity|].
    rewrite viewZoom_setZoomLevel. apply zoomOut_inRange, Hc.
  - eexists; split; [reflexivity|].
    rewrite viewZoom_setPanOffset, viewZoom_setZoomLevel. split; lra.
  - eexists; split; [reflexivity|].
    rewrite viewZoom_setZoomLevel. apply wheel_inRange.
Qed.

Lemma onEvent_keeps_view (ui : Ui) (e : Event) (view : View) :
  cgview ui = Some view -> exists view', cgview (onEvent ui e) = Some view'.
Proof.
  intros Hv. destruct e; cbn [onEvent]; rewrite Hv;
    cbn [callSetZoomLevel callSetPanOffset cgview]; eexists; reflexivity.
Qed.

Lemma run_keeps_view (events : list Event) (ui : Ui) (view : View) :
  cgview ui = Some view -> exists view', cgview (run ui events) = Some view'.
Proof.
  unfold run. revert ui view.
  induction events as [|e events IH]; intros ui view Hv.
  - exists view. exact Hv.
  - cbn [fold_left].
    destruct (onEvent_keeps_view ui e view Hv) as [view' Hv'].
    exact (IH _ _ Hv').
Qed.

Lemma run_app (ui : Ui) (events more : list Event) :
  run ui (events ++ more) = run (run ui events) more.
Proof. unfold run. apply fold_left_app. Qed.

Lemma initial_settled (cgview : option View) : settled (initial cgview).
Proof. unfold settled, initial, inRange; cbn; repeat split; lra. Qed.

(** X21. Whatever the buttons and the wheel are used for, and whatever
    zoom the view started with, after the first event the level held by
    the renderer lies between 0.1 and 10 -- in particular it is never 0
    -- and so do the counters of the two managers. *)
Theorem ui_zoom_stays_in_range (view : View) (events : list Event) (e : Event) :
  let ui := run (initial (Some view)) (events ++ [e]) in
  inRange (controlsZoom ui) /\ inRange (dragZoom ui)
  /\ exists view', cgview ui = Some view' /\ inRange (viewZoom view')
                   /\ ~ viewZoom view' == 0.
Proof.
  cbn zeta. rewrite run_app.
  pose proof (run_settled events _ (initial_settled (Some view))) as Hs.
  destruct (run_keeps_view events (initial (Some view)) view eq_refl)
    as [v Hv].
  pose proof (onEvent_settled _ e Hs) as [Hc Hd].
  destruct (onEvent_view_inRange _ e v Hs Hv) as [v' [Hv' Hr]].
  unfold run at 1 3 5. cbn [fold_left].
  split; [exact Hc|]. split; [exact Hd|].
  exists v'. split; [exact Hv'|]. split; [exact Hr|].
  destruct Hr as [Hlo _]. intros H0. rewrite H0 in Hlo. lra.
Qed.







End ZoomControlFacts.

(** ** Feature methods *)

Section FeatureMethodFacts.

Context `{Runtime}.

Import FeatureModel FeatureMethods.

Lemma new_coordinates (data : FeatureData) (now random : Q) :
  let lo := orZero (data_start data) in
  let hi := orZero (data_end data) in
  feature_start (new data now random) = (if Js.gt lo hi then hi else lo)
  /\ feature_end (new data now random) = (if Js.gt lo hi then lo else hi).
Proof.
  cbn zeta. unfold new.
  destruct (Js.gt (orZero (data_start data)) (orZero (data_end data)));
    split; reflexivity.
Qed.

(** X23. The constructor orders the coordinates: whichever way round
    [start] and [end] are given, the instance has the same two ends with
    [start <= end]; its length is at least 1, its centre lies within
    one base of the feature, and it is visible in its own range. *)
Theorem constructor_orders_coordinates (data : FeatureData) (a b now random : Q) :
  let f := new (withCoordinates data a b) now random in
  let g := new (withCoordinates data b a) now random in
  feature_start f == feature_start g
  /\ feature_end f == feature_end g
  /\ feature_start f <= feature_end f
  /\ 1 <= getLength f
  /\ feature_start f - 1 < getCenter f <= feature_end f
  /\ isVisible f (feature_start f) (feature_end f) = true.
Proof.
  cbn zeta.
  destruct (new_coordinates (withCoordinates data a b) now random) as [Hs He].
  destruct (new_coordinates (withCoordinates data b a) now random) as [Hs' He'].
  cbn [withCoordinates data_start data_end] in Hs, He, Hs', He'.
  unfold getLength, getCenter, isVisible.
  rewrite Hs, He, Hs', He'. clear Hs He Hs' He'.
  assert (Ha : orZero (Some a) == a).
  { unfold orZero. destruct (Qeq_bool a 0) eqn:E; [|reflexivity].
    apply Qeq_bool_eq in E. symmetry. exact E. }
  assert (Hb : orZero (Some b) == b).
  { unfold orZero. destruct (Qeq_bool b 0) eqn:E; [|reflexivity].
    apply Qeq_bool_eq in E. symmetry. exact E. }
  set (a' := orZero (Some a)) in *. set (b' := orZero (Some b)) in *.
  assert (Hord : (if Js.gt a' b' then b' else a')
                 <= (if Js.gt a' b' then a' else b')).
  { destruct (Js.gt a' b') eqn:E.
    - apply gt_spec in E. lra.
    - apply gt_false in E. exact E. }
  assert (Hsame : (if Js.gt a' b' then b' else a')
                  == (if Js.gt b' a' then a' else b')
                  /\ (if Js.gt a' b' then a' else b')
                     == (if Js.gt b' a' then b' else a')).
  { destruct (Js.gt a' b') eqn:E1; destruct (Js.gt b' a') eqn:E2;
      try apply gt_spec in E1; try apply gt_spec in E2;
      try apply gt_false in E1; try apply gt_false in E2;
      split; lra. }
  destruct Hsame as [Hs1 Hs2].
  set (lo := if Js.gt a' b' then b' else a') in *.
  set (hi := if Js.gt a' b' then a' else b') in *.
  split; [exact Hs1|]. split; [exact Hs2|]. split; [exact Hord|].
  clearbody lo hi. clear Hs1 Hs2.
  split; [lra|]. split.
  - pose proof (Qfloor_le ((lo + hi) / 2)) as Hfl.
    pose proof (Qlt_floor ((lo + hi) / 2)) as Hlt.
    rewrite inject_Z_plus in Hlt. change (inject_Z 1) with 1 in Hlt.
    assert (Hm : 2 * ((lo + hi) / 2) == lo + hi) by (field; discriminate).
    set (m := (lo + hi) / 2) in *. clearbody m.
    split; lra.
  - apply andb_true_iff. split.
    + apply ge_spec. lra.
    + apply le_spec. lra.
Qed.

End FeatureMethodFacts.

(** ** GC values and windows *)

Section GCFacts.

Import GFF3Parser.

Lemma countBase_sum (k : Counts) (base : Ascii.ascii) :
  (gCount (countBase k base) + cCount (countBase k base)
   <= S (gCount k + cCount k))%nat
  /\ (gCount k <= gCount (countBase k base))%nat
  /\ (cCount k <= cCount (countBase k base))%nat.
Proof.
  unfold countBase.
  destruct (String.eqb _ "G"); [cbn; lia|].
  destruct (String.eqb _ "C"); [cbn; lia|].
  destruct (String.eqb _ "A"); [cbn; lia|].
  destruct (String.eqb _ "T"); cbn; lia.
Qed.

Lemma countBases_sum (s : string) (k : Counts) :
  (gCount (countBases s k) + cCount (countBases s k)
   <= gCount k + cCount k + String.length s)%nat.
Proof.
  revert k. induction s as [|base rest IH]; intros k; cbn [countBases String.length].
  - lia.
  - specialize (IH (countBase k base)).
    pose proof (countBase_sum k base). lia.
Qed.

Lemma ofNat_nonneg (n : nat) : 0 <= ofNat n.
Proof.
  unfold ofNat. change 0 with (inject_Z 0). rewrite <- Zle_Qle. lia.
Qed.

Lemma ofNat_le (n m : nat) : (n <= m)%nat -> ofNat n <= ofNat m.
Proof. intros Hle. unfold ofNat. rewrite <- Zle_Qle. lia. Qed.

Lemma ofNat_add (n m : nat) : ofNat (n + m) == ofNat n + ofNat m.
Proof. unfold ofNat. rewrite Nat2Z.inj_add, inject_Z_plus. reflexivity. Qed.

Lemma ofNat_pos (n : nat) : n <> 0%nat -> 0 < ofNat n.
Proof.
  intros Hn. unfold ofNat. change 0 with (inject_Z 0). rewrite <- Zlt_Qlt. lia.
Qed.

Lemma ratio_bounds (n d : Q) : 0 < d -> - d <= n -> n <= d -> -1 <= n / d /\ n / d <= 1.
Proof.
  intros Hd Hlo Hhi. split.
  - apply Qle_shift_div_l; [exact Hd|]. lra.
  - apply Qle_shift_div_r; [exact Hd|]. lra.
Qed.

Lemma skew_bounds (g c : nat) :
  let skew := (ofNat g - ofNat c)
              / (if Nat.eqb (g + c) 0 then 1 else ofNat (g + c)) in
  -1 <= skew /\ skew <= 1.
Proof.
  cbn zeta. pose proof (ofNat_nonneg g). pose proof (ofNat_nonneg c).
  destruct (Nat.eqb (g + c) 0) eqn:E.
  - apply Nat.eqb_eq in E. assert (g = 0%nat) by lia. assert (c = 0%nat) by lia.
    subst. split; vm_compute; discriminate.
  - apply Nat.eqb_neq in E. pose proof (ofNat_pos _ E) as Hpos.
    pose proof (ofNat_add g c) as Hadd.
    apply ratio_bounds; [exact Hpos | lra | lra].
Qed.

(** X24.  The GC values are bounded whatever the sequence and the
    window: the GC content is a percentage between 0 and 100, the
    plus skew lies in [0, 1] and the minus skew in [-1, 0], at most one
    of the two skews is non-zero, and every other track type gives 0. *)
Theorem calculateGCValue_bounds (type sequence : string) (start end_ : Z) :
  let content := calculateGCValue "gc_content" sequence start end_ in
  let plus := calculateGCValue "gc_skew_plus" sequence start end_ in
  let minus := calculateGCValue "gc_skew_minus" sequence start end_ in
  (0 <= content /\ content <= 100)
  /\ (0 <= plus /\ plus <= 1)
  /\ (-1 <= minus /\ minus <= 0)
  /\ (plus == 0 \/ minus == 0)
  /\ (type <> "gc_content"%string -> type <> "gc_skew_plus"%string ->
      type <> "gc_skew_minus"%string ->
      calculateGCValue type sequence start end_ = 0).
Proof.
  cbn zeta. unfold calculateGCValue.
  set (w := JsString.substring sequence start (end_ + 1)).
  destruct (Nat.eqb (String.length w) 0) eqn:Hlen.
  - repeat split; try (vm_compute; discriminate). left; reflexivity.
  - apply Nat.eqb_neq in Hlen.
    change (String.eqb "gc_content" "gc_content") with true.
    change (String.eqb "gc_skew_plus" "gc_content") with false.
    change (String.eqb "gc_skew_plus" "gc_skew_plus") with true.
    change (String.eqb "gc_skew_minus" "gc_content") with false.
    change (String.eqb "gc_skew_minus" "gc_skew_plus") with false.
    change (String.eqb "gc_skew_minus" "gc_skew_minus") with true.
    cbv iota.
    set (k := countBases w (mkCounts 0 0 0 0)).
    pose proof (countBases_sum w (mkCounts 0 0 0 0)) as Hsum.
    fold k in Hsum. cbn [gCount cCount Nat.add] in Hsum.
    pose proof (skew_bounds (gCount k) (cCount k)) as Hskew. cbn zeta in Hskew.
    set (skew := (ofNat (gCount k) - ofNat (cCount k))
                 / (if Nat.eqb (gCount k + cCount k) 0 then 1
                    else ofNat (gCount k + cCount k))) in *.
    destruct Hskew as [Hlo Hhi].
    pose proof (ofNat_pos _ Hlen) as Hpos.
    pose proof (ofNat_nonneg (gCount k)) as Hg.
    pose proof (ofNat_nonneg (cCount k)) as Hc.
    pose proof (ofNat_le _ _ Hsum) as Hle. rewrite ofNat_add in Hle.
    unfold Js.Math_max, Js.Math_min.
    split; [|split; [|split; [|split]]].
    + split.
      * apply Qmult_le_0_compat; [|lra].
        apply Qle_shift_div_l; [exact Hpos | lra].
      * assert (Hr : (ofNat (gCount k) + ofNat (cCount k)) / ofNat (String.length w) <= 1).
        { apply Qle_shift_div_r; [exact Hpos | lra]. }
        set (r := (ofNat (gCount k) + ofNat (cCount k)) / ofNat (String.length w)) in *.
        clearbody r. lra.
    + split; [apply Q.le_max_l | apply Q.max_lub; lra].
    + split; [apply Q.min_glb; lra | apply Q.le_min_l].
    + destruct (Qlt_le_dec 0 skew) as [Hp | Hn].
      * right. apply Q.min_l. lra.
      * left. apply Q.max_l. exact Hn.
    + intros H1 H2 H3.
      apply String.eqb_neq in H1, H2, H3. rewrite H1, H2, H3. reflexivity.
Qed.

End GCFacts.

Section GCWindowFacts.

Import GFF3Parser.

Lemma ofNat_S (n : nat) : ofNat (S n) == ofNat n + 1.
Proof.
  unfold ofNat. rewrite Nat2Z.inj_succ. unfold Z.succ.
  rewrite inject_Z_plus. reflexivity.
Qed.

Lemma contiguous_windows (length : Q) (k a : nat) :
  (forall i, (a <= i)%nat -> (S i < a + k)%nat ->
             (ofNat i + 1) * windowSize <= length) ->
  contiguous (map (gcWindow length) (seq a k)).
Proof.
  revert a. induction k as [|k IH]; intros a Hfull; [exact I|].
  cbn [seq map contiguous].
  destruct k as [|k]; [exact I|].
  change (map (gcWindow length) (seq (S a) (S k)))
    with (gcWindow length (S a) :: map (gcWindow length) (seq (S (S a)) k)).
  split.
  - cbn [gcWindow fst snd]. unfold Js.Math_min.
    rewrite Q.min_l by (apply Hfull; lia).
    rewrite ofNat_S. reflexivity.
  - change (gcWindow length (S a) :: map (gcWindow length) (seq (S (S a)) k))
      with (map (gcWindow length) (seq (S a) (S k))).
    apply IH. intros i Hi Hlt. apply Hfull; lia.
Qed.

Lemma last_windows (length : Q) (m : nat) (d : Q * Q) :
  List.last (map (gcWindow length) (seq 0 (S m))) d = gcWindow length m.
Proof.
  rewrite seq_S, map_app. cbn [map Nat.add]. apply last_last.
Qed.

(** The number of windows of a sequence of [n >= 1] bases. *)
Lemma steps_spec (n : Z) :
  (1 <= n)%Z ->
  exists m : nat,
    Z.to_nat (Qceiling (inject_Z n / windowSize)) = S m
    /\ ofNat m * windowSize + 1 <= inject_Z n
    /\ inject_Z n <= (ofNat m + 1) * windowSize.
Proof.
  intros Hn. unfold windowSize.
  set (x := inject_Z n / 1000).
  assert (Hx : x * 1000 == inject_Z n) by (unfold x; field).
  pose proof (Qle_ceiling x) as Hup.
  pose proof (Qceiling_lt x) as Hlow.
  set (steps := Qceiling x) in *.
  assert (Hn1 : 1 <= inject_Z n).
  { change 1 with (inject_Z 1). rewrite <- Zle_Qle. exact Hn. }
  assert (Hpos : (1 <= steps)%Z).
  { assert (0 < inject_Z steps) by lra.
    change 0 with (inject_Z 0) in H. rewrite <- Zlt_Qlt in H. lia. }
  exists (Z.to_nat (steps - 1)). split; [lia|].
  assert (Hm : ofNat (Z.to_nat (steps - 1)) == inject_Z steps - 1).
  { unfold ofNat. rewrite Z2Nat.id by lia.
    unfold Z.sub. rewrite inject_Z_plus. reflexivity. }
  rewrite Hm. split; [|lra].
  unfold Z.sub in Hlow. rewrite inject_Z_plus in Hlow.
  change (inject_Z (Z.opp 1)) with (-1 # 1) in Hlow.
  assert (Hz : ((steps - 1) * 1000 < n)%Z).
  { rewrite Zlt_Qlt, inject_Z_mult. unfold Z.sub. rewrite inject_Z_plus.
    change (inject_Z (Z.opp 1)) with (-1 # 1).
    change (inject_Z 1000) with 1000. lra. }
  assert (Hz' : ((steps - 1) * 1000 + 1 <= n)%Z) by lia.
  rewrite Zle_Qle, inject_Z_plus, inject_Z_mult in Hz'.
  unfold Z.sub in Hz'. rewrite inject_Z_plus in Hz'.
  change (inject_Z (Z.opp 1)) with (-1 # 1) in Hz'.
  change (inject_Z 1000) with 1000 in Hz'. change (inject_Z 1) with 1 in Hz'.
  lra.
Qed.

Lemma gcWindows_eq (length : Q) :
  gcWindows length
  = map (gcWindow length)
      (seq 0 (Z.to_nat (Qceiling (length / windowSize)))).
Proof. reflexivity. Qed.

(** X25.  For a sequence of [n >= 1] bases the GC windows tile the
    sequence: the first window starts at base 1, every window starts
    right after the one before it ends, the last one ends at base [n],
    and each window is in order (so the [Feature] constructor never
    swaps its ends) and at most 1000 bases long. *)
Theorem gc_windows_tile (n : Z) :
  (1 <= n)%Z ->
  let windows := gcWindows (inject_Z n) in
  (exists w rest, windows = w :: rest /\ fst w == 1)
  /\ contiguous windows
  /\ snd (List.last windows (0, 0)) == inject_Z n
  /\ Forall (fun w => fst w <= snd w /\ snd w - fst w + 1 <= windowSize)
       windows.
Proof.
  intros Hn. cbn zeta. rewrite gcWindows_eq.
  destruct (steps_spec n Hn) as [m [Hsteps [Hlow Hup]]].
  rewrite Hsteps. clear Hsteps.
  set (length := inject_Z n) in *. clearbody length.
  unfold windowSize in *.
  assert (Hbelow : forall i, (i <= m)%nat -> ofNat i <= ofNat m).
  { intros i Hi. apply ofNat_le. exact Hi. }
  split; [|split; [|split]].
  - exists (gcWindow length 0), (map (gcWindow length) (seq 1 m)).
    split; [reflexivity|]. cbn [gcWindow fst]. unfold windowSize.
    vm_compute. reflexivity.
  - apply contiguous_windows. intros i _ Hi. unfold windowSize.
    assert (Hle : ofNat (S i) <= ofNat m) by (apply ofNat_le; lia).
    rewrite ofNat_S in Hle. lra.
  - rewrite last_windows. cbn [gcWindow snd]. unfold windowSize, Js.Math_min.
    apply Q.min_r. exact Hup.
  - apply List.Forall_forall. intros w Hw.
    apply in_map_iff in Hw. destruct Hw as [i [<- Hi]].
    apply in_seq in Hi. cbn [gcWindow fst snd]. unfold windowSize, Js.Math_min.
    assert (Hle : ofNat i <= ofNat m) by (apply Hbelow; lia).
    pose proof (ofNat_nonneg i) as Hi0.
    split.
    + apply Q.min_glb; lra.
    + pose proof (Q.le_min_l ((ofNat i + 1) * 1000) length). lra.
Qed.

Lemma gc_windows_tile_witness :
  let windows := gcWindows (inject_Z 2500) in
  (exists w rest, windows = w :: rest /\ fst w == 1)
  /\ contiguous windows
  /\ snd (List.last windows (0, 0)) == inject_Z 2500
  /\ Forall (fun w => fst w <= snd w /\ snd w - fst w + 1 <= windowSize)
       windows.
Proof. apply (gc_windows_tile 2500). lia. Defined.

End GCWindowFacts.

(** ** Cache manager *)

Section CacheFacts.

Import CacheManager.

Context {T : Type}.

Implicit Types (this : CacheManager.t T) (key : string) (item : CacheItem T).

Lemma cleanup_fold_expired (now : Q) (entries : list (string * CacheItem T))
    (m : gmap string (CacheItem T)) key item :
  In (key, item) entries -> expired now item = true ->
  fold_left (cleanupEntry now) entries m !! key = None.
Proof.
  revert m. induction entries as [|[k it] entries IH]; intros m Hin Hexp;
    [destruct Hin|].
  cbn [fold_left].
  assert (Hgone : forall (rest : list (string * CacheItem T)) m',
             m' !! key = None ->
             fold_left (cleanupEntry now) rest m' !! key = None).
  { clear. intros rest. induction rest as [|[k it] rest IH]; intros m' Hm';
      [exact Hm'|].
    cbn [fold_left]. apply IH. unfold cleanupEntry.
    destruct (expired now it); [|exact Hm'].
    destruct (decide (k = key)) as [->|Hne].
    - apply lookup_delete_eq.
    - rewrite lookup_delete_ne by exact Hne. exact Hm'. }
  destruct Hin as [Heq | Hin].
  - inversion Heq; subst k it. apply Hgone.
    unfold cleanupEntry. rewrite Hexp. apply lookup_delete_eq.
  - apply IH; assumption.
Qed.

Lemma cleanup_fold_live (now : Q) (entries : list (string * CacheItem T))
    (m : gmap string (CacheItem T)) key :
  (forall item, In (key, item) entries -> expired now item = false) ->
  fold_left (cleanupEntry now) entries m !! key = m !! key.
Proof.
  revert m. induction entries as [|[k it] entries IH]; intros m Hlive;
    [reflexivity|].
  cbn [fold_left]. rewrite IH.
  - unfold cleanupEntry. destruct (expired now it) eqn:Hexp; [|reflexivity].
    destruct (decide (k = key)) as [->|Hne].
    + rewrite (Hlive it) in Hexp; [discriminate | left; reflexivity].
    + apply lookup_delete_ne. exact Hne.
  - intros item Hin. apply Hlive. right. exact Hin.
Qed.

(** What [cleanup] leaves of each key. *)
Lemma cleanup_lookup this (now : Q) key :
  cache (cleanup this now) !! key
  = match cache this !! key with
    | Some item => if expired now item then None else Some item
    | None => None
    end.
Proof.
  unfold cleanup. cbn [cache].
  destruct (cache this !! key) as [item|] eqn:Hlook.
  - destruct (expired now item) eqn:Hexp.
    + apply (cleanup_fold_expired now _ _ key item); [|exact Hexp].
      apply (proj1 (list_elem_of_In _ _)).
      apply (proj2 (elem_of_map_to_list _ _ _)). exact Hlook.
    + rewrite cleanup_fold_live; [exact Hlook|].
      intros item' Hin.
      apply (proj2 (list_elem_of_In _ _)) in Hin.
      apply (proj1 (elem_of_map_to_list _ _ _)) in Hin.
      rewrite Hlook in Hin. inversion Hin; subst item'. exact Hexp.
  - rewrite cleanup_fold_live; [exact Hlook|].
    intros item' Hin.
    apply (proj2 (list_elem_of_In _ _)) in Hin.
    apply (proj1 (elem_of_map_to_list _ _ _)) in Hin.
    rewrite Hlook in Hin. discriminate.
Qed.

(** X26.  A value that was set is returned by [get] for as long as the
    time since the [set] does not exceed the expiry, where an expiry
    that is missing or 0 means the default expiry of the manager; after
    that [get] returns null and drops the entry.  A [set] never changes
    what [get] returns for another key. *)
Theorem get_after_set this key (value : T) (expiry : option Q) (setAt now : Q) :
  let limit := orDefault expiry (defaultExpiry this) in
  let this' := set this key value expiry setAt in
  (now - setAt <= limit -> fst (get this' key now) = Some value)
  /\ (limit < now - setAt ->
      fst (get this' key now) = None
      /\ cache (snd (get this' key now)) !! key = None)
  /\ (forall key', key' <> key ->
      fst (get this' key' now) = fst (get this key' now)).
Proof.
  cbn zeta. unfold get, set. cbn [cache defaultExpiry].
  rewrite lookup_insert_eq. unfold expired. cbn [timestamp CacheManager.expiry data].
  split; [|split].
  - intros Hle. apply gt_false in Hle. rewrite Hle. reflexivity.
  - intros Hlt. apply gt_spec in Hlt. rewrite Hlt. cbn [fst snd cache].
    split; [reflexivity | apply lookup_delete_eq].
  - intros key' Hne. rewrite lookup_insert_ne by congruence.
    destruct (cache this !! key') as [item|]; [|reflexivity].
    destruct (Js.gt _ _); reflexivity.
Qed.

(** X27.  [cleanup] removes exactly the expired entries: a key is left in
    the map if and only if [has] answers true for it at that moment, and
    what [get] and [has] return at that moment is the same before and
    after the cleanup. *)
Theorem cleanup_is_invisible this (now : Q) key :
  (is_Some (cache (cleanup this now) !! key) <-> fst (has this key now) = true)
  /\ fst (get (cleanup this now) key now) = fst (get this key now)
  /\ fst (has (cleanup this now) key now) = fst (has this key now).
Proof.
  unfold get, has. rewrite cleanup_lookup.
  destruct (cache this !! key) as [item|].
  - destruct (expired now item) eqn:Hexp; cbn [fst].
    + split; [|split; reflexivity].
      split; [intros [x Hx]; discriminate | discriminate].
    + rewrite Hexp. cbn [fst].
      split; [|split; reflexivity].
      split; [reflexivity | intros _; eexists; reflexivity].
  - cbn [fst]. split; [|split; reflexivity].
    split; [intros [x Hx]; discriminate | discriminate].
Qed.

End CacheFacts.

(** ** Track, sequence and genome models *)

Section TrackModelFacts.

Import FeatureModel TrackModel.

Context `{Runtime}.

Lemma findIndex_none {A : Type} (test : A -> bool) (l : list A) :
  findIndex test l = None -> List.filter test l = [].
Proof.
  induction l as [|x rest IH]; [reflexivity|].
  cbn [findIndex List.filter]. destruct (test x); [discriminate|].
  destruct (findIndex test rest); [discriminate|]. intros _. apply IH. reflexivity.
Qed.

Lemma findIndex_some {A : Type} (test : A -> bool) (l : list A) (index : nat) :
  findIndex test l = Some index ->
  List.filter test (splice1 index l) = tl (List.filter test l)
  /\ List.filter (fun x => negb (test x)) (splice1 index l)
     = List.filter (fun x => negb (test x)) l.
Proof.
  revert index. induction l as [|x rest IH]; intros index; [discriminate|].
  cbn [findIndex]. destruct (test x) eqn:Hx.
  - intros [= <-]. unfold splice1. cbn [firstn skipn app List.filter].
    rewrite Hx. cbn [negb tl]. split; reflexivity.
  - destruct (findIndex test rest) as [i|]; [|discriminate].
    intros [= <-]. destruct (IH i eq_refl) as [IH1 IH2].
    unfold splice1 in *. cbn [firstn skipn app List.filter].
    rewrite Hx. cbn [negb]. rewrite IH1, IH2. split; reflexivity.
Qed.

(** X28.  [removeFeature] takes out the first feature with the id and
    nothing else: of the features with that id all but the first stay,
    in order (so with a repeated id one call does not remove the id),
    and the features with another id are left as they were. *)
Theorem removeFeature_first_only (features : list Feature) (featureId : string) :
  let hasId f := String.eqb (feature_id f) featureId in
  List.filter hasId (removeFeature features featureId)
  = tl (List.filter hasId features)
  /\ List.filter (fun f => negb (hasId f)) (removeFeature features featureId)
     = List.filter (fun f => negb (hasId f)) features
  /\ List.length (removeFeature features featureId)
     = (List.length features - (if existsb hasId features then 1 else 0))%nat.
Proof.
  cbn zeta. unfold removeFeature.
  set (hasId := fun f => String.eqb (feature_id f) featureId).
  assert (Hlen : forall (l : list Feature) index,
             findIndex hasId l = Some index ->
             existsb hasId l = true
             /\ List.length (splice1 index l) = (List.length l - 1)%nat).
  { clear. intros l. induction l as [|x rest IH]; intros index; [discriminate|].
    cbn [findIndex existsb]. destruct (hasId x).
    - intros [= <-]. split; [reflexivity|].
      change (List.length rest = (S (List.length rest) - 1)%nat). lia.
    - destruct (findIndex hasId rest) as [i|] eqn:Hi; [|discriminate].
      intros [= <-]. destruct (IH i eq_refl) as [He Hl].
      split; [exact He|].
      change (S (List.length (splice1 i rest))
              = (S (List.length rest) - 1)%nat).
      rewrite Hl. destruct rest; [discriminate|]. cbn [List.length]. lia. }
  destruct (findIndex hasId features) as [index|] eqn:Hfind.
  - destruct (findIndex_some hasId features index Hfind) as [H1 H2].
    destruct (Hlen features index Hfind) as [He Hl].
    rewrite He. split; [exact H1|]. split; [exact H2 | exact Hl].
  - pose proof (findIndex_none hasId features Hfind) as Hnone.
    rewrite Hnone. split; [reflexivity|]. split; [reflexivity|].
    assert (He : existsb hasId features = false).
    { clear -Hfind. induction features as [|x rest IH]; [reflexivity|].
      cbn [findIndex existsb] in *. destruct (hasId x); [discriminate|].
      destruct (findIndex hasId rest); [discriminate|]. apply IH. reflexivity. }
    rewrite He. lia.
Qed.

Lemma new_asPartial_same (f : Feature) (now random : Q) :
  FeatureModel.wellFormed f ->
  sameFields (FeatureModel.new (asPartial f) now random) f.
Proof.
  intros (Hid & Hty & Hle).
  unfold asPartial, FeatureModel.new.
  cbn [FeatureModel.data_id FeatureModel.data_name FeatureModel.data_type
       data_start data_end data_strand data_attributes data_sequenceId].
  rewrite (eqb_empty_false _ Hid). unfold orString.
  rewrite (eqb_empty_false _ Hty).
  assert (Hgt : Js.gt (orZero (Some (feature_start f)))
                      (orZero (Some (feature_end f))) = false).
  { apply gt_false. rewrite !orZero_eq. exact Hle. }
  rewrite Hgt. unfold sameFields.
  cbn [feature_id feature_name feature_type feature_start feature_end
       feature_strand feature_attributes].
  rewrite !orZero_eq.
  repeat split; reflexivity.
Qed.

Lemma sameFields_trans (a b c : Feature) :
  sameFields a b -> sameFields b c -> sameFields a c.
Proof.
  intros (A1 & A2 & A3 & A4 & A5 & A6 & A7) (B1 & B2 & B3 & B4 & B5 & B6 & B7).
  unfold sameFields.
  split; [congruence|]. split; [congruence|]. split; [congruence|].
  split; [rewrite A4; exact B4|]. split; [rewrite A5; exact B5|].
  split; [congruence|].
  intros key. rewrite A7. apply B7.
Qed.

Lemma construct_wellFormed (clock : nat -> Q * Q) (data : list FeatureData)
    (index : nat) :
  Forall FeatureModel.wellFormed (construct clock index data).
Proof.
  revert index. induction data as [|d rest IH]; intros index;
    cbn [construct]; constructor; [apply new_wellFormed | apply IH].
Qed.

Lemma construct_same (through : Feature -> Feature)
    (clock : nat -> Q * Q) (fs : list Feature) (index : nat) :
  (forall f now random, FeatureModel.wellFormed f ->
     sameFields (FeatureModel.new (asPartial (through f)) now random) f) ->
  Forall FeatureModel.wellFormed fs ->
  Forall2 sameFields (construct clock index (map asPartial (map through fs))) fs.
Proof.
  intros Hone Hwf. revert index.
  induction Hwf as [|f rest Hf Hrest IH]; intros index;
    cbn [map construct]; constructor; [apply Hone; exact Hf | apply IH].
Qed.

Lemma Forall2_sameFields_trans (a b c : list Feature) :
  Forall2 sameFields a b -> Forall2 sameFields b c -> Forall2 sameFields a c.
Proof.
  intros Hab. revert c. induction Hab as [|x y a b Hxy Hab IH]; intros c Hbc.
  - inversion Hbc. constructor.
  - inversion Hbc as [|y' z b' c' Hyz Hbc']; subst.
    constructor; [exact (sameFields_trans _ _ _ Hxy Hyz) | apply IH; exact Hbc'].
Qed.

(** X29.  A track whose fields are as the constructor leaves them
    survives the JSON round trip: [fromJSON(toJSON(t))] has the id, name,
    type, colour, visibility (also when it is false) and height of [t],
    and its features are those of [t] field by field, in order, although
    each of them is rebuilt twice on the way; the readings of the clock
    and of the random source do not matter. *)
Theorem Track_roundtrip (this : TrackObject) (now random colorRandom : Q)
    (clock clock' : nat -> Q * Q) :
  TrackModel.wellFormed this ->
  sameTrack
    (TrackModel.fromJSON (TrackModel.toJSON this) now random colorRandom
       clock clock')
    this.
Proof.
  intros (Hid & Hname & Hty & (c & Hc & Htruthy) & Hh & Hfs).
  unfold TrackModel.fromJSON, TrackModel.toJSON, withFeatures, TrackModel.new.
  cbn [TrackModel.data_id TrackModel.data_name TrackModel.data_type
       data_color data_visible data_height data_features
       id name type color visible height features].
  rewrite (eqb_empty_false _ Hid). unfold orString.
  rewrite (eqb_empty_false _ Hname), (eqb_empty_false _ Hty).
  rewrite Hc, Htruthy.
  assert (Hh' : Qeq_bool (height this) 0 = false).
  { destruct (Qeq_bool (height this) 0) eqn:E; [|reflexivity].
    apply Qeq_bool_eq in E. contradiction. }
  rewrite Hh'. unfold sameTrack.
  cbn [id name type color visible height features].
  split; [reflexivity|]. split; [reflexivity|]. split; [reflexivity|].
  split; [symmetry; exact Hc|].
  split; [destruct (visible this); reflexivity|].
  split; [reflexivity|].
  set (first := construct clock 0
                  (map asPartial (map FeatureModel.toJSON (features this)))).
  assert (H1 : Forall2 sameFields first (features this)).
  { apply construct_same; [|exact Hfs].
    intros f n r Hf. exact (roundtrip_wellFormed f n r Hf). }
  assert (H2 : Forall2 sameFields (construct clock' 0 (map asPartial first)) first).
  { rewrite <- (map_id first) at 1.
    apply (construct_same (fun f => f)).
    - intros f n r Hf. apply new_asPartial_same. exact Hf.
    - apply construct_wellFormed. }
  exact (Forall2_sameFields_trans _ _ _ H2 H1).
Qed.

(** The constructor establishes [wellFormed] whenever the random source
    answers within [0, 1), as [Math.random] does. *)
Lemma new_Track_wellFormed (data : TrackData) (now random colorRandom : Q)
    (clock : nat -> Q * Q) :
  0 <= colorRandom -> colorRandom < 1 ->
  TrackModel.wellFormed (TrackModel.new data now random colorRandom clock).
Proof.
  intros Hlo Hhi. unfold TrackModel.wellFormed, TrackModel.new.
  cbn [id name type color height features].
  assert (Hdefault : exists c, getDefaultColor colorRandom = Some c
                               /\ truthy c = true).
  { unfold getDefaultColor.
    change (inject_Z (Z.of_nat (List.length colors))) with 6.
    assert (H0 : (0 <= Qfloor (colorRandom * 6))%Z).
    { change 0%Z with (Qfloor 0). apply Qfloor_resp_le. lra. }
    assert (H6 : (Qfloor (colorRandom * 6) < 6)%Z).
    { rewrite Zlt_Qlt. eapply Qle_lt_trans; [apply Qfloor_le|].
      change (inject_Z 6) with 6. lra. }
    destruct (Z.ltb_spec (Qfloor (colorRandom * 6)) 0) as [Hneg|_]; [lia|].
    set (i := Qfloor (colorRandom * 6)) in *.
    assert (Hi : i = 0%Z \/ i = 1%Z \/ i = 2%Z \/ i = 3%Z \/ i = 4%Z \/ i = 5%Z)
      by lia.
    destruct Hi as [-> | [-> | [-> | [-> | [-> | ->]]]]];
      eexists; split; reflexivity. }
  split; [|split; [|split; [|split; [|split]]]].
  - destruct (TrackModel.data_id data) as [v|];
      [destruct (String.eqb v "") eqn:E|];
      try (apply String.eqb_neq; first [exact E | reflexivity]).
  - unfold orString. destruct (TrackModel.data_name data) as [v|];
      [destruct (String.eqb v "") eqn:E|];
      try (apply String.eqb_neq; first [exact E | reflexivity]).
  - unfold orString. destruct (TrackModel.data_type data) as [v|];
      [destruct (String.eqb v "") eqn:E|];
      try (apply String.eqb_neq; first [exact E | reflexivity]).
  - destruct (data_color data) as [c|]; [|exact Hdefault].
    destruct (truthy c) eqn:E; [|exact Hdefault].
    exists c. split; [reflexivity | exact E].
  - destruct (data_height data) as [h|]; [|vm_compute; discriminate].
    destruct (Qeq_bool h 0) eqn:E; [vm_compute; discriminate|].
    intros Heq. apply Qeq_eq_bool in Heq. congruence.
  - destruct (data_features data); [apply construct_wellFormed | constructor].
Qed.

End TrackModelFacts.

Section TrackRoundtripExample.

Import FeatureModel TrackModel.

Lemma Track_roundtrip_witness :
  sameTrack
    (TrackModel.fromJSON (TrackModel.toJSON sampleTrack) 0 0 0
       (fun _ => (0, 0)) (fun _ => (0, 0)))
    sampleTrack.
Proof.
  apply (Track_roundtrip sampleTrack 0 0 0 (fun _ => (0, 0)) (fun _ => (0, 0))).
  unfold TrackModel.wellFormed, FeatureModel.wellFormed, sampleTrack, featureAt.
  cbn [id name type color height features feature_id feature_type
       feature_start feature_end].
  split; [discriminate|]. split; [discriminate|]. split; [discriminate|].
  split; [exists (ColorNumber 255); split; reflexivity|].
  split; [vm_compute; discriminate|].
  repeat constructor; try discriminate.
Defined.

End TrackRoundtripExample.

Section GenomeModelFacts.

Import GenomeModel.

Lemma findIn_concat (arrays : list (list Feature)) (featureId : string) :
  findIn arrays featureId
  = find (fun f => String.eqb (feature_id f) featureId) (concat arrays).
Proof.
  induction arrays as [|features rest IH]; [reflexivity|].
  cbn [findIn concat].
  set (hasId := fun f => String.eqb (feature_id f) featureId) in *.
  induction features as [|f fs IHf]; [exact IH|].
  cbn [find app]. destruct (hasId f); [reflexivity | exact IHf].
Qed.

Lemma find_over_app {A : Type} (test : A -> bool) (l l' : list A) :
  find test (l ++ l')
  = match find test l with Some x => Some x | None => find test l' end.
Proof.
  induction l as [|x rest IH]; [reflexivity|].
  cbn [find app]. destruct (test x); [reflexivity | exact IH].
Qed.

(** X30.  [getFeature] returns the first feature with the id in the
    order track by track and then sequence by sequence: a feature on a
    track hides every feature with the same id on a sequence, and the
    result is undefined exactly when no feature of the genome has the
    id. *)
Theorem getFeature_first_match (this : GenomeObject) (featureId : string) :
  let hasId f := String.eqb (feature_id f) featureId in
  getFeature this featureId = find hasId (everyFeature this)
  /\ (getFeature this featureId = None
      <-> forall f, In f (everyFeature this) -> feature_id f <> featureId)
  /\ (forall f, getFeature this featureId = Some f ->
        feature_id f = featureId /\ In f (everyFeature this)).
Proof.
  cbn zeta.
  assert (Heq : getFeature this featureId
                = find (fun f => String.eqb (feature_id f) featureId)
                    (everyFeature this)).
  { unfold getFeature, everyFeature.
    rewrite find_over_app, !findIn_concat. reflexivity. }
  split; [exact Heq|]. rewrite Heq. split.
  - split.
    + intros Hnone f Hin Hid.
      pose proof (find_none _ _ Hnone f Hin) as Hf. cbn beta in Hf.
      apply String.eqb_neq in Hf. contradiction.
    + intros Hall.
      destruct (find _ (everyFeature this)) as [f|] eqn:Hfind; [|reflexivity].
      apply find_some in Hfind. destruct Hfind as [Hin Hid].
      apply String.eqb_eq in Hid. destruct (Hall f Hin Hid).
  - intros f Hfind. apply find_some in Hfind. destruct Hfind as [Hin Hid].
    apply String.eqb_eq in Hid. split; assumption.
Qed.

End GenomeModelFacts.
